(** * sjtu::linked_hashmap: a hash table threaded by an insertion-order list

    Shallow embedding of [src/linked_hashmap.hpp].  Nodes live in a heap
    (a finite map from addresses to [Node] records); a [linked_hashmap]
    object holds the bucket array, the two counters and the head and tail
    of the insertion-order list.  Member functions are computations in a
    small state-and-exception monad over the heap and the object they are
    called on.  Undefined behaviour of the C++ program (dereferencing a null
    or dangling [Node*], indexing the bucket array out of range, [% 0]) is the
    outcome [Fault]. *)

From stdpp Require Import numbers list gmap.

Local Open Scope N_scope.

(** Addresses of heap objects; a [Node*] is an optional address, [None]
    being [nullptr]. *)
Abbreviation loc := positive (only parsing).
Abbreviation ptr := (option positive) (only parsing).

(** ** Outcomes and the monad *)

(** The two exception classes of [exceptions.hpp] that the container throws. *)
Inductive exn : Set := index_out_of_bound | invalid_iterator.

Inductive outcome (S A : Type) : Type :=
| Ok (a : A) (s : S)        (* normal return, with the state reached *)
| Throw (e : exn) (s : S)   (* exception [e] leaves the function in state [s] *)
| Fault                     (* undefined behaviour *)
| OutOfFuel.                (* a [while] loop did not finish within its fuel *)
Arguments Ok {S A} a s.
Arguments Throw {S A} e s.
Arguments Fault {S A}.
Arguments OutOfFuel {S A}.

Definition bind {S A B} (c : S → outcome S A) (k : A → S → outcome S B)
  : S → outcome S B :=
  λ s, match c s with
       | Ok a s' => k a s'
       | Throw e s' => Throw e s'
       | Fault => Fault
       | OutOfFuel => OutOfFuel
       end.

Definition ret {S A} (a : A) : S → outcome S A := λ s, Ok a s.
Definition throw {S A} (e : exn) : S → outcome S A := λ s, Throw e s.
Definition fault {S A} : S → outcome S A := λ _, Fault.
Definition out_of_fuel {S A} : S → outcome S A := λ _, OutOfFuel.

Notation "'let*' x := c 'in' k" := (bind c (λ x, k))
  (at level 10, x name, c at level 100, k at level 200).
Notation "c ;; k" := (bind c (λ _, k))
  (at level 100, k at level 200, right associativity).

(** [size_t] is a 64-bit unsigned integer. *)
Definition size_max : N := 2 ^ 64.
Definition wrap (x : N) : N := x mod size_max.

Section LinkedHashMap.

Context {Key T : Type}.

(** The template parameters [Hash] and [Equal], the value [T()] and the
    address that [new Node] returns in a given heap. *)
Variable hasher : Key → N.
Variable key_equal : Key → Key → bool.
Variable default_T : T.

(** ** Data *)

Record Node : Type := mkNode {
  data : Key * T;        (* pair<const Key, T> data *)
  next : ptr;            (* next in hash bucket *)
  prev : ptr;            (* prev in hash bucket *)
  list_next : ptr;       (* next in insertion order *)
  list_prev : ptr        (* prev in insertion order *)
}.

Definition set_next (p : ptr) (n : Node) : Node :=
  mkNode (data n) p (prev n) (list_next n) (list_prev n).
Definition set_prev (p : ptr) (n : Node) : Node :=
  mkNode (data n) (next n) p (list_next n) (list_prev n).
Definition set_list_next (p : ptr) (n : Node) : Node :=
  mkNode (data n) (next n) (prev n) p (list_prev n).
Definition set_list_prev (p : ptr) (n : Node) : Node :=
  mkNode (data n) (next n) (prev n) (list_next n) p.

Variable alloc : gmap loc Node → loc.

(** The object.  [this] is the address of the object itself, which iterators
    record as their [container]; no member function writes it. *)
Record linked_hashmap : Type := mkMap {
  this : loc;
  buckets : list ptr;        (* Node** buckets *)
  bucket_count : N;
  element_count : N;
  head : ptr;
  tail : ptr
}.

(** [iterator] and [const_iterator] have the same two members. *)
Record iterator : Type := mkIt {
  current : ptr;
  container : option loc     (* const linked_hashmap* *)
}.
Definition const_iterator : Type := iterator.

Record state : Type := mkState {
  mem : gmap loc Node;
  obj : linked_hashmap
}.

Definition M (A : Type) : Type := state → outcome state A.

Definition INITIAL_CAPACITY : N := 16.

(** [LOAD_FACTOR] is the double 0.75 and [element_count >= bucket_count *
    LOAD_FACTOR] is a comparison of doubles.  For operands below [2^53] with
    [bucket_count] a multiple of four, the conversions and the product are
    exact, and the comparison is the one of the rationals. *)
Definition load_reached (count capacity : N) : bool :=
  3 * capacity <=? 4 * count.

(** ** Primitive accesses *)

Definition gets {A} (f : linked_hashmap → A) : M A := λ s, Ok (f (obj s)) s.
Definition modify (f : linked_hashmap → linked_hashmap) : M unit :=
  λ s, Ok tt (mkState (mem s) (f (obj s))).

Definition put_buckets (b : list ptr) : M unit :=
  modify (λ m, mkMap (this m) b (bucket_count m) (element_count m) (head m) (tail m)).
Definition put_bucket_count (c : N) : M unit :=
  modify (λ m, mkMap (this m) (buckets m) c (element_count m) (head m) (tail m)).
Definition put_element_count (c : N) : M unit :=
  modify (λ m, mkMap (this m) (buckets m) (bucket_count m) c (head m) (tail m)).
Definition put_head (p : ptr) : M unit :=
  modify (λ m, mkMap (this m) (buckets m) (bucket_count m) (element_count m) p (tail m)).
Definition put_tail (p : ptr) : M unit :=
  modify (λ m, mkMap (this m) (buckets m) (bucket_count m) (element_count m) (head m) p).

(** [arr[i]] for reading: a fault outside the array. *)
Definition array_get (arr : list ptr) (i : N) : M ptr :=
  λ s, match arr !! N.to_nat i with
       | Some p => Ok p s
       | None => Fault
       end.

(** [buckets[i]] and [buckets[i] = p]. *)
Definition bucket_get (i : N) : M ptr :=
  let* b := gets buckets in array_get b i.
Definition bucket_put (i : N) (p : ptr) : M unit :=
  let* b := gets buckets in
  if decide (N.to_nat i < length b)%nat
  then put_buckets (<[N.to_nat i := p]> b)
  else fault.

(** [*p] for a [Node* p]. *)
Definition load (p : ptr) : M Node :=
  λ s, match p with
       | Some x => match mem s !! x with
                   | Some n => Ok n s
                   | None => Fault
                   end
       | None => Fault
       end.

(** [p->field = v], as the update [f] of the node at [p]. *)
Definition store (p : ptr) (f : Node → Node) : M unit :=
  λ s, match p with
       | Some x => match mem s !! x with
                   | Some n => Ok tt (mkState (<[x := f n]> (mem s)) (obj s))
                   | None => Fault
                   end
       | None => Fault
       end.

(** [new Node(value)]: both constructors null the four links. *)
Definition new_Node (value : Key * T) : M loc :=
  λ s, let x := alloc (mem s) in
       Ok x (mkState (<[x := mkNode value None None None None]> (mem s)) (obj s)).

(** [delete p]. *)
Definition delete_Node (p : ptr) : M unit :=
  λ s, match p with
       | Some x => match mem s !! x with
                   | Some _ => Ok tt (mkState (delete x (mem s)) (obj s))
                   | None => Fault
                   end
       | None => Ok tt s
       end.

(** Fuel for a [while] loop that follows links: one more than the number of
    nodes in the heap, which a walk without a repeated node cannot exceed. *)
Definition fuel : M nat := λ s, Ok (S (size (mem s))) s.

(** ** Private helpers *)

Definition hash_index (key : Key) : M N :=
  let* bc := gets bucket_count in
  if bc =? 0 then fault else ret (hasher key mod bc).

(** The [while (current)] loop of [rehash]: moves the rest of one old chain
    to the heads of the new buckets. *)
Fixpoint rehash_chain (f : nat) (new_capacity : N) (new_buckets : list ptr)
    (cur : ptr) : M (list ptr) :=
  match cur with
  | None => ret new_buckets
  | Some _ =>
    match f with
    | O => out_of_fuel
    | S f' =>
      let* n := load cur in
      let nxt := next n in
      if new_capacity =? 0 then fault else
      let new_index := hasher (data n).1 mod new_capacity in
      let* b := array_get new_buckets new_index in
      store cur (set_next b) ;;
      (match b with
       | Some _ => store b (set_prev cur)
       | None => ret tt
       end) ;;
      store cur (set_prev None) ;;
      rehash_chain f' new_capacity (<[N.to_nat new_index := cur]> new_buckets) nxt
    end
  end.

(** The [for] loop of [rehash]: [k] iterations remain, at index [i]. *)
Fixpoint rehash_for (k : nat) (i : N) (new_capacity : N) (new_buckets : list ptr)
  : M (list ptr) :=
  match k with
  | O => ret new_buckets
  | S k' =>
    let* cur := bucket_get i in
    let* f := fuel in
    let* nb := rehash_chain f new_capacity new_buckets cur in
    rehash_for k' (i + 1) new_capacity nb
  end.

Definition rehash (new_capacity : N) : M unit :=
  let new_buckets := replicate (N.to_nat new_capacity) (None : ptr) in
  let* bc := gets bucket_count in
  let* nb := rehash_for (N.to_nat bc) 0 new_capacity new_buckets in
  put_buckets nb ;;
  put_bucket_count new_capacity.

Definition ensure_capacity : M unit :=
  let* ec := gets element_count in
  let* bc := gets bucket_count in
  if load_reached ec bc then rehash (wrap (bc * 2)) else ret tt.

(** ** Iterators

    The step operators read the heap only; [None] is a fault.  The postfix
    forms return the old value together with the stepped iterator. *)

Definition step_to (h : gmap loc Node) (field : Node → ptr) (it : iterator)
  : option iterator :=
  match current it with
  | Some c =>
    match h !! c with
    | Some n => Some (mkIt (field n) (container it))
    | None => None
    end
  | None => Some it
  end.

Definition iterator_preinc (h : gmap loc Node) (it : iterator) : option iterator :=
  step_to h list_next it.
Definition iterator_postinc (h : gmap loc Node) (it : iterator)
  : option (iterator * iterator) :=
  let temp := it in
  match step_to h list_next it with
  | Some it' => Some (temp, it')
  | None => None
  end.
Definition iterator_predec (h : gmap loc Node) (it : iterator) : option iterator :=
  step_to h list_prev it.
Definition iterator_postdec (h : gmap loc Node) (it : iterator)
  : option (iterator * iterator) :=
  let temp := it in
  match step_to h list_prev it with
  | Some it' => Some (temp, it')
  | None => None
  end.

Definition const_iterator_preinc (h : gmap loc Node) (it : const_iterator)
  : option const_iterator :=
  step_to h list_next it.
Definition const_iterator_postinc (h : gmap loc Node) (it : const_iterator)
  : option (const_iterator * const_iterator) :=
  let temp := it in
  match step_to h list_next it with
  | Some it' => Some (temp, it')
  | None => None
  end.
Definition const_iterator_predec (h : gmap loc Node) (it : const_iterator)
  : option const_iterator :=
  step_to h list_prev it.
Definition const_iterator_postdec (h : gmap loc Node) (it : const_iterator)
  : option (const_iterator * const_iterator) :=
  let temp := it in
  match step_to h list_prev it with
  | Some it' => Some (temp, it')
  | None => None
  end.

(** [*it]: the pair stored in the node. *)
Definition deref (h : gmap loc Node) (it : iterator) : option (Key * T) :=
  match current it with
  | Some c => data <$> h !! c
  | None => None
  end.

(** [operator==] and [operator!=], in all four combinations of flavours,
    compare [current] only. *)
Definition it_eq (a b : iterator) : bool := bool_decide (current a = current b).
Definition it_neq (a b : iterator) : bool := negb (it_eq a b).

(** ** Public member functions *)

Definition empty_map (addr : loc) : linked_hashmap :=
  mkMap addr (replicate (N.to_nat INITIAL_CAPACITY) None) INITIAL_CAPACITY 0 None None.

Definition begin : M iterator :=
  let* hd := gets head in let* t := gets this in ret (mkIt hd (Some t)).
Definition cbegin : M const_iterator := begin.
Definition end_ : M iterator :=
  let* t := gets this in ret (mkIt None (Some t)).
Definition cend : M const_iterator := end_.

Definition empty : M bool :=
  let* ec := gets element_count in ret (ec =? 0).
Definition size : M N := gets element_count.

(** The chain walk shared by [find] and the duplicate check of [insert]. *)
Fixpoint chain_walk (f : nat) (key : Key) (cur : ptr) : M ptr :=
  match cur with
  | None => ret None
  | Some _ =>
    match f with
    | O => out_of_fuel
    | S f' =>
      let* n := load cur in
      if key_equal (data n).1 key then ret cur
      else chain_walk f' key (next n)
    end
  end.

Definition find (key : Key) : M iterator :=
  let* index := hash_index key in
  let* cur := bucket_get index in
  let* f := fuel in
  let* r := chain_walk f key cur in
  let* t := gets this in
  ret (mkIt r (Some t)).
Definition find_const (key : Key) : M const_iterator := find key.

Definition count (key : Key) : M N :=
  let* it := find_const key in
  let* e := cend in
  ret (if it_neq it e then 1 else 0).

(** [at] returns a [T&]; the reference is modelled by the address of the node
    whose [data.second] it designates. *)
Definition at_ (key : Key) : M loc :=
  let* it := find key in
  let* e := end_ in
  if it_eq it e then throw index_out_of_bound
  else match current it with
       | Some x => load (Some x) ;; ret x
       | None => fault
       end.
Definition at_const (key : Key) : M loc :=
  let* it := find_const key in
  let* e := cend in
  if it_eq it e then throw index_out_of_bound
  else match current it with
       | Some x => load (Some x) ;; ret x
       | None => fault
       end.

Definition insert (value : Key * T) : M (iterator * bool) :=
  ensure_capacity ;;
  let* index := hash_index value.1 in
  let* cur := bucket_get index in
  let* f := fuel in
  let* found := chain_walk f value.1 cur in
  let* t := gets this in
  match found with
  | Some _ => ret (mkIt found (Some t), false)
  | None =>
    let* x := new_Node value in
    let new_node : ptr := Some x in
    (* insert into the hash bucket *)
    let* b := bucket_get index in
    store new_node (set_next b) ;;
    (match b with
     | Some _ => store b (set_prev new_node)
     | None => ret tt
     end) ;;
    bucket_put index new_node ;;
    (* insert into the linked list *)
    let* hd := gets head in
    (match hd with
     | None => put_tail new_node ;; put_head new_node
     | Some _ =>
       let* tl := gets tail in
       store tl (set_list_next new_node) ;;
       let* tl := gets tail in
       store new_node (set_list_prev tl) ;;
       put_tail new_node
     end) ;;
    let* ec := gets element_count in
    put_element_count (wrap (ec + 1)) ;;
    ret (mkIt new_node (Some t), true)
  end.

Definition subscript (key : Key) : M loc :=
  let* it := find key in
  let* e := end_ in
  if it_neq it e then
    match current it with
    | Some x => load (Some x) ;; ret x
    | None => fault
    end
  else
    let* result := insert (key, default_T) in
    match current result.1 with
    | Some x => load (Some x) ;; ret x
    | None => fault
    end.
Definition subscript_const (key : Key) : M loc := at_const key.

Definition erase (pos : iterator) : M unit :=
  let* e := end_ in
  let* t := gets this in
  if it_eq pos e || negb (bool_decide (container pos = Some t))
  then throw invalid_iterator
  else
    let node := current pos in
    (* remove from the hash bucket *)
    let* n := load node in
    let* index := hash_index (data n).1 in
    let* n := load node in
    (match prev n with
     | Some _ =>
       let* n := load node in
       store (prev n) (set_next (next n))
     | None => bucket_put index (next n)
     end) ;;
    let* n := load node in
    (match next n with
     | Some _ =>
       let* n := load node in
       store (next n) (set_prev (prev n))
     | None => ret tt
     end) ;;
    (* remove from the linked list *)
    let* n := load node in
    (match list_prev n with
     | Some _ =>
       let* n := load node in
       store (list_prev n) (set_list_next (list_next n))
     | None => put_head (list_next n)
     end) ;;
    let* n := load node in
    (match list_next n with
     | Some _ =>
       let* n := load node in
       store (list_next n) (set_list_prev (list_prev n))
     | None => put_tail (list_prev n)
     end) ;;
    delete_Node node ;;
    let* ec := gets element_count in
    put_element_count (wrap (ec + size_max - 1)).

(** The [while] loop of [clear]. *)
Fixpoint clear_walk (f : nat) (cur : ptr) : M unit :=
  match cur with
  | None => ret tt
  | Some _ =>
    match f with
    | O => out_of_fuel
    | S f' =>
      let* n := load cur in
      let nxt := list_next n in
      delete_Node cur ;;
      clear_walk f' nxt
    end
  end.

(** The [for] loop of [clear]. *)
Fixpoint clear_buckets (k : nat) (i : N) : M unit :=
  match k with
  | O => ret tt
  | S k' => bucket_put i None ;; clear_buckets k' (i + 1)
  end.

Definition clear : M unit :=
  let* hd := gets head in
  let* f := fuel in
  clear_walk f hd ;;
  put_tail None ;;
  put_head None ;;
  put_element_count 0 ;;
  let* bc := gets bucket_count in
  clear_buckets (N.to_nat bc) 0.

(** [~linked_hashmap()]; the bucket array is part of the object here, so
    [delete[] buckets] has nothing left to do. *)
Definition destroy : M unit := clear.

(** The loop of the copy constructor, run on the object under construction:
    [for (it = other.cbegin(); it != other.cend(); ++it)] with body
    [insert] of the dereferenced iterator. *)
Fixpoint copy_loop (f : nat) (it : const_iterator) : M unit :=
  if it_neq it (mkIt None (container it)) then
    match f with
    | O => out_of_fuel
    | S f' =>
      let* h := (λ s, Ok (mem s) s) in
      match deref h it with
      | None => fault
      | Some v =>
        insert v ;;
        let* h := (λ s, Ok (mem s) s) in
        match const_iterator_preinc h it with
        | None => fault
        | Some it' => copy_loop f' it'
        end
      end
    end
  else ret tt.

(** [linked_hashmap(const linked_hashmap &other)], constructing the object at
    address [addr].  [insert] throws nothing in this model, so the [catch]
    block is never entered. *)
Definition copy_construct (addr : loc) (other : linked_hashmap)
    (h : gmap loc Node) : outcome state unit :=
  let m0 := mkMap addr (replicate (N.to_nat (bucket_count other)) None)
                  (bucket_count other) 0 None None in
  (let* f := fuel in
   copy_loop f (mkIt (head other) (Some (this other)))) (mkState h m0).

(** [swap]: the five data members change places, the objects stay. *)
Definition swap (a b : linked_hashmap) : linked_hashmap * linked_hashmap :=
  (mkMap (this a) (buckets b) (bucket_count b) (element_count b) (head b) (tail b),
   mkMap (this b) (buckets a) (bucket_count a) (element_count a) (head a) (tail a)).

(** [operator=]; [tmp] is the address of the local [temp], which is destroyed
    when the block is left. *)
Definition assign (tmp : loc) (other : linked_hashmap) : M unit :=
  λ s, if decide (this (obj s) = this other) then Ok tt s
       else match copy_construct tmp other (mem s) with
            | Ok _ s1 =>
              let '(self', temp') := swap (obj s) (obj s1) in
              match destroy (mkState (mem s1) temp') with
              | Ok _ s2 => Ok tt (mkState (mem s2) self')
              | Throw e s2 => Throw e (mkState (mem s2) self')
              | Fault => Fault
              | OutOfFuel => OutOfFuel
              end
            | Throw e s1 => Throw e (mkState (mem s1) (obj s))
            | Fault => Fault
            | OutOfFuel => OutOfFuel
            end.

(** ** Observation: the traversal [for (it = begin(); it != end(); ++it)]
    collecting [*it]. *)
Fixpoint traverse (f : nat) (h : gmap loc Node) (it : iterator)
  : option (list (Key * T)) :=
  match current it with
  | None => Some []
  | Some _ =>
    match f with
    | O => None
    | S f' =>
      match deref h it, iterator_preinc h it with
      | Some v, Some it' =>
        match traverse f' h it' with
        | Some l => Some (v :: l)
        | None => None
        end
      | _, _ => None
      end
    end
  end.

Definition contents (h : gmap loc Node) (m : linked_hashmap)
  : option (list (Key * T)) :=
  traverse (S (base.size h)) h (mkIt (head m) (Some (this m))).


(** * Specification

    The predicates and functions in which the verification states what the
    member functions do. *)

(** What a pointer to the first node of [l] is, [e] when there is none. *)
Definition hd_or (e : ptr) (l : list loc) : ptr :=
  match l with
  | [] => e
  | x :: _ => Some x
  end.

(** [path f h l e]: following field [f] from the first node of [l] visits
    exactly the nodes of [l] in order and then reaches [e]. *)
Fixpoint path (f : Node → ptr) (h : gmap loc Node) (l : list loc) (e : ptr) : Prop :=
  match l with
  | [] => True
  | x :: l' => f <$> h !! x = Some (hd_or e l') ∧ path f h l' e
  end.

Definition key_at (h : gmap loc Node) (x : loc) : option Key :=
  (λ n, (data n).1) <$> h !! x.

(** The bucket a node belongs to under capacity [cap]. *)
Definition slot_of (h : gmap loc Node) (cap : N) (x : loc) : option N :=
  (λ k, hasher k mod cap) <$> key_at h x.

Definition matches (h : gmap loc Node) (key : Key) (x : loc) : bool :=
  match key_at h x with
  | Some k => key_equal k key
  | None => false
  end.

(** The first node of [l] whose key is equal to [key]. *)
Fixpoint locate (h : gmap loc Node) (key : Key) (l : list loc) : ptr :=
  match l with
  | [] => None
  | x :: l' => if matches h key x then Some x else locate h key l'
  end.

(** Bucket [i] of the array [bkts] heads the chain [c], doubly linked through
    [next] and [prev], of nodes of [ls] whose keys hash to [i]. *)
Record chain_ok (h : gmap loc Node) (bkts : list ptr) (cap : N)
    (ls : list loc) (i : nat) (c : list loc) : Prop := {
  chain_hd : bkts !! i = Some (hd_or None c);
  chain_nodup : NoDup c;
  chain_fwd : path next h c None;
  chain_bwd : path prev h (reverse c) None;
  chain_in : ∀ x, x ∈ c → x ∈ ls;
  chain_slot : ∀ x, x ∈ c → slot_of h cap x = Some (N.of_nat i)
}.

(** [inv h m ls cs]: in heap [h] the object [m] represents the nodes [ls] in
    insertion order, indexed by the chains [cs], one per bucket. *)
Record inv (h : gmap loc Node) (m : linked_hashmap)
    (ls : list loc) (cs : list (list loc)) : Prop := {
  inv_nodup : NoDup ls;
  inv_fwd : path list_next h ls None;
  inv_bwd : path list_prev h (reverse ls) None;
  inv_head : head m = hd_or None ls;
  inv_tail : tail m = hd_or None (reverse ls);
  inv_count : element_count m = N.of_nat (length ls);
  inv_cap : 0 < bucket_count m;
  inv_blen : length (buckets m) = N.to_nat (bucket_count m);
  inv_clen : length cs = N.to_nat (bucket_count m);
  inv_chain : ∀ i c, cs !! i = Some c →
              chain_ok h (buckets m) (bucket_count m) ls i c;
  inv_cover : ∀ x, x ∈ ls → ∃ i c, cs !! i = Some c ∧ x ∈ c;
  inv_uniq : ∀ x y kx ky, x ∈ ls → y ∈ ls →
             key_at h x = Some kx → key_at h y = Some ky →
             key_equal kx ky = true → x = y
}.

(** The capacity is 16 doubled some number of times and the load factor is
    at most 0.75. *)
Definition load_ok (m : linked_hashmap) : Prop :=
  (∃ k : N, bucket_count m = 16 * 2 ^ k) ∧
  4 * element_count m ≤ 3 * bucket_count m.

(** The capacity and its double are in the range in which [size_t] does not
    wrap and the conversion to [double] is exact. *)
Definition in_range (m : linked_hashmap) : Prop := bucket_count m ≤ 2 ^ 52.

(** The object represents some order list and some chains. *)
Definition shape (h : gmap loc Node) (m : linked_hashmap) : Prop :=
  ∃ ls cs, inv h m ls cs.

(** Well-formed states: the empty map is one ([wf_empty_map]) and [insert]
    and [erase] keep them ([insert_wf], [erase_wf]), as long as the capacity
    stays in the range above. *)
Definition wf (h : gmap loc Node) (m : linked_hashmap) : Prop :=
  shape h m ∧ load_ok m ∧ in_range m.

(** The nodes of [ls] that are allocated, as the pairs they hold. *)
Definition entries (h : gmap loc Node) (ls : list loc) : list (Key * T) :=
  omap (λ x, data <$> h !! x) ls.

(** The part of a node that relinking it in a bucket chain leaves alone. *)
Definition order_part (n : Node) : (Key * T) * ptr * ptr :=
  (data n, list_next n, list_prev n).

(** [frozen h h']: the same addresses are allocated in both heaps and every
    node has the same pair and the same order links in both. *)
Definition frozen (h h' : gmap loc Node) : Prop :=
  ∀ x, order_part <$> h' !! x = order_part <$> h !! x.

(** [x] is a node of one of the chains. *)
Definition member (cs : list (list loc)) (x : loc) : Prop :=
  ∃ j c, cs !! j = Some c ∧ x ∈ c.

(** The state of [rehash] between two nodes: the new array [nb] heads the
    chains [ncs] of the nodes moved so far; the heap [h] differs from the
    heap [h0] at entry in the bucket links of moved nodes only. *)
Record moved (h0 h : gmap loc Node) (nb : list ptr) (cap : N)
    (ls : list loc) (ncs : list (list loc)) : Prop := {
  moved_nb : length nb = N.to_nat cap;
  moved_cs : length ncs = N.to_nat cap;
  moved_chain : ∀ j c, ncs !! j = Some c → chain_ok h nb cap ls j c;
  moved_frozen : frozen h0 h;
  moved_rest : ∀ x, ¬ member ncs x → h !! x = h0 !! x
}.

(** The heap after the body of the [while] loop of [rehash] has moved node
    [x], holding [n], in front of the chain that starts at [b]. *)
Definition relink (h : gmap loc Node) (x : loc) (n : Node) (b : ptr)
  : gmap loc Node :=
  let h1 := <[x := set_next b n]> h in
  let h2 := match b with
            | Some y => match h1 !! y with
                        | Some ny => <[y := set_prev (Some x) ny]> h1
                        | None => h1
                        end
            | None => h1
            end in
  <[x := set_prev None (set_next b n)]> h2.

(** [pointwise F h] holds [F x n] where [h] holds [n] at [x]. *)
Definition pointwise (F : loc → Node → Node) (h : gmap loc Node) : gmap loc Node :=
  map_imap (λ x n, Some (F x n)) h.

(** [upd q g F]: as [F], then [g] applied to the node at [q]. *)
Definition upd (q : ptr) (g : Node → Node) (F : loc → Node → Node)
  : loc → Node → Node :=
  λ z n, if decide (q = Some z) then g (F z n) else F z n.

(** What [erase] of a node holding [n] does to every other node. *)
Definition unlink (n : Node) : loc → Node → Node :=
  upd (list_next n) (set_list_prev (list_prev n))
    (upd (list_prev n) (set_list_next (list_next n))
       (upd (next n) (set_prev (prev n))
          (upd (prev n) (set_next (next n)) (λ _ nz, nz)))).

(** The object after [erase] of a node holding [n]. *)
Definition erased_map (m : linked_hashmap) (n : Node) : linked_hashmap :=
  mkMap (this m)
    (match prev n with
     | Some _ => buckets m
     | None => <[N.to_nat (hasher (data n).1 mod bucket_count m) := next n]> (buckets m)
     end)
    (bucket_count m)
    (wrap (element_count m + size_max - 1))
    (match list_prev n with Some _ => head m | None => list_next n end)
    (match list_next n with Some _ => tail m | None => list_prev n end).

(** What [insert] of a new node at [x] does to the nodes of the heap, the
    chain of the new key starting at [b] and the order list ending at [t]. *)
Definition attach (x : loc) (b t : ptr) : loc → Node → Node :=
  upd (Some x) (set_list_prev t)
    (upd t (set_list_next (Some x))
       (upd b (set_prev (Some x))
          (upd (Some x) (set_next b) (λ _ nz, nz)))).

(** The object after [insert] has linked a new node at [x] in bucket [j]. *)
Definition inserted_map (m : linked_hashmap) (j : nat) (x : loc) : linked_hashmap :=
  mkMap (this m) (<[j := Some x]> (buckets m)) (bucket_count m)
        (wrap (element_count m + 1))
        (match head m with Some _ => head m | None => Some x end)
        (Some x).

(** The first pair of [l] whose key is equal to [key]. *)
Fixpoint assoc (key : Key) (l : list (Key * T)) : option (Key * T) :=
  match l with
  | [] => None
  | kv :: l' => if key_equal kv.1 key then Some kv else assoc key l'
  end.

(** [l] without the first pair whose key is equal to [key]. *)
Fixpoint remove_key (key : Key) (l : list (Key * T)) : list (Key * T) :=
  match l with
  | [] => []
  | kv :: l' => if key_equal kv.1 key then l' else kv :: remove_key key l'
  end.

Definition quiet {A} (c : M A) : Prop := ∀ s e s', c s ≠ Throw e s'.

(** [X] and [Y] are well-formed in [h] and share no node. *)
Definition separate (h : gmap loc Node) (X Y : linked_hashmap) : Prop :=
  ∃ lsX csX lsY csY,
    inv h X lsX csX ∧ inv h Y lsY csY ∧ ∀ z, z ∈ lsX → z ∉ lsY.

(** Every [insert] on [Y], and every [erase] of an entry of [Y], returns,
    leaves the contents of [X] as they are and the two maps apart. *)
Definition unaffected_by (h : gmap loc Node) (X Y : linked_hashmap) : Prop :=
  (∀ v, ∃ r h' Y',
     insert v (mkState h Y) = Ok r (mkState h' Y') ∧
     separate h' X Y' ∧ contents h' X = contents h X) ∧
  (∀ key it,
     find key (mkState h Y) = Ok it (mkState h Y) → current it ≠ None →
     ∃ h' Y',
       erase it (mkState h Y) = Ok tt (mkState h' Y') ∧
       separate h' X Y' ∧ contents h' X = contents h X).

(** ** Clients of the interface and what they observe *)

(** [n] applications of [++it]. *)
Fixpoint advance (h : gmap loc Node) (n : nat) (it : iterator) : option iterator :=
  match n with
  | O => Some it
  | S n' =>
    match iterator_preinc h it with
    | Some it' => advance h n' it'
    | None => None
    end
  end.

(** The calls a client makes on one map: [insert(v)], [erase(find(key))]
    when [find] does not return [end()], [operator[](key)] and [clear()]. *)
Inductive op : Type :=
| op_insert (v : Key * T)
| op_erase (key : Key)
| op_subscript (key : Key)
| op_clear.

Definition run_op (o : op) : M unit :=
  match o with
  | op_insert v => insert v ;; ret tt
  | op_erase key =>
    let* it := find key in
    let* e := end_ in
    if it_neq it e then erase it else ret tt
  | op_subscript key => subscript key ;; ret tt
  | op_clear => clear
  end.

Fixpoint run_ops (os : list op) : M unit :=
  match os with
  | [] => ret tt
  | o :: os' => run_op o ;; run_ops os'
  end.

(** What a call means on the list of pairs in iteration order. *)
Definition abs_op (l : list (Key * T)) (o : op) : list (Key * T) :=
  match o with
  | op_insert v =>
    match assoc v.1 l with
    | Some _ => l
    | None => l ++ [v]
    end
  | op_erase key => remove_key key l
  | op_subscript key =>
    match assoc key l with
    | Some _ => l
    | None => l ++ [(key, default_T)]
    end
  | op_clear => []
  end.

(** No two pairs of [l] have equal keys. *)
Definition distinct_keys (l : list (Key * T)) : Prop :=
  ∀ i j kv kv', l !! i = Some kv → l !! j = Some kv' →
                key_equal kv.1 kv'.1 = true → i = j.

(** The object that the constructor or [clear] leaves at address [addr] with
    [cap] buckets. *)
Definition fresh_map (addr : loc) (cap : N) : linked_hashmap :=
  mkMap addr (replicate (N.to_nat cap) None) cap 0 None None.

(** The heap [h] is the heap [h0] together with the nodes [ls]. *)
Definition extends (h0 h : gmap loc Node) (ls : list loc) : Prop :=
  ∀ z, if decide (z ∈ ls) then h0 !! z = None else h !! z = h0 !! z.

(** * Verification *)

(** ** Running the monad *)

Lemma bind_Ok {A B} (c : M A) (k : A → M B) s a s1 :
  c s = Ok a s1 → bind c k s = k a s1.
Proof. unfold bind. by intros ->. Qed.

Lemma load_Ok h m x n :
  h !! x = Some n → load (Some x) (mkState h m) = Ok n (mkState h m).
Proof. unfold load; simpl. by intros ->. Qed.

Lemma store_Ok h m x n f :
  h !! x = Some n →
  store (Some x) f (mkState h m) = Ok tt (mkState (<[x := f n]> h) m).
Proof. unfold store; simpl. by intros ->. Qed.

Lemma array_get_Ok (arr : list ptr) i p s :
  arr !! N.to_nat i = Some p → array_get arr i s = Ok p s.
Proof. unfold array_get. by intros ->. Qed.

Lemma fuel_Ok h m : fuel (mkState h m) = Ok (S (base.size h)) (mkState h m).
Proof. done. Qed.

(** ** Heaps and paths *)

(** The number of distinct allocated addresses is at most the heap size. *)
Lemma length_le_size (h : gmap loc Node) (l : list loc) :
  NoDup l → (∀ x, x ∈ l → is_Some (h !! x)) → (length l ≤ base.size h)%nat.
Proof.
  intros Hnd Hal.
  rewrite <- size_dom. unfold base.size, set_size; simpl.
  apply submseteq_length, NoDup_submseteq; [done|].
  intros x Hx. apply elem_of_elements, elem_of_dom. auto.
Qed.

Lemma hd_or_app e (l1 l2 : list loc) :
  hd_or e (l1 ++ l2) = hd_or (hd_or e l2) l1.
Proof. by destruct l1. Qed.

Lemma path_app f h l1 l2 e :
  path f h (l1 ++ l2) e ↔ path f h l1 (hd_or e l2) ∧ path f h l2 e.
Proof.
  clear alloc.
  induction l1 as [|x l1 IH]; simpl; [tauto|].
  rewrite IH, hd_or_app. tauto.
Qed.

Lemma path_ext f h h' l e :
  (∀ x, x ∈ l → f <$> h' !! x = f <$> h !! x) →
  path f h l e → path f h' l e.
Proof.
  induction l as [|x l IH]; simpl; [done|].
  intros Hx [H1 H2]. split.
  - rewrite Hx; [done | left].
  - apply IH; [|done]. intros y Hy. apply Hx. by right.
Qed.

Lemma path_field f h l e x :
  path f h l e → x ∈ l → is_Some (f <$> h !! x).
Proof.
  induction l as [|y l IH]; simpl; [by intros _ ?%elem_of_nil|].
  intros [H1 H2] [->|Hx]%elem_of_cons; eauto.
Qed.

Lemma path_alloc f h l e x :
  path f h l e → x ∈ l → is_Some (h !! x).
Proof.
  intros Hp Hx. destruct (path_field _ _ _ _ _ Hp Hx) as [p Hq].
  destruct (h !! x); [eauto | done].
Qed.

(** The field of the last node of a path holds the end pointer. *)
Lemma path_snoc f h l x e :
  path f h (l ++ [x]) e ↔ path f h l (Some x) ∧ f <$> h !! x = Some e.
Proof.
  clear alloc. rewrite path_app; simpl. tauto. Qed.

(** The field of a node in the middle of a path. *)
Lemma path_middle f h l1 x l2 e :
  path f h (l1 ++ x :: l2) e → f <$> h !! x = Some (hd_or e l2).
Proof.
  clear alloc. rewrite path_app; simpl. tauto. Qed.

(** ** Keys of nodes *)

Lemma locate_Some h key l x :
  locate h key l = Some x → x ∈ l ∧ matches h key x = true.
Proof.
  induction l as [|y l IH]; simpl; [done|].
  destruct (matches h key y) eqn:E.
  - intros [= ->]. split; [left | done].
  - intros [??]%IH. split; [by right | done].
Qed.

Lemma locate_None h key l :
  locate h key l = None ↔ ∀ x, x ∈ l → matches h key x = false.
Proof.
  induction l as [|y l IH]; simpl.
  - split; [by intros _ ? ?%elem_of_nil | done].
  - destruct (matches h key y) eqn:E.
    + split; [done|]. intros H. rewrite H in E; [done | left].
    + rewrite IH. split.
      * intros H x [->|?]%elem_of_cons; auto.
      * intros H x ?. apply H. by right.
Qed.

Lemma locate_ext h h' key l :
  (∀ x, x ∈ l → key_at h' x = key_at h x) →
  locate h' key l = locate h key l.
Proof.
  induction l as [|y l IH]; simpl; [done|].
  intros H. unfold matches. rewrite H by left.
  rewrite IH; [done|]. intros x ?. apply H. by right.
Qed.

(** The walk along a bucket chain returns the first match. *)
Lemma chain_walk_spec h m key c f :
  path next h c None → (length c < f)%nat →
  chain_walk f key (hd_or None c) (mkState h m)
  = Ok (locate h key c) (mkState h m).
Proof.
  revert f. induction c as [|x c IH]; intros f Hp Hf; simpl in *.
  - by destruct f.
  - destruct f as [|f]; [lia|]. simpl.
    destruct Hp as [Hx Hp].
    destruct (h !! x) as [n|] eqn:Hn; [|done].
    simpl in Hx. injection Hx as Hx.
    erewrite bind_Ok by (by apply load_Ok).
    unfold matches, key_at. rewrite Hn; simpl.
    destruct (key_equal (data n).1 key); [done|].
    rewrite Hx. apply IH; [done | lia].
Qed.


(** ** The representation invariant *)

(** [Equal] is an equivalence that [Hash] respects, and [new] returns an
    address that is not in use. *)
Hypothesis key_equal_refl : ∀ a, key_equal a a = true.
Hypothesis key_equal_sym : ∀ a b, key_equal a b = true → key_equal b a = true.
Hypothesis key_equal_trans :
  ∀ a b c, key_equal a b = true → key_equal b c = true → key_equal a c = true.
Hypothesis hasher_equal : ∀ a b, key_equal a b = true → hasher a = hasher b.
Hypothesis alloc_fresh : ∀ h, h !! alloc h = None.

Lemma matches_true h key x :
  matches h key x = true ↔ ∃ k, key_at h x = Some k ∧ key_equal k key = true.
Proof.
  unfold matches. destruct (key_at h x) as [k|]; split.
  - eauto.
  - by intros (k' & [= ->] & ?).
  - done.
  - by intros (k' & ? & ?).
Qed.

Lemma inv_alloc h m ls cs x : inv h m ls cs → x ∈ ls → is_Some (h !! x).
Proof. intros Hi. eapply path_alloc, inv_fwd, Hi. Qed.

Lemma slot_of_Some h cap x i :
  slot_of h cap x = Some i ↔ ∃ k, key_at h x = Some k ∧ hasher k mod cap = i.
Proof.
  unfold slot_of. destruct (key_at h x) as [k|]; simpl; split.
  - intros [= <-]. eauto.
  - by intros (k' & [= ->] & ->).
  - done.
  - by intros (k' & ? & ?).
Qed.

(** The chain of a node of the map is the one its key hashes to. *)
Lemma inv_chain_of h m ls cs x k :
  inv h m ls cs → x ∈ ls → key_at h x = Some k →
  ∃ c, cs !! N.to_nat (hasher k mod bucket_count m) = Some c ∧ x ∈ c.
Proof.
  intros Hi Hx Hk.
  destruct (inv_cover _ _ _ _ Hi x Hx) as (i & c & Hc & Hxc).
  pose proof (chain_slot _ _ _ _ _ _ (inv_chain _ _ _ _ Hi i c Hc) x Hxc) as Hs.
  apply slot_of_Some in Hs as (k' & Hk' & Hs).
  rewrite Hk in Hk'. injection Hk' as <-.
  exists c. by rewrite Hs, Nat2N.id.
Qed.

(** Searching the chain of a key is searching the whole map. *)
Lemma locate_chain h m ls cs key c :
  inv h m ls cs →
  cs !! N.to_nat (hasher key mod bucket_count m) = Some c →
  locate h key c = locate h key ls.
Proof.
  intros Hi Hc.
  pose proof (inv_chain _ _ _ _ Hi _ _ Hc) as Hok.
  destruct (locate h key c) as [x|] eqn:Ex.
  - apply locate_Some in Ex as [Hxc Hm].
    apply matches_true in Hm as (kx & Hkx & Hex).
    destruct (locate h key ls) as [y|] eqn:Ey.
    + apply locate_Some in Ey as [Hy Hm].
      apply matches_true in Hm as (ky & Hky & Hey).
      f_equal. eapply (inv_uniq _ _ _ _ Hi); eauto using chain_in.
    + rewrite locate_None in Ey.
      specialize (Ey x (chain_in _ _ _ _ _ _ Hok x Hxc)).
      assert (matches h key x = true) as Hm by (apply matches_true; eauto).
      congruence.
  - symmetry. apply locate_None. intros y Hy.
    destruct (matches h key y) eqn:Hm; [|done].
    apply matches_true in Hm as (ky & Hky & Hey).
    destruct (inv_chain_of _ _ _ _ _ _ Hi Hy Hky) as (c' & Hc' & Hyc').
    rewrite (hasher_equal _ _ Hey), Hc in Hc'. injection Hc' as <-.
    rewrite locate_None in Ex. rewrite <- (Ex y Hyc').
    symmetry. apply matches_true. eauto.
Qed.

Lemma inv_slot_lt h m ls cs key :
  inv h m ls cs →
  ∃ c, cs !! N.to_nat (hasher key mod bucket_count m) = Some c.
Proof.
  intros Hi. apply lookup_lt_is_Some_2.
  rewrite (inv_clen _ _ _ _ Hi).
  pose proof (inv_cap _ _ _ _ Hi).
  pose proof (N.mod_lt (hasher key) (bucket_count m)). lia.
Qed.

Lemma hash_index_Ok h m key :
  0 < bucket_count m →
  hash_index key (mkState h m) = Ok (hasher key mod bucket_count m) (mkState h m).
Proof.
  intros Hc. unfold hash_index, bind, gets; simpl.
  destruct (N.eqb_spec (bucket_count m) 0); [lia | done].
Qed.

(** The bucket walk of [find] and [insert], on a well-formed map. *)
Lemma bucket_walk_spec h m ls cs key :
  inv h m ls cs →
  (let* index := hash_index key in
   let* cur := bucket_get index in
   let* f := fuel in
   chain_walk f key cur) (mkState h m)
  = Ok (locate h key ls) (mkState h m).
Proof.
  intros Hi.
  erewrite bind_Ok by (apply hash_index_Ok, (inv_cap _ _ _ _ Hi)).
  destruct (inv_slot_lt _ _ _ _ key Hi) as [c Hc].
  pose proof (inv_chain _ _ _ _ Hi _ _ Hc) as Hok.
  erewrite bind_Ok; cycle 1.
  { unfold bucket_get, bind, gets; simpl.
    apply array_get_Ok, (chain_hd _ _ _ _ _ _ Hok). }
  erewrite bind_Ok by apply fuel_Ok.
  rewrite chain_walk_spec.
  - by rewrite (locate_chain _ _ _ _ _ _ Hi Hc).
  - apply Hok.
  - apply Nat.lt_succ_r, length_le_size; [apply Hok|].
    intros x Hx. eapply inv_alloc; eauto using chain_in.
Qed.

Lemma find_spec h m ls cs key :
  inv h m ls cs →
  find key (mkState h m)
  = Ok (mkIt (locate h key ls) (Some (this m))) (mkState h m).
Proof.
  intros Hi. unfold find.
  pose proof (bucket_walk_spec _ _ _ _ key Hi) as Hw.
  unfold bind in *.
  destruct (hash_index key _) as [index s1| | |]; try done.
  destruct (bucket_get index s1) as [cur s2| | |]; try done.
  destruct (fuel s2) as [f s3| | |]; try done.
  by rewrite Hw.
Qed.


(** ** Heaps that agree on what the bucket index never writes *)

Lemma frozen_refl h : frozen h h.
Proof. done. Qed.

Lemma frozen_trans h1 h2 h3 : frozen h1 h2 → frozen h2 h3 → frozen h1 h3.
Proof. intros H12 H23 x. by rewrite H23. Qed.

Lemma frozen_cases h h' x :
  frozen h h' →
  match h !! x, h' !! x with
  | Some n, Some n' =>
    data n' = data n ∧ list_next n' = list_next n ∧ list_prev n' = list_prev n
  | None, None => True
  | _, _ => False
  end.
Proof.
  intros Hf. specialize (Hf x). unfold order_part in Hf.
  destruct (h !! x), (h' !! x); simpl in *; try done.
  by injection Hf as -> -> ->.
Qed.

Lemma frozen_key h h' x : frozen h h' → key_at h' x = key_at h x.
Proof.
  intros Hf. pose proof (frozen_cases _ _ x Hf) as Hc. unfold key_at.
  destruct (h !! x), (h' !! x); simpl; try done. by destruct Hc as (-> & _).
Qed.

Lemma frozen_data h h' x : frozen h h' → data <$> h' !! x = data <$> h !! x.
Proof.
  intros Hf. pose proof (frozen_cases _ _ x Hf) as Hc.
  destruct (h !! x), (h' !! x); simpl; try done. by destruct Hc as (-> & _).
Qed.

Lemma frozen_list_next h h' x :
  frozen h h' → list_next <$> h' !! x = list_next <$> h !! x.
Proof.
  intros Hf. pose proof (frozen_cases _ _ x Hf) as Hc.
  destruct (h !! x), (h' !! x); simpl; try done. by destruct Hc as (_ & -> & _).
Qed.

Lemma frozen_list_prev h h' x :
  frozen h h' → list_prev <$> h' !! x = list_prev <$> h !! x.
Proof.
  intros Hf. pose proof (frozen_cases _ _ x Hf) as Hc.
  destruct (h !! x), (h' !! x); simpl; try done. by destruct Hc as (_ & _ & ->).
Qed.

Lemma frozen_alloc h h' x : frozen h h' → is_Some (h' !! x) ↔ is_Some (h !! x).
Proof.
  intros Hf. pose proof (frozen_cases _ _ x Hf) as Hc.
  destruct (h !! x), (h' !! x); try done; split; eauto.
Qed.

Lemma frozen_slot h h' cap x : frozen h h' → slot_of h' cap x = slot_of h cap x.
Proof. intros Hf. unfold slot_of. by rewrite (frozen_key _ _ _ Hf). Qed.

Lemma frozen_entries h h' ls : frozen h h' → entries h' ls = entries h ls.
Proof.
  intros Hf. unfold entries. induction ls as [|x ls IH]; [done|].
  cbn [omap list_omap]. by rewrite (frozen_data _ _ x Hf), IH.
Qed.

Lemma frozen_locate h h' key ls : frozen h h' → locate h' key ls = locate h key ls.
Proof. intros Hf. apply locate_ext. intros x _. by apply frozen_key. Qed.

Lemma member_insert_cons cs j c x z :
  cs !! j = Some c →
  member (<[j := x :: c]> cs) z ↔ z = x ∨ member cs z.
Proof.
  intros Hj. pose proof (lookup_lt_Some _ _ _ Hj) as Hlt. split.
  - intros (j' & c' & Hl & Hz). destruct (decide (j' = j)) as [->|Hne].
    + rewrite list_lookup_insert_eq in Hl by done. injection Hl as <-.
      apply elem_of_cons in Hz as [->|Hz]; [by left|]. right. by exists j, c.
    + rewrite list_lookup_insert_ne in Hl by done. right. by exists j', c'.
  - intros [->|(j' & c' & Hl & Hz)].
    + exists j, (x :: c). split; [by apply list_lookup_insert_eq | left].
    + destruct (decide (j' = j)) as [->|Hne].
      * exists j, (x :: c). split; [by apply list_lookup_insert_eq|].
        rewrite Hj in Hl. injection Hl as <-. by right.
      * exists j', c'. by rewrite list_lookup_insert_ne.
Qed.

(** ** Rehash *)

(** Two chains of one array that share a node are the same chain. *)
Lemma chain_ok_inj h nb cap ls i j c c' x :
  chain_ok h nb cap ls i c → chain_ok h nb cap ls j c' →
  x ∈ c → x ∈ c' → i = j.
Proof.
  intros Hc Hc' Hx Hx'.
  pose proof (chain_slot _ _ _ _ _ _ Hc x Hx) as H1.
  pose proof (chain_slot _ _ _ _ _ _ Hc' x Hx') as H2.
  rewrite H1 in H2. injection H2 as H2. lia.
Qed.


Lemma chain_ok_ext h h' bkts bkts' cap ls i c :
  (∀ z, z ∈ c → h' !! z = h !! z) → bkts' !! i = bkts !! i →
  chain_ok h bkts cap ls i c → chain_ok h' bkts' cap ls i c.
Proof.
  intros Hh Hb [H1 H2 H3 H4 H5 H6]. split; try done.
  - by rewrite Hb.
  - eapply path_ext; [|done]. intros z Hz. by rewrite Hh.
  - eapply path_ext; [|done]. intros z Hz. rewrite elem_of_reverse in Hz. by rewrite Hh.
  - intros z Hz. rewrite <- (H6 z Hz). unfold slot_of, key_at. by rewrite Hh.
Qed.

Lemma relink_lookup h x n b z :
  b ≠ Some x →
  relink h x n b !! z =
    if decide (z = x) then Some (set_prev None (set_next b n))
    else if decide (b = Some z) then set_prev (Some x) <$> h !! z
    else h !! z.
Proof.
  intros Hb. unfold relink.
  destruct (decide (z = x)) as [->|Hzx]; [by rewrite lookup_insert_eq|].
  rewrite lookup_insert_ne by done.
  destruct b as [y|].
  - assert (x ≠ y) by congruence.
    rewrite (lookup_insert_ne _ x y) by done.
    destruct (decide (Some y = Some z)) as [[= ->]|Hyz].
    + destruct (h !! z) as [nz|] eqn:Hz; simpl.
      * by rewrite lookup_insert_eq.
      * by rewrite lookup_insert_ne, Hz.
    + assert (y ≠ z) by congruence.
      destruct (h !! y); by rewrite ?lookup_insert_ne.
  - destruct (decide (None = Some z)); [done|]. by rewrite lookup_insert_ne.
Qed.

Lemma relink_run {B} (k : M B) h m x n b :
  h !! x = Some n → b ≠ Some x → (∀ y, b = Some y → is_Some (h !! y)) →
  (store (Some x) (set_next b) ;;
   (match b with
    | Some _ => store b (set_prev (Some x))
    | None => ret tt
    end) ;;
   store (Some x) (set_prev None) ;;
   k) (mkState h m)
  = k (mkState (relink h x n b) m).
Proof.
  intros Hx Hb Hy. unfold relink.
  erewrite bind_Ok by (by apply store_Ok).
  destruct b as [y|].
  - destruct (Hy y eq_refl) as [ny Hny].
    assert (x ≠ y) by congruence.
    rewrite (lookup_insert_ne _ x y), Hny by done.
    erewrite bind_Ok by (apply store_Ok; by rewrite lookup_insert_ne).
    erewrite bind_Ok; [done|].
    apply store_Ok. by rewrite lookup_insert_ne, lookup_insert_eq.
  - erewrite bind_Ok by done.
    erewrite bind_Ok; [done|].
    apply store_Ok. by rewrite lookup_insert_eq.
Qed.

Lemma relink_frozen h x n b :
  h !! x = Some n → b ≠ Some x → frozen h (relink h x n b).
Proof.
  intros Hx Hb z. rewrite relink_lookup by done.
  destruct (decide (z = x)) as [->|]; [by rewrite Hx|].
  destruct (decide (b = Some z)); [|done]. by destruct (h !! z).
Qed.

(** Moving one node keeps the state of [rehash] consistent. *)
Lemma moved_step h0 h nb cap ls ncs x n j cj :
  moved h0 h nb cap ls ncs →
  x ∈ ls → ¬ member ncs x → h0 !! x = Some n →
  j = N.to_nat (hasher (data n).1 mod cap) →
  ncs !! j = Some cj →
  moved h0 (relink h x n (hd_or None cj)) (<[j := Some x]> nb) cap ls
        (<[j := x :: cj]> ncs).
Proof.
  clear alloc alloc_fresh.
  intros Hm Hx Hnm Hn Hj Hcj.
  pose proof (moved_chain _ _ _ _ _ _ Hm j cj Hcj) as Hok.
  assert (x ∉ cj) as Hxcj by (intros ?; apply Hnm; by exists j, cj).
  assert (h !! x = Some n) as Hhx by (by rewrite (moved_rest _ _ _ _ _ _ Hm)).
  assert (hd_or None cj ≠ Some x) as Hb.
  { destruct cj as [|y cj']; simpl; [done|]. intros [= ->]. apply Hxcj. left. }
  assert (j < length nb)%nat as Hjn.
  { rewrite (moved_nb _ _ _ _ _ _ Hm), <- (moved_cs _ _ _ _ _ _ Hm).
    by eapply lookup_lt_Some. }
  split.
  - by rewrite length_insert, (moved_nb _ _ _ _ _ _ Hm).
  - by rewrite length_insert, (moved_cs _ _ _ _ _ _ Hm).
  - intros j' c Hc. destruct (decide (j' = j)) as [->|Hne].
    + rewrite list_lookup_insert_eq in Hc by (by eapply lookup_lt_Some).
      injection Hc as <-. split.
      * by rewrite list_lookup_insert_eq.
      * apply NoDup_cons_2; [done | apply Hok].
      * simpl. split.
        { rewrite relink_lookup, decide_True by done. done. }
        eapply path_ext; [|apply Hok]. intros z Hz.
        rewrite relink_lookup by done.
        destruct (decide (z = x)) as [->|]; [done|].
        destruct (decide (hd_or None cj = Some z)); [|done].
        by destruct (h !! z).
      * rewrite reverse_cons. apply path_snoc. split.
        { pose proof (chain_bwd _ _ _ _ _ _ Hok) as Hbw.
          pose proof (chain_nodup _ _ _ _ _ _ Hok) as Hnd.
          destruct cj as [|y cj']; [done|].
          rewrite reverse_cons in *. apply path_snoc in Hbw as [Hbw Hy].
          apply path_snoc. split.
          - eapply path_ext; [|done]. intros z Hz. rewrite elem_of_reverse in Hz.
            rewrite relink_lookup by done.
            apply NoDup_cons_1_1 in Hnd.
            destruct (decide (z = x)) as [->|]; [by (exfalso; apply Hxcj; right)|].
            destruct (decide (hd_or None (y :: cj') = Some z)) as [[= ->]|]; done.
          - rewrite relink_lookup by done.
            rewrite decide_False by (intros ->; apply Hxcj; left).
            rewrite decide_True by done.
            destruct (h !! y); [done|]. done. }
        rewrite relink_lookup, decide_True by done. done.
      * intros z [->|Hz]%elem_of_cons; [done|]. by apply (chain_in _ _ _ _ _ _ Hok).
      * intros z Hz.
        rewrite (frozen_slot h); [|by apply relink_frozen].
        apply elem_of_cons in Hz as [->|Hz]; [|by apply (chain_slot _ _ _ _ _ _ Hok)].
        apply slot_of_Some. exists (data n).1. split.
        { unfold key_at. by rewrite Hhx. }
        by rewrite Hj, N2Nat.id.
    + rewrite list_lookup_insert_ne in Hc by done.
      pose proof (moved_chain _ _ _ _ _ _ Hm j' c Hc) as Hok'.
      eapply chain_ok_ext; [| |exact Hok'].
      * intros z Hz. rewrite relink_lookup by done.
        rewrite decide_False by (intros ->; apply Hnm; by exists j', c).
        rewrite decide_False; [done|]. intros Hhd.
        apply Hne. eapply chain_ok_inj; [exact Hok'|exact Hok|exact Hz|].
        destruct cj as [|y cj']; simplify_eq/=. left.
      * by rewrite list_lookup_insert_ne.
  - eapply frozen_trans; [apply Hm|]. by apply relink_frozen.
  - intros z Hz. rewrite relink_lookup by done.
    assert (¬ member ncs z ∧ z ≠ x) as [Hz1 Hz2].
    { split.
      - intros (j' & c & Hc & Hzc). apply Hz.
        destruct (decide (j' = j)) as [->|Hne].
        + exists j, (x :: cj). split.
          * apply list_lookup_insert_eq. by eapply lookup_lt_Some.
          * rewrite Hcj in Hc. injection Hc as <-. by right.
        + exists j', c. by rewrite list_lookup_insert_ne.
      - intros ->. apply Hz. exists j, (x :: cj). split; [|left].
        apply list_lookup_insert_eq. by eapply lookup_lt_Some. }
    rewrite decide_False by done.
    rewrite decide_False; [by apply (moved_rest _ _ _ _ _ _ Hm)|].
    intros Hhd. apply Hz1. exists j, cj. split; [done|].
    destruct cj as [|y cj']; simplify_eq/=. left.
Qed.


Lemma rehash_chain_spec h0 m cap ls rem :
  0 < cap →
  ∀ f h nb ncs,
    moved h0 h nb cap ls ncs →
    NoDup rem → (∀ x, x ∈ rem → x ∈ ls) → (∀ x, x ∈ rem → ¬ member ncs x) →
    path next h0 rem None → (length rem < f)%nat →
    ∃ h' nb' ncs',
      rehash_chain f cap nb (hd_or None rem) (mkState h m)
      = Ok nb' (mkState h' m) ∧
      moved h0 h' nb' cap ls ncs' ∧
      ∀ x, member ncs' x ↔ member ncs x ∨ x ∈ rem.
Proof.
  intros Hcap. induction rem as [|x rem IH]; intros f h nb ncs Hm Hnd Hls Hnm Hp Hf.
  - exists h, nb, ncs. split; [by destruct f|]. split; [done|].
    intros z. rewrite elem_of_nil. tauto.
  - destruct f as [|f]; [simpl in Hf; lia|].
    simpl in Hp. destruct Hp as [Hx Hp].
    destruct (h0 !! x) as [n|] eqn:Hn; [|done].
    simpl in Hx. injection Hx as Hx.
    assert (h !! x = Some n) as Hhx.
    { rewrite (moved_rest _ _ _ _ _ _ Hm); [done|]. apply Hnm. left. }
    set (j := N.to_nat (hasher (data n).1 mod cap)).
    assert (j < length ncs)%nat as Hj.
    { rewrite (moved_cs _ _ _ _ _ _ Hm).
      pose proof (N.mod_lt (hasher (data n).1) cap). lia. }
    destruct (lookup_lt_is_Some_2 _ _ Hj) as [cj Hcj].
    pose proof (moved_chain _ _ _ _ _ _ Hm j cj Hcj) as Hok.
    assert (x ∉ cj) as Hxcj.
    { intros ?. apply (Hnm x); [left | by exists j, cj]. }
    destruct (IH f (relink h x n (hd_or None cj)) (<[j := Some x]> nb)
                (<[j := x :: cj]> ncs)) as (h' & nb' & ncs' & Hrun & Hm' & Hmem).
    + eapply moved_step; eauto; [apply Hls | apply Hnm]; left.
    + by apply NoDup_cons_1_2 in Hnd.
    + intros z Hz. apply Hls. by right.
    + intros z Hz. rewrite member_insert_cons by done. intros [->|Hz'].
      * by apply NoDup_cons_1_1 in Hnd.
      * apply (Hnm z); [by right | done].
    + done.
    + simpl in Hf. lia.
    + exists h', nb', ncs'. split; [|split; [done|]].
      * simpl. erewrite bind_Ok by (by apply load_Ok).
        destruct (N.eqb_spec cap 0) as [?|_]; [lia|].
        erewrite bind_Ok by (apply array_get_Ok, (chain_hd _ _ _ _ _ _ Hok)).
        rewrite (relink_run _ _ _ _ n); [by rewrite Hx|done| |].
        { destruct cj as [|y cj']; simpl; [done|]. intros [= ->]. apply Hxcj. left. }
        { intros y Hy. apply (path_alloc _ _ _ _ _ (chain_fwd _ _ _ _ _ _ Hok)).
          destruct cj as [|y' cj']; simplify_eq/=. left. }
      * intros z. rewrite Hmem, member_insert_cons by done.
        rewrite elem_of_cons. tauto.
Qed.

Lemma rehash_for_spec h0 m cap ls cs :
  inv h0 m ls cs → 0 < cap →
  ∀ k i h nb ncs,
    (i + k = length cs)%nat →
    moved h0 h nb cap ls ncs →
    (∀ x, member ncs x ↔ ∃ j c, (j < i)%nat ∧ cs !! j = Some c ∧ x ∈ c) →
    ∃ h' nb' ncs',
      rehash_for k (N.of_nat i) cap nb (mkState h m) = Ok nb' (mkState h' m) ∧
      moved h0 h' nb' cap ls ncs' ∧
      ∀ x, member ncs' x ↔ member cs x.
Proof.
  intros Hi Hcap. induction k as [|k IH]; intros i h nb ncs Hik Hm Hmem.
  - exists h, nb, ncs. split; [done|]. split; [done|].
    intros x. rewrite Hmem. split.
    + intros (j & c & _ & ? & ?). by exists j, c.
    + intros (j & c & Hc & ?). exists j, c. split; [|done].
      pose proof (lookup_lt_Some _ _ _ Hc). lia.
  - assert (i < length cs)%nat as Hlt by lia.
    destruct (lookup_lt_is_Some_2 _ _ Hlt) as [c Hc].
    pose proof (inv_chain _ _ _ _ Hi i c Hc) as Hok.
    destruct (rehash_chain_spec h0 m cap ls c Hcap (S (base.size h)) h nb ncs)
      as (h1 & nb1 & ncs1 & Hrun & Hm1 & Hmem1); try done.
    + apply Hok.
    + apply Hok.
    + intros x Hx (j & c' & Hj & Hc' & Hx')%Hmem.
      pose proof (inv_chain _ _ _ _ Hi j c' Hc') as Hok'.
      pose proof (chain_ok_inj _ _ _ _ _ _ _ _ _ Hok Hok' Hx Hx'). lia.
    + apply Hok.
    + apply Nat.lt_succ_r, length_le_size; [apply Hok|].
      intros x Hx. apply (frozen_alloc _ _ _ (moved_frozen _ _ _ _ _ _ Hm)).
      eapply inv_alloc; [exact Hi|]. by apply (chain_in _ _ _ _ _ _ Hok).
    + destruct (IH (S i) h1 nb1 ncs1) as (h' & nb' & ncs' & Hrun' & Hm' & Hmem');
        [lia | done | |].
      * intros x. rewrite Hmem1, Hmem. split.
        -- intros [(j & c' & ? & ? & ?)|Hx].
           ++ exists j, c'. split; [lia | done].
           ++ exists i, c. split; [lia | done].
        -- intros (j & c' & Hj & Hc' & Hx).
           destruct (decide (j = i)) as [->|].
           ++ right. congruence.
           ++ left. exists j, c'. split; [lia | done].
      * exists h', nb', ncs'. split; [|done].
        simpl. erewrite bind_Ok; cycle 1.
        { unfold bucket_get. erewrite bind_Ok by reflexivity.
          apply array_get_Ok. rewrite Nat2N.id. apply Hok. }
        erewrite bind_Ok by apply fuel_Ok.
        erewrite bind_Ok by exact Hrun.
        replace (N.of_nat i + 1) with (N.of_nat (S i)) by lia. done.
Qed.

(** [rehash] on a well-formed map: it returns, the chains index the same
    nodes under the new capacity, and only bucket links have changed. *)
Lemma rehash_spec h m ls cs cap :
  inv h m ls cs → 0 < cap →
  ∃ h' nb cs',
    let m' := mkMap (this m) nb cap (element_count m) (head m) (tail m) in
    rehash cap (mkState h m) = Ok tt (mkState h' m') ∧
    inv h' m' ls cs' ∧ frozen h h' ∧ (∀ x, x ∉ ls → h' !! x = h !! x).
Proof.
  intros Hi Hcap.
  destruct (rehash_for_spec h m cap ls cs Hi Hcap (N.to_nat (bucket_count m)) 0%nat
              h (replicate (N.to_nat cap) None) (replicate (N.to_nat cap) []))
    as (h' & nb & cs' & Hrun & Hm & Hmem).
  - by rewrite (inv_clen _ _ _ _ Hi).
  - split.
    + by rewrite length_replicate.
    + by rewrite length_replicate.
    + intros j c [-> Hj]%lookup_replicate. split; try done.
      * by rewrite lookup_replicate_2.
      * constructor.
      * by intros x ?%elem_of_nil.
      * by intros x ?%elem_of_nil.
    + apply frozen_refl.
    + done.
  - intros x. split.
    + by intros (j & c & [-> _]%lookup_replicate & ?%elem_of_nil).
    + intros (j & c & ? & _). lia.
  - exists h', nb, cs'. simpl. split; [|split; [|split]].
    + unfold rehash. erewrite bind_Ok by reflexivity.
      simpl. erewrite bind_Ok by exact Hrun. done.
    + pose proof (moved_frozen _ _ _ _ _ _ Hm) as Hfr.
      split; simpl; try apply Hi; try apply Hm; try done.
      * eapply path_ext; [|apply Hi]. intros x _. by apply frozen_list_next.
      * eapply path_ext; [|apply Hi]. intros x _. by apply frozen_list_prev.
      * intros x Hx. apply Hmem. by apply (inv_cover _ _ _ _ Hi).
      * intros x y kx ky Hx Hy. rewrite !(frozen_key _ _ _ Hfr).
        by apply (inv_uniq _ _ _ _ Hi).
    + apply Hm.
    + intros x Hx. apply (moved_rest _ _ _ _ _ _ Hm).
      intros (j & c & Hc & Hxc). apply Hx.
      by apply (chain_in _ _ _ _ _ _ (moved_chain _ _ _ _ _ _ Hm j c Hc)).
Qed.


(** ** Traversal *)

Lemma traverse_spec h l c f :
  path list_next h l None → (length l < f)%nat →
  traverse f h (mkIt (hd_or None l) c) = Some (entries h l).
Proof.
  revert f. induction l as [|x l IH]; intros f Hp Hf.
  - by destruct f.
  - destruct f as [|f]; [simpl in Hf; lia|].
    destruct Hp as [Hx Hp].
    destruct (h !! x) as [n|] eqn:Hn; [|done].
    simpl in Hx. injection Hx as Hx.
    unfold entries. cbn [omap list_omap]. rewrite Hn.
    simpl. unfold deref, iterator_preinc, step_to; simpl. rewrite Hn; simpl.
    rewrite Hx, IH; [done | done | simpl in Hf; lia].
Qed.

(** Iterating over a well-formed map yields its entries in list order. *)
Lemma contents_spec h m ls cs :
  inv h m ls cs → contents h m = Some (entries h ls).
Proof.
  intros Hi. unfold contents. rewrite (inv_head _ _ _ _ Hi).
  apply traverse_spec; [apply Hi|].
  apply Nat.lt_succ_r, length_le_size; [apply Hi|].
  intros x. by eapply inv_alloc.
Qed.

Lemma entries_length h ls :
  (∀ x, x ∈ ls → is_Some (h !! x)) → length (entries h ls) = length ls.
Proof.
  unfold entries. induction ls as [|x ls IH]; intros Hal; [done|].
  cbn [omap list_omap]. destruct (Hal x) as [n Hn]; [left|].
  rewrite Hn; simpl. f_equal. apply IH. intros y ?. apply Hal. by right.
Qed.

Lemma entries_app h l1 l2 : entries h (l1 ++ l2) = entries h l1 ++ entries h l2.
Proof.
  unfold entries. induction l1 as [|x l1 IH]; [done|].
  cbn [omap list_omap app]. destruct (data <$> h !! x); simpl; by rewrite IH.
Qed.

Lemma entries_ext h h' ls :
  (∀ x, x ∈ ls → data <$> h' !! x = data <$> h !! x) →
  entries h' ls = entries h ls.
Proof.
  unfold entries. induction ls as [|x ls IH]; intros He; [done|].
  cbn [omap list_omap]. rewrite He by left.
  rewrite IH; [done|]. intros y ?. apply He. by right.
Qed.

(** ** Growing the table *)

Lemma in_range_wrap m : in_range m → wrap (bucket_count m * 2) = 2 * bucket_count m.
Proof.
  unfold in_range, wrap, size_max. intros Hr.
  rewrite N.mod_small; [lia|].
  assert (2 ^ 52 * 2 < 2 ^ 64) by (by vm_compute). lia.
Qed.

Lemma ensure_capacity_spec h m ls cs :
  inv h m ls cs → in_range m →
  ∃ h' m' cs',
    ensure_capacity (mkState h m) = Ok tt (mkState h' m') ∧
    inv h' m' ls cs' ∧ frozen h h' ∧ (∀ x, x ∉ ls → h' !! x = h !! x) ∧
    this m' = this m ∧ element_count m' = element_count m ∧
    head m' = head m ∧ tail m' = tail m ∧
    bucket_count m' = (if load_reached (element_count m) (bucket_count m)
                       then 2 * bucket_count m else bucket_count m) ∧
    (load_reached (element_count m) (bucket_count m) = false → h' = h ∧ m' = m).
Proof.
  intros Hi Hr. unfold ensure_capacity.
  do 2 (erewrite bind_Ok by reflexivity). simpl.
  destruct (load_reached (element_count m) (bucket_count m)) eqn:Hl.
  - rewrite (in_range_wrap _ Hr).
    destruct (rehash_spec h m ls cs (2 * bucket_count m) Hi)
      as (h' & nb & cs' & Hrun & Hi' & Hfr & Hfp).
    { pose proof (inv_cap _ _ _ _ Hi). lia. }
    eexists h', _, cs'. split; [exact Hrun|]. by repeat (split; [done|]).
  - exists h, m, cs. by repeat (split; [done|]).
Qed.

(** ** Heaps obtained by adjusting nodes in place *)

Lemma lookup_pointwise F h z : pointwise F h !! z = F z <$> h !! z.
Proof. unfold pointwise. rewrite map_lookup_imap. by destruct (h !! z). Qed.

Lemma pointwise_id h : pointwise (λ _ n, n) h = h.
Proof. apply map_eq. intros z. rewrite lookup_pointwise. by destruct (h !! z). Qed.

Lemma load_pointwise F h m x n :
  h !! x = Some n →
  load (Some x) (mkState (pointwise F h) m) = Ok (F x n) (mkState (pointwise F h) m).
Proof. intros Hx. apply load_Ok. by rewrite lookup_pointwise, Hx. Qed.

Lemma store_pointwise F h m p g :
  is_Some (h !! p) →
  store (Some p) g (mkState (pointwise F h) m)
  = Ok tt (mkState (pointwise (upd (Some p) g F) h) m).
Proof.
  intros [np Hp]. erewrite store_Ok by (by rewrite lookup_pointwise, Hp).
  do 2 f_equal. apply map_eq. intros z. rewrite !lookup_pointwise. unfold upd.
  destruct (decide (Some p = Some z)) as [[= <-]|Hne].
  - by rewrite lookup_insert_eq, Hp.
  - rewrite lookup_insert_ne by congruence. by rewrite lookup_pointwise.
Qed.

Lemma new_Node_Ok h m v :
  new_Node v (mkState h m)
  = Ok (alloc h) (mkState (<[alloc h := mkNode v None None None None]> h) m).
Proof. done. Qed.

Lemma delete_Node_Ok h m x :
  is_Some (h !! x) →
  delete_Node (Some x) (mkState h m) = Ok tt (mkState (delete x h) m).
Proof. intros [n Hn]. unfold delete_Node; simpl. by rewrite Hn. Qed.

Lemma bucket_put_Ok h m i p :
  (N.to_nat i < length (buckets m))%nat →
  bucket_put i p (mkState h m)
  = Ok tt (mkState h (mkMap (this m) (<[N.to_nat i := p]> (buckets m))
                            (bucket_count m) (element_count m) (head m) (tail m))).
Proof.
  intros Hlt. unfold bucket_put. erewrite bind_Ok by reflexivity. simpl.
  by destruct (decide _).
Qed.

Lemma upd_ne q g F x n : q ≠ Some x → upd q g F x n = F x n.
Proof. intros Hq. unfold upd. by rewrite decide_False. Qed.

Lemma upd_None g F : upd None g F = F.
Proof. reflexivity. Qed.

(** ** Erase *)

Lemma erase_run h m x n :
  h !! x = Some n → 0 < bucket_count m →
  (N.to_nat (hasher (data n).1 mod bucket_count m) < length (buckets m))%nat →
  prev n ≠ Some x → next n ≠ Some x →
  list_prev n ≠ Some x → list_next n ≠ Some x →
  (∀ z, prev n = Some z → is_Some (h !! z)) →
  (∀ z, next n = Some z → is_Some (h !! z)) →
  (∀ z, list_prev n = Some z → is_Some (h !! z)) →
  (∀ z, list_next n = Some z → is_Some (h !! z)) →
  erase (mkIt (Some x) (Some (this m))) (mkState h m)
  = Ok tt (mkState (delete x (pointwise (unlink n) h)) (erased_map m n)).
Proof.
  intros Hx Hcap Hidx Hp Hn Hlp Hln Hpa Hna Hlpa Hlna.
  unfold erase. do 2 (erewrite bind_Ok by reflexivity).
  unfold it_eq; simpl. rewrite bool_decide_eq_true_2 by done. simpl.
  rewrite <- (pointwise_id h) at 1.
  erewrite bind_Ok by (by apply load_pointwise).
  erewrite bind_Ok by (by apply hash_index_Ok).
  erewrite bind_Ok by (by apply load_pointwise).
  unfold unlink, erased_map.
  (* the bucket chain, backwards *)
  destruct (prev n) as [p|] eqn:Ep;
    (erewrite bind_Ok;
     [|first [ erewrite bind_Ok by (by apply load_pointwise);
               rewrite Ep; apply store_pointwise; by apply Hpa
             | by apply bucket_put_Ok ]]);
    (erewrite bind_Ok by (by apply load_pointwise));
    rewrite ?upd_ne by done.
  all: destruct (next n) as [q|] eqn:Eq;
    (erewrite bind_Ok;
     [|first [ erewrite bind_Ok by (by apply load_pointwise);
               rewrite ?upd_ne by done; rewrite Eq, ?Ep;
               apply store_pointwise; by apply Hna
             | reflexivity ]]);
    (erewrite bind_Ok by (by apply load_pointwise));
    rewrite ?upd_ne by done.
  all: destruct (list_prev n) as [lp|] eqn:Elp;
    (erewrite bind_Ok;
     [|first [ erewrite bind_Ok by (by apply load_pointwise);
               rewrite ?upd_ne by done; rewrite Elp;
               apply store_pointwise; by apply Hlpa
             | reflexivity ]]);
    (erewrite bind_Ok by (by apply load_pointwise));
    rewrite ?upd_ne by done.
  all: destruct (list_next n) as [lq|] eqn:Elq;
    (erewrite bind_Ok;
     [|first [ erewrite bind_Ok by (by apply load_pointwise);
               rewrite ?upd_ne by done; rewrite Elq, ?Elp;
               apply store_pointwise; by apply Hlna
             | reflexivity ]]).
  all: (erewrite bind_Ok;
        [|apply delete_Node_Ok; cbn [mem]; rewrite lookup_pointwise, Hx; by eexists]).
  all: rewrite ?upd_None; unfold bind, gets, put_element_count, modify; simpl.
  all: rewrite ?Ep, ?Eq, ?Elp, ?Elq; reflexivity.
Qed.


Lemma hd_or_Some (l : list loc) z : hd_or None l = Some z → z ∈ l.
Proof. destruct l; simpl; [done|]. intros [= ->]. left. Qed.

Lemma hd_or_any e (l : list loc) z : hd_or None l = Some z → hd_or e l = Some z.
Proof. by destruct l. Qed.

Lemma hd_or_reverse_Some (l : list loc) z :
  hd_or None (reverse l) = Some z → z ∈ l.
Proof. intros H%hd_or_Some. by rewrite elem_of_reverse in H. Qed.

Lemma hd_or_reverse_cons a (l : list loc) :
  ∃ z, hd_or None (reverse (a :: l)) = Some z.
Proof.
  rewrite reverse_cons. destruct (reverse l) as [|b l']; simpl; eauto.
Qed.

Lemma reverse_middle (l1 l2 : list loc) x :
  reverse (l1 ++ x :: l2) = reverse l2 ++ x :: reverse l1.
Proof. by rewrite reverse_app, reverse_cons, <- app_assoc. Qed.

Lemma NoDup_middle (l1 l2 : list loc) x :
  NoDup (l1 ++ x :: l2) → NoDup (l1 ++ l2) ∧ x ∉ l1 ++ l2.
Proof.
  intros Hnd.
  assert (NoDup (x :: l1 ++ l2)) as Hnd'.
  { by rewrite Permutation_middle. }
  split; [by apply NoDup_cons_1_2 in Hnd' | by apply NoDup_cons_1_1 in Hnd'].
Qed.

(** Taking [x] out of a path: the node before [x] now leads to what [x] led
    to and no other field has changed. *)
Lemma path_unlink f h h' l1 x l2 :
  NoDup (l1 ++ x :: l2) →
  path f h (l1 ++ x :: l2) None →
  (∀ z, z ∈ l1 ++ l2 →
        f <$> h' !! z = if decide (hd_or None (reverse l1) = Some z)
                        then Some (hd_or None l2) else f <$> h !! z) →
  path f h' (l1 ++ l2) None.
Proof.
  clear alloc alloc_fresh.
  intros Hnd Hp Hf.
  apply path_app in Hp as [Hp1 Hp2]. simpl in Hp2. destruct Hp2 as [Hx Hp2].
  apply NoDup_app in Hnd as (Hnd1 & Hdis & Hnd2).
  apply path_app. split.
  - destruct l1 as [|a l1 _] using rev_ind; [done|].
    apply path_snoc in Hp1 as [Hp1 Ha]. apply path_snoc. split.
    + eapply path_ext; [|apply Hp1]. intros z Hz.
      rewrite Hf by (rewrite !elem_of_app; auto).
      rewrite reverse_snoc; simpl. rewrite decide_False; [done|].
      intros [= ->]. apply NoDup_app in Hnd1 as (_ & Hd & _).
      apply (Hd z Hz). left.
    + rewrite Hf by (rewrite !elem_of_app, list_elem_of_singleton; auto).
      rewrite reverse_snoc; simpl. by rewrite decide_True.
  - eapply path_ext; [|apply Hp2]. intros z Hz.
    rewrite Hf by (rewrite elem_of_app; auto).
    rewrite decide_False; [done|]. intros Hz'%hd_or_reverse_Some.
    apply (Hdis z Hz'). by right.
Qed.

(** The same for a doubly linked list, with [fn] forwards and [fp] backwards. *)
Lemma dll_unlink (fn fp : Node → ptr) h h' l1 x l2 :
  NoDup (l1 ++ x :: l2) →
  path fn h (l1 ++ x :: l2) None →
  path fp h (reverse (l1 ++ x :: l2)) None →
  (∀ z, z ∈ l1 ++ l2 →
        fn <$> h' !! z = (if decide (hd_or None (reverse l1) = Some z)
                          then Some (hd_or None l2) else fn <$> h !! z) ∧
        fp <$> h' !! z = (if decide (hd_or None l2 = Some z)
                          then Some (hd_or None (reverse l1)) else fp <$> h !! z)) →
  path fn h' (l1 ++ l2) None ∧ path fp h' (reverse (l1 ++ l2)) None.
Proof.
  intros Hnd Hn Hp Hf. split.
  - eapply path_unlink; eauto. intros z Hz. by apply Hf.
  - rewrite reverse_app. rewrite reverse_middle in Hp.
    eapply path_unlink; [|exact Hp|].
    + rewrite <- reverse_middle. by rewrite reverse_Permutation.
    + intros z Hz. rewrite reverse_involutive. apply Hf.
      rewrite elem_of_app, !elem_of_reverse in Hz. rewrite elem_of_app. tauto.
Qed.

Lemma chain_ok_frame h h' bkts bkts' cap ls ls' i c :
  (∀ z, z ∈ c → next <$> h' !! z = next <$> h !! z ∧
                prev <$> h' !! z = prev <$> h !! z ∧
                key_at h' z = key_at h z) →
  bkts' !! i = bkts !! i → (∀ z, z ∈ c → z ∈ ls → z ∈ ls') →
  chain_ok h bkts cap ls i c → chain_ok h' bkts' cap ls' i c.
Proof.
  intros Hh Hb Hls [H1 H2 H3 H4 H5 H6]. split; try done.
  - by rewrite Hb.
  - eapply path_ext; [|done]. intros z Hz. by apply Hh.
  - eapply path_ext; [|done]. intros z Hz. rewrite elem_of_reverse in Hz.
    by apply Hh.
  - auto.
  - intros z Hz. rewrite <- (H6 z Hz). unfold slot_of.
    by destruct (Hh z Hz) as (_ & _ & ->).
Qed.

Lemma unlink_fields n z nz :
  data (unlink n z nz) = data nz ∧
  next (unlink n z nz) = (if decide (prev n = Some z) then next n else next nz) ∧
  prev (unlink n z nz) = (if decide (next n = Some z) then prev n else prev nz) ∧
  list_next (unlink n z nz)
  = (if decide (list_prev n = Some z) then list_next n else list_next nz) ∧
  list_prev (unlink n z nz)
  = (if decide (list_next n = Some z) then list_prev n else list_prev nz).
Proof. unfold unlink, upd. repeat case_decide; done. Qed.

Lemma erased_lookup h x n z :
  z ≠ x → delete x (pointwise (unlink n) h) !! z = unlink n z <$> h !! z.
Proof. intros Hz. by rewrite lookup_delete_ne, lookup_pointwise. Qed.


Lemma erased_fields h x n z :
  z ≠ x → is_Some (h !! z) →
  let h' := delete x (pointwise (unlink n) h) in
  data <$> h' !! z = data <$> h !! z ∧
  next <$> h' !! z
  = (if decide (prev n = Some z) then Some (next n) else next <$> h !! z) ∧
  prev <$> h' !! z
  = (if decide (next n = Some z) then Some (prev n) else prev <$> h !! z) ∧
  list_next <$> h' !! z
  = (if decide (list_prev n = Some z) then Some (list_next n)
     else list_next <$> h !! z) ∧
  list_prev <$> h' !! z
  = (if decide (list_next n = Some z) then Some (list_prev n)
     else list_prev <$> h !! z).
Proof.
  intros Hz [nz Hnz]; simpl. rewrite erased_lookup, Hnz by done; simpl.
  destruct (unlink_fields n z nz) as (-> & -> & -> & -> & ->).
  repeat case_decide; done.
Qed.

Lemma erased_key h x n z :
  z ≠ x → key_at (delete x (pointwise (unlink n) h)) z = key_at h z.
Proof.
  intros Hz. unfold key_at. rewrite erased_lookup by done.
  destruct (h !! z) as [nz|]; simpl; [|done].
  by destruct (unlink_fields n z nz) as (-> & _).
Qed.

(** [erase] of a node of a well-formed map. *)
Lemma erase_spec h m l1 x l2 cs :
  inv h m (l1 ++ x :: l2) cs → element_count m < size_max →
  ∃ n cs',
    h !! x = Some n ∧
    erase (mkIt (Some x) (Some (this m))) (mkState h m)
    = Ok tt (mkState (delete x (pointwise (unlink n) h)) (erased_map m n)) ∧
    inv (delete x (pointwise (unlink n) h)) (erased_map m n) (l1 ++ l2) cs' ∧
    (∀ z, z ≠ x → data <$> delete x (pointwise (unlink n) h) !! z = data <$> h !! z) ∧
    (∀ z, z ∉ l1 ++ x :: l2 → delete x (pointwise (unlink n) h) !! z = h !! z).
Proof.
  clear alloc alloc_fresh.
  intros Hi Hec.
  assert (x ∈ l1 ++ x :: l2) as Hx by (rewrite elem_of_app, elem_of_cons; tauto).
  destruct (inv_alloc _ _ _ _ _ Hi Hx) as [n Hn].
  assert (key_at h x = Some (data n).1) as Hk by (unfold key_at; by rewrite Hn).
  destruct (inv_chain_of _ _ _ _ _ _ Hi Hx Hk) as (cj & Hcj & Hxcj).
  set (j := N.to_nat (hasher (data n).1 mod bucket_count m)) in *.
  destruct (list_elem_of_split _ _ Hxcj) as (c1 & c2 & ->).
  pose proof (inv_chain _ _ _ _ Hi _ _ Hcj) as Hok.
  pose proof (lookup_lt_Some _ _ _ Hcj) as Hj.
  assert (list_next n = hd_or None l2) as Hln.
  { pose proof (path_middle _ _ _ _ _ _ (inv_fwd _ _ _ _ Hi)) as H.
    rewrite Hn in H. by injection H. }
  assert (list_prev n = hd_or None (reverse l1)) as Hlp.
  { pose proof (inv_bwd _ _ _ _ Hi) as H. rewrite reverse_middle in H.
    apply path_middle in H. rewrite Hn in H. by injection H. }
  assert (next n = hd_or None c2) as Hnx.
  { pose proof (path_middle _ _ _ _ _ _ (chain_fwd _ _ _ _ _ _ Hok)) as H.
    rewrite Hn in H. by injection H. }
  assert (prev n = hd_or None (reverse c1)) as Hpv.
  { pose proof (chain_bwd _ _ _ _ _ _ Hok) as H. rewrite reverse_middle in H.
    apply path_middle in H. rewrite Hn in H. by injection H. }
  destruct (NoDup_middle _ _ _ (inv_nodup _ _ _ _ Hi)) as [Hndl Hxl].
  destruct (NoDup_middle _ _ _ (chain_nodup _ _ _ _ _ _ Hok)) as [Hndc Hxc].
  rewrite elem_of_app in Hxl, Hxc.
  assert (∀ z, z ∈ c1 ++ c2 → z ∈ l1 ++ l2) as Hcl.
  { intros z Hz.
    assert (z ∈ l1 ++ x :: l2) as Hz'.
    { apply (chain_in _ _ _ _ _ _ Hok). rewrite elem_of_app, elem_of_cons.
      rewrite elem_of_app in Hz. tauto. }
    rewrite elem_of_app, elem_of_cons in Hz'. rewrite elem_of_app.
    destruct Hz' as [?|[->|?]]; [tauto| |tauto].
    rewrite elem_of_app in Hz. tauto. }
  assert (∀ z, z ∈ l1 ++ l2 → z ≠ x ∧ is_Some (h !! z)) as Hal.
  { intros z Hz. split.
    - intros ->. rewrite elem_of_app in Hz. tauto.
    - apply (inv_alloc _ _ _ _ _ Hi). rewrite elem_of_app, elem_of_cons.
      rewrite elem_of_app in Hz. tauto. }
  exists n, (<[j := c1 ++ c2]> cs).
  split; [done|]. split; [|split; [|split]].
  - apply erase_run; try done.
    + apply (inv_cap _ _ _ _ Hi).
    + fold j. by rewrite (inv_blen _ _ _ _ Hi), <- (inv_clen _ _ _ _ Hi).
    + rewrite Hpv. intros ?%hd_or_reverse_Some. tauto.
    + rewrite Hnx. intros ?%hd_or_Some. tauto.
    + rewrite Hlp. intros ?%hd_or_reverse_Some. tauto.
    + rewrite Hln. intros ?%hd_or_Some. tauto.
    + rewrite Hpv. intros z Hz%hd_or_reverse_Some.
      apply Hal, Hcl. rewrite elem_of_app. tauto.
    + rewrite Hnx. intros z Hz%hd_or_Some.
      apply Hal, Hcl. rewrite elem_of_app. tauto.
    + rewrite Hlp. intros z Hz%hd_or_reverse_Some.
      apply Hal. rewrite elem_of_app. tauto.
    + rewrite Hln. intros z Hz%hd_or_Some.
      apply Hal. rewrite elem_of_app. tauto.
  - destruct (dll_unlink list_next list_prev h
                (delete x (pointwise (unlink n) h)) l1 x l2) as [Hf Hb];
      [apply Hi | apply Hi | apply Hi | |].
    { intros z Hz. destruct (Hal z Hz) as [Hzx Hza].
      destruct (erased_fields h x n z Hzx Hza) as (_ & _ & _ & -> & ->).
      by rewrite Hln, Hlp. }
    destruct (dll_unlink next prev h
                (delete x (pointwise (unlink n) h)) c1 x c2) as [Hcf Hcb];
      [apply Hok | apply Hok | apply Hok | |].
    { intros z Hz. destruct (Hal z (Hcl z Hz)) as [Hzx Hza].
      destruct (erased_fields h x n z Hzx Hza) as (_ & -> & -> & _ & _).
      by rewrite Hnx, Hpv. }
    split; simpl; try done.
    + rewrite Hlp, (inv_head _ _ _ _ Hi).
      destruct l1 as [|a l1]; [done|].
      by destruct (hd_or_reverse_cons a l1) as [z ->].
    + rewrite Hln, reverse_app, (inv_tail _ _ _ _ Hi), reverse_middle.
      destruct l2 as [|a l2]; [done|].
      destruct (hd_or_reverse_cons a l2) as [z Hz]. cbn [hd_or].
      by rewrite !hd_or_app, !(hd_or_any _ _ _ Hz).
    + rewrite (inv_count _ _ _ _ Hi) in *. unfold wrap.
      rewrite !length_app in *. simpl in *.
      replace (N.of_nat (length l1 + S (length l2)) + size_max - 1)
        with (N.of_nat (length l1 + length l2) + 1 * size_max) by lia.
      rewrite N.Div0.mod_add. apply N.mod_small. lia.
    + apply Hi.
    + rewrite <- (inv_blen _ _ _ _ Hi). destruct (prev n); [done|].
      by rewrite length_insert.
    + rewrite length_insert. apply Hi.
    + intros i c Hc. destruct (decide (i = j)) as [->|Hne].
      * rewrite list_lookup_insert_eq in Hc by done. injection Hc as <-.
        split; try done.
        -- rewrite Hpv. pose proof (chain_hd _ _ _ _ _ _ Hok) as Hhd.
           destruct c1 as [|a c1].
           ++ simpl. rewrite list_lookup_insert_eq, Hnx; [done|].
              fold j. by rewrite (inv_blen _ _ _ _ Hi), <- (inv_clen _ _ _ _ Hi).
           ++ by destruct (hd_or_reverse_cons a c1) as [z ->].
        -- intros z Hz. destruct (Hal z (Hcl z Hz)) as [Hzx _].
           rewrite <- (chain_slot _ _ _ _ _ _ Hok z).
           ++ unfold slot_of. by rewrite erased_key.
           ++ rewrite elem_of_app, elem_of_cons. rewrite elem_of_app in Hz. tauto.
      * rewrite list_lookup_insert_ne in Hc by done.
        pose proof (inv_chain _ _ _ _ Hi _ _ Hc) as Hok'.
        assert (∀ z, z ∈ c → z ∉ c1 ++ x :: c2) as Hdis.
        { intros z Hz Hz'. apply Hne.
          eapply chain_ok_inj; [exact Hok'|exact Hok|exact Hz|exact Hz']. }
        eapply chain_ok_frame; [| | |exact Hok'].
        -- intros z Hz. specialize (Hdis z Hz).
           rewrite elem_of_app, elem_of_cons in Hdis.
           assert (z ≠ x) as Hzx by (intros ->; tauto).
           assert (is_Some (h !! z)) as Hza.
           { by apply (inv_alloc _ _ _ _ _ Hi), (chain_in _ _ _ _ _ _ Hok'). }
           destruct (erased_fields h x n z Hzx Hza) as (_ & -> & -> & _ & _).
           rewrite erased_key by done.
           rewrite !decide_False; [done| |].
           ++ rewrite Hnx. intros ?%hd_or_Some. tauto.
           ++ rewrite Hpv. intros ?%hd_or_reverse_Some. tauto.
        -- destruct (prev n); [done|]. fold j. by rewrite list_lookup_insert_ne.
        -- intros z Hz Hz'. specialize (Hdis z Hz).
           rewrite elem_of_app, elem_of_cons in Hdis, Hz'.
           rewrite elem_of_app. destruct Hz' as [?|[->|?]]; tauto.
    + intros z Hz. destruct (Hal z Hz) as [Hzx _].
      destruct (inv_cover _ _ _ _ Hi z) as (i & c & Hc & Hzc).
      { rewrite elem_of_app, elem_of_cons. rewrite elem_of_app in Hz. tauto. }
      destruct (decide (i = j)) as [->|Hne].
      * exists j, (c1 ++ c2). split; [by apply list_lookup_insert_eq|].
        rewrite Hcj in Hc. injection Hc as <-.
        rewrite elem_of_app, elem_of_cons in Hzc. rewrite elem_of_app. tauto.
      * exists i, c. by rewrite list_lookup_insert_ne.
    + intros y z ky kz Hy Hz. destruct (Hal y Hy) as [Hyx _].
      destruct (Hal z Hz) as [Hzx _]. rewrite !erased_key by done.
      apply (inv_uniq _ _ _ _ Hi); rewrite elem_of_app, elem_of_cons;
        rewrite elem_of_app in Hy, Hz; tauto.
  - intros z Hz. rewrite erased_lookup by done.
    destruct (h !! z) as [nz|]; simpl; [|done].
    by destruct (unlink_fields n z nz) as (-> & _).
  - intros z Hz.
    assert (z ≠ x) as Hzx by (intros ->; apply Hz, elem_of_app; right; left).
    rewrite erased_lookup by done.
    destruct (h !! z) as [nz|] eqn:Hnz; simpl; [|done]. f_equal.
    assert (∀ q, q ∈ l1 ++ l2 → z ≠ q) as Hq.
    { intros q Hq ->. apply Hz. rewrite elem_of_app, elem_of_cons.
      rewrite elem_of_app in Hq. tauto. }
    unfold unlink, upd. rewrite !decide_False; [done| | | |].
    + rewrite Hpv. intros Hz'%hd_or_reverse_Some.
      apply (Hq z); [|done]. apply Hcl. rewrite elem_of_app. tauto.
    + rewrite Hnx. intros Hz'%hd_or_Some.
      apply (Hq z); [|done]. apply Hcl. rewrite elem_of_app. tauto.
    + rewrite Hlp. intros Hz'%hd_or_reverse_Some.
      apply (Hq z); [|done]. rewrite elem_of_app. tauto.
    + rewrite Hln. intros Hz'%hd_or_Some.
      apply (Hq z); [|done]. rewrite elem_of_app. tauto.
Qed.


(** ** Insert *)

(** Giving the last node of a path a new end. *)
Lemma path_retarget f h h' l e :
  NoDup l → path f h l None →
  (∀ z, z ∈ l →
        f <$> h' !! z = if decide (hd_or None (reverse l) = Some z)
                        then Some e else f <$> h !! z) →
  path f h' l e.
Proof.
  clear alloc alloc_fresh.
  intros Hnd Hp Hf. destruct l as [|a l _] using rev_ind; [done|].
  apply path_snoc in Hp as [Hp Ha]. apply path_snoc.
  rewrite reverse_snoc in Hf. simpl in Hf. split.
  - eapply path_ext; [|exact Hp]. intros z Hz.
    rewrite Hf by (rewrite elem_of_app; auto).
    rewrite decide_False; [done|]. intros [= ->].
    apply NoDup_app in Hnd as (_ & Hd & _). apply (Hd z Hz). left.
  - rewrite Hf by (rewrite elem_of_app, list_elem_of_singleton; auto).
    by rewrite decide_True.
Qed.

Lemma attach_fields x b t z nz :
  z ≠ x →
  data (attach x b t z nz) = data nz ∧
  next (attach x b t z nz) = next nz ∧
  prev (attach x b t z nz) = (if decide (b = Some z) then Some x else prev nz) ∧
  list_next (attach x b t z nz)
  = (if decide (t = Some z) then Some x else list_next nz) ∧
  list_prev (attach x b t z nz) = list_prev nz.
Proof.
  intros Hz. unfold attach, upd.
  rewrite !(decide_False (P := Some x = Some z)) by congruence.
  repeat case_decide; done.
Qed.

Lemma attach_new x b t v :
  b ≠ Some x → t ≠ Some x →
  attach x b t x (mkNode v None None None None) = mkNode v b None None t.
Proof.
  intros Hb Ht. unfold attach, upd.
  rewrite !(decide_True (P := Some x = Some x)) by done.
  by rewrite !decide_False by done.
Qed.

Lemma bucket_get_Ok h h' m ls cs key c :
  inv h m ls cs →
  cs !! N.to_nat (hasher key mod bucket_count m) = Some c →
  bucket_get (hasher key mod bucket_count m) (mkState h' m)
  = Ok (hd_or None c) (mkState h' m).
Proof.
  intros Hi Hc. unfold bucket_get. erewrite bind_Ok by reflexivity.
  apply array_get_Ok, (chain_hd _ _ _ _ _ _ (inv_chain _ _ _ _ Hi _ _ Hc)).
Qed.

Lemma chain_walk_inv h m ls cs key c :
  inv h m ls cs →
  cs !! N.to_nat (hasher key mod bucket_count m) = Some c →
  chain_walk (S (base.size h)) key (hd_or None c) (mkState h m)
  = Ok (locate h key ls) (mkState h m).
Proof.
  intros Hi Hc. pose proof (inv_chain _ _ _ _ Hi _ _ Hc) as Hok.
  rewrite chain_walk_spec.
  - by rewrite (locate_chain _ _ _ _ _ _ Hi Hc).
  - apply Hok.
  - apply Nat.lt_succ_r, length_le_size; [apply Hok|].
    intros x Hx. eapply inv_alloc; eauto using chain_in.
Qed.

Lemma inv_tail_of_head h m ls cs :
  inv h m ls cs → head m = None ↔ tail m = None.
Proof.
  intros Hi. rewrite (inv_head _ _ _ _ Hi), (inv_tail _ _ _ _ Hi).
  destruct ls as [|a ls]; [done|].
  destruct (hd_or_reverse_cons a ls) as [z ->]. done.
Qed.

(** The run of [insert] after the capacity check has left a well-formed
    state [h], [m]. *)
Lemma insert_run h0 m0 h m ls cs v cj :
  ensure_capacity (mkState h0 m0) = Ok tt (mkState h m) →
  inv h m ls cs →
  cs !! N.to_nat (hasher v.1 mod bucket_count m) = Some cj →
  insert v (mkState h0 m0) =
    match locate h v.1 ls with
    | Some y => Ok (mkIt (Some y) (Some (this m)), false) (mkState h m)
    | None =>
      let x := alloc h in
      Ok (mkIt (Some x) (Some (this m)), true)
         (mkState (pointwise (attach x (hd_or None cj) (tail m))
                             (<[x := mkNode v None None None None]> h))
                  (inserted_map m (N.to_nat (hasher v.1 mod bucket_count m)) x))
    end.
Proof.
  intros Hens Hi Hcj. unfold insert.
  erewrite bind_Ok by exact Hens.
  erewrite bind_Ok by (apply hash_index_Ok, (inv_cap _ _ _ _ Hi)).
  erewrite bind_Ok by (by eapply bucket_get_Ok).
  erewrite bind_Ok by apply fuel_Ok.
  erewrite bind_Ok by (by eapply chain_walk_inv).
  erewrite bind_Ok by reflexivity.
  destruct (locate h v.1 ls) as [y|] eqn:Hloc; [done|].
  pose proof (inv_chain _ _ _ _ Hi _ _ Hcj) as Hok.
  pose proof (lookup_lt_Some _ _ _ Hcj) as Hj.
  set (x := alloc h). set (nn := mkNode v None None None None).
  set (hb := <[x := nn]> h).
  assert (h !! x = None) as Hfresh by apply alloc_fresh.
  assert (hb !! x = Some nn) as Hbx by apply lookup_insert_eq.
  assert (∀ z, is_Some (h !! z) → is_Some (hb !! z) ∧ Some z ≠ Some x) as Hal.
  { intros z Hz. assert (z ≠ x) by (intros ->; rewrite Hfresh in Hz; by destruct Hz).
    split; [|congruence]. unfold hb. by rewrite lookup_insert_ne. }
  assert (∀ z, hd_or None cj = Some z → is_Some (h !! z)) as Hb.
  { intros z Hz%hd_or_Some.
    by apply (inv_alloc _ _ _ _ _ Hi), (chain_in _ _ _ _ _ _ Hok). }
  assert (∀ z, tail m = Some z → is_Some (h !! z)) as Ht.
  { intros z. rewrite (inv_tail _ _ _ _ Hi). intros Hz%hd_or_reverse_Some.
    by apply (inv_alloc _ _ _ _ _ Hi). }
  erewrite bind_Ok by apply new_Node_Ok. fold x nn hb.
  erewrite bind_Ok by (by eapply bucket_get_Ok).
  rewrite <- (pointwise_id hb) at 1.
  erewrite bind_Ok by (apply store_pointwise; eauto).
  unfold attach, inserted_map.
  pose proof (inv_tail_of_head _ _ _ _ Hi) as Hht.
  assert (N.to_nat (hasher v.1 mod bucket_count m) < length (buckets m))%nat
    as Hjb by (by rewrite (inv_blen _ _ _ _ Hi), <- (inv_clen _ _ _ _ Hi)).
  destruct (hd_or None cj) as [y|] eqn:Hy;
    (erewrite bind_Ok
       by first [ apply store_pointwise; by apply Hal, Hb | reflexivity ]);
    (erewrite bind_Ok by (by apply bucket_put_Ok));
    (erewrite bind_Ok by reflexivity); cbn [obj head].
  all: destruct (head m) as [hd|] eqn:Hhd.
  1,3: destruct (tail m) as [tl|] eqn:Htl;
            [|by destruct Hht as [_ Hc]; specialize (Hc eq_refl)];
            (erewrite bind_Ok;
             [|erewrite bind_Ok by reflexivity; cbn [obj tail]; rewrite ?Htl;
               erewrite bind_Ok by (apply store_pointwise; by apply Hal, Ht);
               erewrite bind_Ok by reflexivity; cbn [obj tail]; rewrite ?Htl;
               erewrite bind_Ok by (apply store_pointwise; eauto);
               reflexivity]);
            rewrite ?upd_None; reflexivity.
  all: rewrite (proj1 Hht eq_refl);
    (erewrite bind_Ok by reflexivity);
    unfold bind, gets, put_element_count, modify, ret; simpl;
    do 2 f_equal; rewrite ?upd_None;
    apply map_eq; intros z; rewrite !lookup_pointwise; unfold upd;
    (destruct (decide (Some x = Some z)) as [[= <-]|Hne]; [|done]);
    rewrite Hbx; simpl; by repeat case_decide.
Qed.


Lemma attached_lookup h x nn b t z :
  z ≠ x →
  pointwise (attach x b t) (<[x := nn]> h) !! z = attach x b t z <$> h !! z.
Proof. intros Hz. by rewrite lookup_pointwise, lookup_insert_ne. Qed.

Lemma attached_fields h x nn b t z :
  z ≠ x → is_Some (h !! z) →
  let h' := pointwise (attach x b t) (<[x := nn]> h) in
  next <$> h' !! z = next <$> h !! z ∧
  prev <$> h' !! z
  = (if decide (b = Some z) then Some (Some x) else prev <$> h !! z) ∧
  list_next <$> h' !! z
  = (if decide (t = Some z) then Some (Some x) else list_next <$> h !! z) ∧
  list_prev <$> h' !! z = list_prev <$> h !! z.
Proof.
  intros Hz [nz Hnz]; simpl. rewrite attached_lookup, Hnz by done; simpl.
  destruct (attach_fields x b t z nz Hz) as (_ & -> & -> & -> & ->).
  repeat case_decide; done.
Qed.

Lemma attached_data h x nn b t z :
  z ≠ x →
  data <$> pointwise (attach x b t) (<[x := nn]> h) !! z = data <$> h !! z.
Proof.
  intros Hz. rewrite attached_lookup by done.
  destruct (h !! z) as [nz|]; simpl; [|done].
  by destruct (attach_fields x b t z nz Hz) as (-> & _).
Qed.

Lemma attached_key h x nn b t z :
  z ≠ x → key_at (pointwise (attach x b t) (<[x := nn]> h)) z = key_at h z.
Proof.
  intros Hz. unfold key_at. rewrite attached_lookup by done.
  destruct (h !! z) as [nz|]; simpl; [|done].
  by destruct (attach_fields x b t z nz Hz) as (-> & _).
Qed.

(** The state after [insert] has linked a node for a new key. *)
Lemma inserted_inv h m ls cs v cj :
  inv h m ls cs → locate h v.1 ls = None →
  cs !! N.to_nat (hasher v.1 mod bucket_count m) = Some cj →
  element_count m + 1 < size_max →
  let x := alloc h in
  let h' := pointwise (attach x (hd_or None cj) (tail m))
                      (<[x := mkNode v None None None None]> h) in
  inv h' (inserted_map m (N.to_nat (hasher v.1 mod bucket_count m)) x)
      (ls ++ [x]) (<[N.to_nat (hasher v.1 mod bucket_count m) := x :: cj]> cs) ∧
  h' !! x = Some (mkNode v (hd_or None cj) None None (tail m)) ∧
  (∀ z, z ≠ x → data <$> h' !! z = data <$> h !! z) ∧
  (∀ z, z ∉ ls → z ≠ x → h' !! z = h !! z).
Proof.
  intros Hi Hloc Hcj Hec x h'. subst h'.
  set (j := N.to_nat (hasher v.1 mod bucket_count m)) in *.
  set (nn := mkNode v None None None None) in *.
  pose proof (inv_chain _ _ _ _ Hi _ _ Hcj) as Hok.
  pose proof (lookup_lt_Some _ _ _ Hcj) as Hj.
  assert (h !! x = None) as Hfresh by apply alloc_fresh.
  assert (∀ z, z ∈ ls → z ≠ x ∧ is_Some (h !! z)) as Hal.
  { intros z Hz. pose proof (inv_alloc _ _ _ _ _ Hi Hz) as Hz'.
    split; [|done]. intros ->. rewrite Hfresh in Hz'. by destruct Hz'. }
  assert (x ∉ ls) as Hxls by (intros []%Hal; done).
  assert (x ∉ cj) as Hxcj by (intros ?%(chain_in _ _ _ _ _ _ Hok); done).
  assert (hd_or None cj ≠ Some x) as Hb by (intros ?%hd_or_Some; done).
  assert (tail m ≠ Some x) as Ht.
  { rewrite (inv_tail _ _ _ _ Hi). intros ?%hd_or_reverse_Some; done. }
  assert (pointwise (attach x (hd_or None cj) (tail m)) (<[x := nn]> h) !! x
          = Some (mkNode v (hd_or None cj) None None (tail m))) as Hx'.
  { rewrite lookup_pointwise, lookup_insert_eq; simpl.
    f_equal. by apply attach_new. }
  split; [|split; [done|split]].
  - split; simpl.
    + apply NoDup_app. split; [apply Hi|]. split; [|apply NoDup_singleton].
      intros z Hz ->%list_elem_of_singleton. done.
    + apply path_snoc. split; [|by rewrite Hx'].
      apply (path_retarget _ h); [apply Hi | apply Hi |].
      intros z Hz. destruct (Hal z Hz) as [Hzx Hza].
      destruct (attached_fields h x nn (hd_or None cj) (tail m) z Hzx Hza)
        as (_ & _ & -> & _).
      by rewrite (inv_tail _ _ _ _ Hi).
    + rewrite reverse_snoc. simpl. split.
      * by rewrite Hx', (inv_tail _ _ _ _ Hi).
      * eapply path_ext; [|apply Hi]. intros z Hz. rewrite elem_of_reverse in Hz.
        destruct (Hal z Hz) as [Hzx Hza].
        by destruct (attached_fields h x nn (hd_or None cj) (tail m) z Hzx Hza)
          as (_ & _ & _ & ->).
    + rewrite (inv_head _ _ _ _ Hi). by destruct ls.
    + by rewrite reverse_snoc.
    + rewrite (inv_count _ _ _ _ Hi) in *. unfold wrap.
      rewrite N.mod_small by done. rewrite length_app; simpl. lia.
    + apply Hi.
    + rewrite length_insert. apply Hi.
    + rewrite length_insert. apply Hi.
    + intros i c Hc. destruct (decide (i = j)) as [->|Hne].
      * rewrite list_lookup_insert_eq in Hc by done. injection Hc as <-.
        split.
        -- apply list_lookup_insert_eq.
           by rewrite (inv_blen _ _ _ _ Hi), <- (inv_clen _ _ _ _ Hi).
        -- apply NoDup_cons. split; [done | apply Hok].
        -- simpl. split; [by rewrite Hx'|].
           eapply path_ext; [|apply Hok]. intros z Hz.
           destruct (Hal z (chain_in _ _ _ _ _ _ Hok z Hz)) as [Hzx Hza].
           by destruct (attached_fields h x nn (hd_or None cj) (tail m) z Hzx Hza)
             as (-> & _).
        -- rewrite reverse_cons. apply path_snoc. split; [|by rewrite Hx'].
           apply (path_retarget _ h).
           ++ rewrite reverse_Permutation. apply Hok.
           ++ apply Hok.
           ++ intros z Hz. rewrite elem_of_reverse in Hz.
              destruct (Hal z (chain_in _ _ _ _ _ _ Hok z Hz)) as [Hzx Hza].
              destruct (attached_fields h x nn (hd_or None cj) (tail m) z Hzx Hza)
                as (_ & -> & _).
              by rewrite reverse_involutive.
        -- intros z [->|Hz]%elem_of_cons; rewrite elem_of_app.
           ++ right. left.
           ++ left. by apply (chain_in _ _ _ _ _ _ Hok).
        -- intros z [->|Hz]%elem_of_cons.
           ++ apply slot_of_Some. exists v.1. split.
              ** unfold key_at. by rewrite Hx'.
              ** unfold j. by rewrite N2Nat.id.
           ++ destruct (Hal z (chain_in _ _ _ _ _ _ Hok z Hz)) as [Hzx _].
              unfold slot_of. rewrite attached_key by done.
              by apply (chain_slot _ _ _ _ _ _ Hok).
      * rewrite list_lookup_insert_ne in Hc by done.
        pose proof (inv_chain _ _ _ _ Hi _ _ Hc) as Hok'.
        eapply chain_ok_frame; [| | |exact Hok'].
        -- intros z Hz.
           destruct (Hal z (chain_in _ _ _ _ _ _ Hok' z Hz)) as [Hzx Hza].
           destruct (attached_fields h x nn (hd_or None cj) (tail m) z Hzx Hza)
             as (-> & -> & _).
           rewrite attached_key by done.
           rewrite decide_False; [done|]. intros Hz'%hd_or_Some.
           apply Hne. eapply chain_ok_inj; [exact Hok'|exact Hok|exact Hz|exact Hz'].
        -- by rewrite list_lookup_insert_ne.
        -- intros z _ Hz. rewrite elem_of_app. by left.
    + intros z [Hz| ->%list_elem_of_singleton]%elem_of_app.
      * apply member_insert_cons; [done|]. right.
        by apply (inv_cover _ _ _ _ Hi).
      * apply member_insert_cons; [done|]. by left.
    + assert (∀ z kz, z ∈ ls → key_at h z = Some kz →
                      key_equal kz v.1 = false) as Hno.
      { intros z kz Hz Hkz. rewrite locate_None in Hloc.
        specialize (Hloc z Hz). unfold matches in Hloc. by rewrite Hkz in Hloc. }
      assert (key_at (pointwise (attach x (hd_or None cj) (tail m)) (<[x := nn]> h)) x
              = Some v.1) as Hkx by (unfold key_at; by rewrite Hx').
      intros y z ky kz [Hy| ->%list_elem_of_singleton]%elem_of_app
                       [Hz| ->%list_elem_of_singleton]%elem_of_app.
      * destruct (Hal y Hy) as [Hyx _]. destruct (Hal z Hz) as [Hzx _].
        rewrite !attached_key by done. by apply (inv_uniq _ _ _ _ Hi).
      * destruct (Hal y Hy) as [Hyx _].
        rewrite (attached_key _ _ _ _ _ y) by done. rewrite Hkx.
        intros Hky [= <-] He. by rewrite (Hno y ky Hy Hky) in He.
      * destruct (Hal z Hz) as [Hzx _].
        rewrite (attached_key _ _ _ _ _ z) by done. rewrite Hkx.
        intros [= <-] Hkz He. apply key_equal_sym in He.
        by rewrite (Hno z kz Hz Hkz) in He.
      * done.
  - intros z Hz. by apply attached_data.
  - intros z Hz Hzx. rewrite attached_lookup by done.
    destruct (h !! z) as [nz|] eqn:Hnz; simpl; [|done]. f_equal.
    unfold attach, upd. rewrite !decide_False; [done| | | |]; try congruence.
    + intros Hz'%hd_or_Some. by apply Hz, (chain_in _ _ _ _ _ _ Hok).
    + rewrite (inv_tail _ _ _ _ Hi). by intros Hz'%hd_or_reverse_Some.
Qed.


Lemma load_ok_bound m : load_ok m → in_range m → element_count m + 1 < size_max.
Proof.
  unfold load_ok, in_range, size_max. intros [_ Hl] Hr.
  assert (2 ^ 52 * 2 < 2 ^ 64) by (by vm_compute). lia.
Qed.

Lemma load_ok_grow m m' :
  load_ok m →
  element_count m' ≤ element_count m + 1 →
  (element_count m' ≤ element_count m ∨
   load_reached (element_count m) (bucket_count m) = true ∨
   bucket_count m' = bucket_count m) →
  bucket_count m' = (if load_reached (element_count m) (bucket_count m)
                     then 2 * bucket_count m else bucket_count m) →
  load_ok m'.
Proof.
  unfold load_ok, load_reached. intros [[k Hk] Hl] He Hc Hb.
  assert (0 < 2 ^ k) by (apply N.neq_0_lt_0, N.pow_nonzero; lia).
  destruct (N.leb_spec (3 * bucket_count m) (4 * element_count m)) as [Hr|Hr].
  - split; [|lia]. exists (N.succ k). rewrite N.pow_succ_r', Hb. lia.
  - split; [exists k; lia|]. rewrite Hb. lia.
Qed.

(** [insert] of a key that the map holds at node [y]. *)
Lemma insert_found h m ls cs v y :
  inv h m ls cs → load_ok m → in_range m → locate h v.1 ls = Some y →
  ∃ h' m' cs',
    insert v (mkState h m)
    = Ok (mkIt (Some y) (Some (this m)), false) (mkState h' m') ∧
    ensure_capacity (mkState h m) = Ok tt (mkState h' m') ∧
    inv h' m' ls cs' ∧ load_ok m' ∧ frozen h h' ∧
    (∀ x, x ∉ ls → h' !! x = h !! x) ∧
    this m' = this m ∧ element_count m' = element_count m ∧
    bucket_count m' = (if load_reached (element_count m) (bucket_count m)
                       then 2 * bucket_count m else bucket_count m).
Proof.
  intros Hi Hl Hr Hloc.
  destruct (ensure_capacity_spec h m ls cs Hi Hr)
    as (h' & m' & cs' & Hens & Hi' & Hfr & Hfp & Hth & Hec & _ & _ & Hbc & _).
  destruct (inv_slot_lt _ _ _ _ v.1 Hi') as [cj Hcj].
  exists h', m', cs'. split; [|split; [done|]].
  - rewrite (insert_run _ _ _ _ _ _ _ _ Hens Hi' Hcj).
    by rewrite (frozen_locate _ _ _ _ Hfr), Hloc, Hth.
  - repeat (split; [done|]). split; [|done].
    eapply load_ok_grow; eauto; lia.
Qed.

(** [insert] of a key that the map does not hold. *)
Lemma insert_new h m ls cs v :
  inv h m ls cs → load_ok m → in_range m → locate h v.1 ls = None →
  ∃ x h' m' cs',
    insert v (mkState h m)
    = Ok (mkIt (Some x) (Some (this m)), true) (mkState h' m') ∧
    inv h' m' (ls ++ [x]) cs' ∧ load_ok m' ∧
    h !! x = None ∧ data <$> h' !! x = Some v ∧
    (∀ z, z ≠ x → data <$> h' !! z = data <$> h !! z) ∧
    (∀ z, z ∉ ls → z ≠ x → h' !! z = h !! z) ∧
    this m' = this m ∧ element_count m' = element_count m + 1 ∧
    bucket_count m' = (if load_reached (element_count m) (bucket_count m)
                       then 2 * bucket_count m else bucket_count m).
Proof.
  intros Hi Hl Hr Hloc.
  destruct (ensure_capacity_spec h m ls cs Hi Hr)
    as (h1 & m1 & cs1 & Hens & Hi1 & Hfr & Hfp & Hth & Hec & _ & _ & Hbc & _).
  destruct (inv_slot_lt _ _ _ _ v.1 Hi1) as [cj Hcj].
  pose proof (load_ok_bound _ Hl Hr) as Hb.
  assert (locate h1 v.1 ls = None) as Hloc1 by (by rewrite (frozen_locate _ _ _ _ Hfr)).
  destruct (inserted_inv h1 m1 ls cs1 v cj Hi1 Hloc1 Hcj) as (Hi' & Hx & Hd & Hfp').
  { by rewrite Hec. }
  eexists (alloc h1), _, _, _. split; [|split; [exact Hi'|]].
  - rewrite (insert_run _ _ _ _ _ _ _ _ Hens Hi1 Hcj). by rewrite Hloc1, Hth.
  - split.
    { eapply load_ok_grow; eauto; simpl.
      - unfold wrap. rewrite N.mod_small, Hec by (by rewrite Hec). lia.
      - destruct (load_reached _ _); auto. }
    split.
    { pose proof (frozen_alloc _ _ (alloc h1) Hfr) as Ha.
      rewrite (alloc_fresh h1) in Ha.
      destruct (h !! alloc h1); [|done]. destruct Ha as [_ Ha].
      by destruct Ha. }
    split; [by rewrite Hx|].
    split.
    { intros z Hz. rewrite Hd by done. by apply frozen_data. }
    split.
    { intros z Hz Hzx. rewrite Hfp' by done. by apply Hfp. }
    split; [done|]. split; [|done].
    simpl. unfold wrap. rewrite N.mod_small, Hec by (by rewrite Hec). done.
Qed.


(** ** The map as an association list

    What the operations mean on the list of pairs that iteration yields. *)

Lemma entries_cons h x n ls :
  h !! x = Some n → entries h (x :: ls) = data n :: entries h ls.
Proof. intros Hx. unfold entries. cbn [omap list_omap]. by rewrite Hx. Qed.

Lemma matches_node h key x n :
  h !! x = Some n → matches h key x = key_equal (data n).1 key.
Proof. intros Hx. unfold matches, key_at. by rewrite Hx. Qed.

Lemma locate_assoc h key ls :
  (∀ x, x ∈ ls → is_Some (h !! x)) →
  assoc key (entries h ls) = locate h key ls ≫= (λ x, data <$> h !! x).
Proof.
  induction ls as [|x ls IH]; intros Hal; [done|].
  destruct (Hal x) as [n Hn]; [left|].
  rewrite (entries_cons _ _ _ _ Hn). simpl.
  rewrite (matches_node _ _ _ _ Hn).
  destruct (key_equal (data n).1 key); simpl; [by rewrite Hn|].
  apply IH. intros y ?. apply Hal. by right.
Qed.

Lemma locate_None_assoc h key ls :
  (∀ x, x ∈ ls → is_Some (h !! x)) →
  locate h key ls = None ↔ assoc key (entries h ls) = None.
Proof.
  intros Hal. rewrite (locate_assoc _ _ _ Hal).
  destruct (locate h key ls) as [x|] eqn:Hloc; simpl; [|done].
  apply locate_Some in Hloc as [Hx _].
  destruct (Hal x Hx) as [n ->]. done.
Qed.

(** The nodes before the one that [locate] finds do not match. *)
Lemma locate_middle h key l1 x l2 :
  x ∉ l1 → locate h key (l1 ++ x :: l2) = Some x →
  ∀ z, z ∈ l1 → matches h key z = false.
Proof.
  induction l1 as [|a l1 IH]; intros Hx Hloc z Hz; [by apply elem_of_nil in Hz|].
  simpl in Hloc. rewrite not_elem_of_cons in Hx. destruct Hx as [Hxa Hx].
  destruct (matches h key a) eqn:Ha; [by injection Hloc as ->|].
  apply elem_of_cons in Hz as [->|Hz]; [done|]. by apply IH.
Qed.

Lemma remove_key_entries h key l1 x l2 :
  (∀ z, z ∈ l1 ++ x :: l2 → is_Some (h !! z)) →
  (∀ z, z ∈ l1 → matches h key z = false) → matches h key x = true →
  remove_key key (entries h (l1 ++ x :: l2)) = entries h l1 ++ entries h l2.
Proof.
  induction l1 as [|a l1 IH]; intros Hal Hno Hx; cbn [app].
  - destruct (Hal x) as [n Hn]; [left|].
    rewrite (entries_cons _ _ _ _ Hn). simpl.
    by rewrite <- (matches_node h key x n Hn), Hx.
  - destruct (Hal a) as [n Hn]; [left|].
    rewrite !(entries_cons _ _ _ _ Hn). simpl.
    rewrite <- (matches_node h key a n Hn), Hno by left.
    f_equal. apply IH; [|by intros z ?; apply Hno; right|done].
    intros z ?. apply Hal. by right.
Qed.

(** ** Computations that throw nothing *)

Lemma quiet_bind {A B} (c : M A) (k : A → M B) :
  quiet c → (∀ a, quiet (k a)) → quiet (bind c k).
Proof.
  intros Hc Hk s e s'. unfold bind.
  destruct (c s) as [a s1| e1 s1| |] eqn:E; try done.
  - apply Hk.
  - by destruct (Hc s e1 s1).
Qed.

Lemma quiet_ret {A} (a : A) : quiet (ret a).
Proof. done. Qed.
Lemma quiet_fault {A} : quiet (@fault state A).
Proof. done. Qed.
Lemma quiet_gets {A} (f : linked_hashmap → A) : quiet (gets f).
Proof. done. Qed.
Lemma quiet_modify f : quiet (modify f).
Proof. done. Qed.
Lemma quiet_load p : quiet (load p).
Proof. intros s e s'. unfold load. by repeat case_match. Qed.
Lemma quiet_store p f : quiet (store p f).
Proof. intros s e s'. unfold store. by repeat case_match. Qed.
Lemma quiet_delete_Node p : quiet (delete_Node p).
Proof. intros s e s'. unfold delete_Node. by repeat case_match. Qed.
Lemma quiet_bucket_put i p : quiet (bucket_put i p).
Proof.
  apply quiet_bind; [apply quiet_gets|]. intros b.
  case_decide; [apply quiet_modify | apply quiet_fault].
Qed.
Lemma quiet_hash_index key : quiet (hash_index key).
Proof.
  apply quiet_bind; [apply quiet_gets|]. intros bc.
  destruct (bc =? 0); [apply quiet_fault | apply quiet_ret].
Qed.


(** ** The operations on the association list *)

Lemma inv_contents h m ls cs l :
  inv h m ls cs → contents h m = Some l → l = entries h ls.
Proof. intros Hi. rewrite (contents_spec _ _ _ _ Hi). by intros [= <-]. Qed.

Lemma find_abs h m ls cs key :
  inv h m ls cs →
  ∃ it, find key (mkState h m) = Ok it (mkState h m) ∧
        current it = locate h key ls ∧ container it = Some (this m) ∧
        deref h it = assoc key (entries h ls).
Proof.
  intros Hi. eexists. split; [by eapply find_spec|]. simpl.
  split; [done|]. split; [done|].
  rewrite locate_assoc by (intros x; by eapply inv_alloc).
  unfold deref; simpl. by destruct (locate h key ls).
Qed.

Lemma insert_abs h m ls cs v :
  inv h m ls cs → load_ok m → in_range m →
  ∃ it h' m' ls' cs',
    insert v (mkState h m)
    = Ok (it, match assoc v.1 (entries h ls) with Some _ => false | None => true end)
         (mkState h' m') ∧
    inv h' m' ls' cs' ∧ load_ok m' ∧ this m' = this m ∧
    bucket_count m' = (if load_reached (element_count m) (bucket_count m)
                       then 2 * bucket_count m else bucket_count m) ∧
    entries h' ls' = match assoc v.1 (entries h ls) with
                     | Some _ => entries h ls
                     | None => entries h ls ++ [v]
                     end ∧
    element_count m' = match assoc v.1 (entries h ls) with
                       | Some _ => element_count m
                       | None => element_count m + 1
                       end ∧
    deref h' it = Some (match assoc v.1 (entries h ls) with
                        | Some kv => kv
                        | None => v
                        end) ∧
    current it = match locate h v.1 ls with
                 | Some y => Some y
                 | None => last ls'
                 end ∧
    container it = Some (this m) ∧
    (∀ z, z ∉ ls → is_Some (h !! z) → h' !! z = h !! z) ∧
    (∀ z, z ∈ ls' → z ∈ ls ∨ h !! z = None).
Proof.
  intros Hi Hl Hr.
  assert (∀ x, x ∈ ls → is_Some (h !! x)) as Hal by (intros x; by eapply inv_alloc).
  pose proof (locate_assoc h v.1 ls Hal) as Hla.
  destruct (locate h v.1 ls) as [y|] eqn:Hloc.
  - destruct (insert_found h m ls cs v y Hi Hl Hr Hloc)
      as (h' & m' & cs' & Hrun & _ & Hi' & Hl' & Hfr & Hfp & Hth & Hec & Hbc).
    apply locate_Some in Hloc as [Hy _]. destruct (Hal y Hy) as [n Hn].
    simpl in Hla. rewrite Hn in Hla. simpl in Hla. rewrite Hla.
    exists (mkIt (Some y) (Some (this m))), h', m', ls, cs'.
    repeat (split; [done|]).
    split; [by apply frozen_entries|]. split; [done|].
    split. { unfold deref; simpl. by rewrite (frozen_data _ _ _ Hfr), Hn. }
    repeat (split; [done|]). split; auto.
  - simpl in Hla. rewrite Hla.
    destruct (insert_new h m ls cs v Hi Hl Hr Hloc)
      as (x & h' & m' & cs' & Hrun & Hi' & Hl' & Hx & Hdx & Hd & Hfp & Hth & Hec & Hbc).
    exists (mkIt (Some x) (Some (this m))), h', m', (ls ++ [x]), cs'.
    repeat (split; [done|]).
    split.
    { rewrite entries_app. f_equal.
      - apply entries_ext. intros z Hz. apply Hd. intros ->.
        destruct (Hal x Hz) as [? Hc]. congruence.
      - unfold entries. cbn [omap list_omap]. by rewrite Hdx. }
    repeat (split; [done|]).
    split; [by rewrite last_snoc|]. split; [done|]. split.
    + intros z Hz [nz Hnz]. apply Hfp; [done|]. intros ->. congruence.
    + intros z [?| ->%list_elem_of_singleton]%elem_of_app; auto.
Qed.

Lemma erase_abs h m ls cs key x :
  inv h m ls cs → load_ok m → in_range m → locate h key ls = Some x →
  ∃ h' m' ls' cs',
    erase (mkIt (Some x) (Some (this m))) (mkState h m) = Ok tt (mkState h' m') ∧
    inv h' m' ls' cs' ∧ load_ok m' ∧ this m' = this m ∧
    bucket_count m' = bucket_count m ∧
    element_count m' + 1 = element_count m ∧
    entries h' ls' = remove_key key (entries h ls) ∧
    (length (entries h' ls') + 1 = length (entries h ls))%nat ∧
    locate h' key ls' = None ∧
    (∀ z, z ∉ ls → h' !! z = h !! z) ∧ (∀ z, z ∈ ls' → z ∈ ls).
Proof.
  clear alloc alloc_fresh.
  intros Hi Hl Hr Hloc.
  assert (∀ z, z ∈ ls → is_Some (h !! z)) as Hal by (intros z; by eapply inv_alloc).
  pose proof (locate_Some _ _ _ _ Hloc) as [Hx Hmx].
  destruct (list_elem_of_split_l _ _ Hx) as (l1 & l2 & -> & Hxl1).
  destruct (erase_spec h m l1 x l2 cs Hi) as (n & cs' & Hn & Hrun & Hi' & Hd & Hfp).
  { pose proof (load_ok_bound _ Hl Hr). lia. }
  destruct (NoDup_middle _ _ _ (inv_nodup _ _ _ _ Hi)) as [Hnd Hxl].
  assert (∀ z, z ∈ l1 ++ l2 → z ≠ x ∧ z ∈ l1 ++ x :: l2) as Hsub.
  { intros z Hz. split; [by intros ->|].
    rewrite elem_of_app, elem_of_cons. rewrite elem_of_app in Hz. tauto. }
  assert (entries (delete x (pointwise (unlink n) h)) (l1 ++ l2)
          = remove_key key (entries h (l1 ++ x :: l2))) as Hent.
  { rewrite (remove_key_entries h key l1 x l2 Hal); [|by eapply locate_middle|done].
    rewrite <- entries_app. apply entries_ext. intros z Hz. apply Hd.
    by apply Hsub. }
  pose proof (inv_count _ _ _ _ Hi) as Hc.
  pose proof (inv_count _ _ _ _ Hi') as Hc'.
  rewrite length_app in Hc, Hc'. simpl in Hc.
  exists (delete x (pointwise (unlink n) h)), (erased_map m n), (l1 ++ l2), cs'.
  split; [done|]. split; [done|]. split.
  { destruct Hl as [Hk Hl]. split; [done|]. simpl bucket_count. lia. }
  split; [done|]. split; [done|]. split; [lia|]. split; [done|]. split.
  { rewrite !entries_length.
    - rewrite !length_app. simpl. lia.
    - done.
    - intros z Hz. by eapply inv_alloc. }
  split; [|split; [done|]].
  - apply locate_None. intros z Hz. destruct (Hsub z Hz) as [Hzx Hz'].
    unfold matches. rewrite erased_key by done.
    destruct (key_at h z) as [kz|] eqn:Hkz; [|done].
    destruct (key_equal kz key) eqn:He; [|done]. exfalso. apply Hzx.
    apply matches_true in Hmx as (kx & Hkx & Hex).
    eapply (inv_uniq _ _ _ _ Hi); eauto.
  - intros z Hz. by apply Hsub.
Qed.


Lemma assoc_locate h m ls cs key kv :
  inv h m ls cs → assoc key (entries h ls) = Some kv →
  ∃ y, locate h key ls = Some y ∧ y ∈ ls ∧ data <$> h !! y = Some kv.
Proof.
  intros Hi Ha.
  rewrite locate_assoc in Ha by (intros x; by eapply inv_alloc).
  destruct (locate h key ls) as [y|] eqn:Hloc; [|done].
  exists y. split; [done|]. split; [|done]. by apply locate_Some in Hloc as [? _].
Qed.

Lemma iterator_eq (a b : iterator) :
  current a = current b → container a = container b → a = b.
Proof. destruct a, b; simpl. by intros -> ->. Qed.

(** ** Well-formed states are closed under the operations *)

Lemma inv_empty_map h addr :
  inv h (empty_map addr) [] (replicate (N.to_nat INITIAL_CAPACITY) []).
Proof.
  split; cbn [empty_map head tail element_count bucket_count buckets]; try done.
  - constructor.
  - intros i c [-> Hi]%lookup_replicate.
    split; try done; try (by intros x ?%elem_of_nil).
    + by apply lookup_replicate_2.
    + constructor.
  - by intros x ?%elem_of_nil.
  - by intros x y kx ky ?%elem_of_nil.
Qed.

Lemma wf_empty_map h addr : wf h (empty_map addr).
Proof.
  split; [eexists _, _; apply inv_empty_map|]. split.
  - split; [by exists 0|]. simpl. lia.
  - unfold in_range. simpl. by vm_compute.
Qed.

Lemma insert_wf h m v r h' m' :
  wf h m → insert v (mkState h m) = Ok r (mkState h' m') → in_range m' →
  wf h' m'.
Proof.
  intros ((ls & cs & Hi) & Hl & Hr) Hrun Hr'.
  destruct (insert_abs h m ls cs v Hi Hl Hr)
    as (it & h1 & m1 & ls' & cs' & Hrun' & Hi' & Hl' & _).
  rewrite Hrun in Hrun'. injection Hrun' as -> -> ->.
  split; [by exists ls', cs'|done].
Qed.

Lemma erase_wf h m key it h' m' :
  wf h m → find key (mkState h m) = Ok it (mkState h m) → current it ≠ None →
  erase it (mkState h m) = Ok tt (mkState h' m') →
  wf h' m'.
Proof.
  intros ((ls & cs & Hi) & Hl & Hr) Hf Hcur Hrun.
  rewrite (find_spec _ _ _ _ key Hi) in Hf. injection Hf as <-. simpl in *.
  destruct (locate h key ls) as [x|] eqn:Hloc; [|done].
  destruct (erase_abs h m ls cs key x Hi Hl Hr Hloc)
    as (h1 & m1 & ls1 & cs1 & Hrun1 & Hi1 & Hl1 & _ & Hbc & _).
  rewrite Hrun in Hrun1. injection Hrun1 as -> ->.
  split; [by exists ls1, cs1|]. split; [done|]. unfold in_range. by rewrite Hbc.
Qed.

Lemma load_ok_capacity m : load_ok m → 16 ≤ bucket_count m.
Proof.
  intros [[k ->] _].
  assert (0 < 2 ^ k) by (apply N.neq_0_lt_0, N.pow_nonzero; lia). lia.
Qed.

(** An insertion below the load threshold keeps the capacity. *)
Lemma insert_step h m ls cs v :
  inv h m ls cs → load_ok m → in_range m →
  4 * element_count m < 3 * bucket_count m →
  ∃ it h' m' ls' cs',
    insert v (mkState h m)
    = Ok (it, match assoc v.1 (entries h ls) with Some _ => false | None => true end)
         (mkState h' m') ∧
    inv h' m' ls' cs' ∧ load_ok m' ∧ in_range m' ∧
    bucket_count m' = bucket_count m ∧
    entries h' ls' = match assoc v.1 (entries h ls) with
                     | Some _ => entries h ls
                     | None => entries h ls ++ [v]
                     end ∧
    element_count m' = match assoc v.1 (entries h ls) with
                       | Some _ => element_count m
                       | None => element_count m + 1
                       end.
Proof.
  intros Hi Hl Hr Hlt.
  destruct (insert_abs h m ls cs v Hi Hl Hr)
    as (it & h' & m' & ls' & cs' & Hrun & Hi' & Hl' & _ & Hbc & Hent & Hec & _).
  assert (load_reached (element_count m) (bucket_count m) = false) as Hno.
  { unfold load_reached. apply N.leb_gt. lia. }
  rewrite Hno in Hbc.
  exists it, h', m', ls', cs'. repeat (split; [done|]).
  split; [by unfold in_range; rewrite Hbc|done].
Qed.

(** ** Two maps in one heap *)

(** The invariant reads the heap at the nodes of the map only. *)
Lemma inv_ext h h' m ls cs :
  (∀ x, x ∈ ls → h' !! x = h !! x) → inv h m ls cs → inv h' m ls cs.
Proof.
  intros Hh Hi. split; try apply Hi.
  - eapply path_ext; [|apply Hi]. intros x Hx. by rewrite Hh.
  - eapply path_ext; [|apply Hi]. intros x Hx. rewrite elem_of_reverse in Hx.
    by rewrite Hh.
  - intros i c Hc. pose proof (inv_chain _ _ _ _ Hi i c Hc) as Hok.
    eapply chain_ok_ext; [|done|exact Hok].
    intros z Hz. by apply Hh, (chain_in _ _ _ _ _ _ Hok).
  - intros x y kx ky Hx Hy. unfold key_at. rewrite !Hh by done.
    by apply (inv_uniq _ _ _ _ Hi).
Qed.

(** A new object with [cap] empty buckets. *)
Lemma inv_fresh_map h addr cap :
  0 < cap →
  inv h (mkMap addr (replicate (N.to_nat cap) None) cap 0 None None) []
      (replicate (N.to_nat cap) []).
Proof.
  intros Hcap. split; simpl; try done.
  - constructor.
  - by rewrite length_replicate.
  - by rewrite length_replicate.
  - intros i c [-> Hi]%lookup_replicate.
    split; try done; try (by intros x ?%elem_of_nil).
    + by apply lookup_replicate_2.
    + constructor.
  - by intros x ?%elem_of_nil.
  - by intros x y kx ky ?%elem_of_nil.
Qed.

Lemma entries_allocated_length h h' ls ls' :
  (∀ x, x ∈ ls → is_Some (h !! x)) → (∀ x, x ∈ ls' → is_Some (h' !! x)) →
  entries h ls = entries h' ls' → length ls = length ls'.
Proof.
  intros Ha Ha' He. by rewrite <- (entries_length h ls), <- (entries_length h' ls'), He.
Qed.

(** The loop of the copy constructor, with [p] copied and [q] to go. *)
Lemma copy_loop_spec h X lsX csX :
  inv h X lsX csX → load_ok X → in_range X →
  ∀ q p f hk Yk lsY csY,
    lsX = p ++ q →
    inv hk Yk lsY csY → load_ok Yk → bucket_count Yk = bucket_count X →
    entries hk lsY = entries h p →
    (∀ y, y ∈ lsY → ∃ x, x ∈ p ∧ key_at hk y = key_at h x) →
    (∀ y, y ∈ lsY → h !! y = None) →
    (∀ z, is_Some (h !! z) → hk !! z = h !! z) →
    (length q < f)%nat →
    ∃ h' Y' lsY' csY',
      copy_loop f (mkIt (hd_or None q) (Some (this X))) (mkState hk Yk)
      = Ok tt (mkState h' Y') ∧
      inv h' Y' lsY' csY' ∧ load_ok Y' ∧
      bucket_count Y' = bucket_count X ∧ this Y' = this Yk ∧
      entries h' lsY' = entries h lsX ∧
      (∀ y, y ∈ lsY' → h !! y = None) ∧
      (∀ z, is_Some (h !! z) → h' !! z = h !! z).
Proof.
  intros HiX HlX HrX.
  assert (∀ x, x ∈ lsX → is_Some (h !! x)) as HalX by (intros x; by eapply inv_alloc).
  induction q as [|x q IH];
    intros p f hk Yk lsY csY Hsplit HiY HlY Hbc Hent Hkeys Hfresh Hsame Hf.
  - rewrite app_nil_r in Hsplit. subst p.
    exists hk, Yk, lsY, csY. split; [by destruct f|]. done.
  - destruct f as [|f]; [simpl in Hf; lia|].
    assert (x ∈ lsX) as Hx by (subst lsX; rewrite elem_of_app, elem_of_cons; tauto).
    destruct (HalX x Hx) as [n Hn].
    assert (list_next n = hd_or None q) as Hnext.
    { pose proof (inv_fwd _ _ _ _ HiX) as Hp. rewrite Hsplit in Hp.
      apply path_middle in Hp. rewrite Hn in Hp. by injection Hp. }
    assert (∀ y, y ∈ lsY → is_Some (hk !! y)) as HalY
      by (intros y; by eapply inv_alloc).
    assert (length lsY = length p) as Hlen.
    { eapply entries_allocated_length; [exact HalY| |exact Hent].
      intros z Hz. apply HalX. subst lsX. rewrite elem_of_app. tauto. }
    (* the key of [x] is not in the copy yet *)
    assert (locate hk (data n).1 lsY = None) as Hloc.
    { apply locate_None. intros y Hy.
      destruct (Hkeys y Hy) as (x0 & Hx0 & Hk).
      unfold matches. rewrite Hk.
      destruct (key_at h x0) as [k0|] eqn:Hk0; [|done].
      destruct (key_equal k0 (data n).1) eqn:He; [|done]. exfalso.
      assert (x0 = x) as ->.
      { eapply (inv_uniq _ _ _ _ HiX); eauto.
        - subst lsX. rewrite elem_of_app. tauto.
        - unfold key_at. by rewrite Hn. }
      pose proof (inv_nodup _ _ _ _ HiX) as Hnd. rewrite Hsplit in Hnd.
      apply NoDup_app in Hnd as (_ & Hd & _). apply (Hd x Hx0). left. }
    assert (in_range Yk) as HrY by (unfold in_range; by rewrite Hbc).
    destruct (insert_new hk Yk lsY csY (data n) HiY HlY HrY Hloc)
      as (x' & h1 & Y1 & cs1 & Hrun & Hi1 & Hl1 & Hx' & Hdx' & Hd & Hfp & Hth
          & Hec & Hbc1).
    assert (load_reached (element_count Yk) (bucket_count Yk) = false) as Hno.
    { unfold load_reached. apply N.leb_gt.
      rewrite (inv_count _ _ _ _ HiY), Hlen, Hbc.
      destruct HlX as [_ HlX]. rewrite (inv_count _ _ _ _ HiX), Hsplit in HlX.
      rewrite length_app in HlX. simpl in HlX. lia. }
    rewrite Hno in Hbc1.
    assert (h !! x' = None) as Hx'h.
    { destruct (h !! x') as [nx|] eqn:E; [|done].
      rewrite <- (Hsame x') in E by (by rewrite E). congruence. }
    assert (∀ z, is_Some (h !! z) → h1 !! z = h !! z) as Hsame1.
    { intros z Hz. rewrite <- (Hsame z Hz). apply Hfp.
      - intros Hzy. apply Hfresh in Hzy. rewrite Hzy in Hz. by destruct Hz.
      - intros ->. rewrite Hx'h in Hz. by destruct Hz. }
    destruct (IH (p ++ [x]) f h1 Y1 (lsY ++ [x']) cs1)
      as (h' & Y' & lsY' & csY' & Hrun' & Hi' & Hl' & Hbc' & Hth' & Hent' & Hfr' & Hs');
      try done.
    + by rewrite <- app_assoc.
    + congruence.
    + rewrite !entries_app. f_equal.
      * rewrite <- Hent. apply entries_ext. intros y Hy. apply Hd.
        intros ->. destruct (HalY x' Hy) as [? Hc]. congruence.
      * unfold entries. cbn [omap list_omap]. by rewrite Hdx', Hn.
    + intros y [Hy| ->%list_elem_of_singleton]%elem_of_app.
      * destruct (Hkeys y Hy) as (x0 & Hx0 & Hk). exists x0.
        split; [rewrite elem_of_app; tauto|]. rewrite <- Hk.
        unfold key_at.
        assert (y ≠ x') as Hne.
        { intros ->. destruct (HalY x' Hy) as [? Hc]. congruence. }
        pose proof (Hd y Hne) as Hdy.
        destruct (h1 !! y), (hk !! y); simpl in *; congruence.
      * exists x. split; [rewrite elem_of_app, list_elem_of_singleton; tauto|].
        unfold key_at. rewrite Hn. simpl.
        destruct (h1 !! x'); simpl in *; congruence.
    + intros y [Hy| ->%list_elem_of_singleton]%elem_of_app; auto.
    + simpl in Hf. lia.
    + exists h', Y', lsY', csY'. split; [|by rewrite Hth', Hth].
      cbn [copy_loop]. unfold it_neq, it_eq. simpl.
      erewrite bind_Ok by reflexivity. cbn [mem]. unfold deref. simpl.
      rewrite (Hsame x) by eauto. rewrite Hn. simpl.
      erewrite bind_Ok by exact Hrun.
      erewrite bind_Ok by reflexivity. cbn [mem].
      unfold const_iterator_preinc, step_to. simpl.
      rewrite (Hsame1 x) by eauto. rewrite Hn, Hnext. exact Hrun'.
Qed.

(** The copy constructor: the new object holds the pairs of the old one in
    the same order, in nodes that were not allocated before, and no
    allocated node has changed. *)
Lemma copy_construct_spec h X lsX csX addr :
  inv h X lsX csX → load_ok X → in_range X →
  ∃ h' Y lsY csY,
    copy_construct addr X h = Ok tt (mkState h' Y) ∧
    inv h' Y lsY csY ∧ load_ok Y ∧ in_range Y ∧ this Y = addr ∧
    entries h' lsY = entries h lsX ∧
    (∀ y, y ∈ lsY → h !! y = None) ∧
    (∀ z, is_Some (h !! z) → h' !! z = h !! z).
Proof.
  intros HiX HlX HrX. unfold copy_construct.
  erewrite bind_Ok by apply fuel_Ok.
  rewrite (inv_head _ _ _ _ HiX).
  destruct (copy_loop_spec h X lsX csX HiX HlX HrX lsX [] (S (base.size h)) h
              (mkMap addr (replicate (N.to_nat (bucket_count X)) None)
                     (bucket_count X) 0 None None)
              [] (replicate (N.to_nat (bucket_count X)) []))
    as (h' & Y & lsY & csY & Hrun & Hi & Hl & Hbc & Hth & Hent & Hfr & Hs);
    try done.
  - apply inv_fresh_map, (inv_cap _ _ _ _ HiX).
  - destruct HlX as [Hk _]. split; [done|]. simpl. lia.
  - by intros y ?%elem_of_nil.
  - by intros y ?%elem_of_nil.
  - apply Nat.lt_succ_r, length_le_size; [apply HiX|].
    intros x. by eapply inv_alloc.
  - exists h', Y, lsY, csY. split; [done|]. repeat (split; [done|]).
    split; [by unfold in_range; rewrite Hbc|]. done.
Qed.

(** The invariant does not read [this]. *)
Lemma inv_this h m m' ls cs :
  buckets m' = buckets m → bucket_count m' = bucket_count m →
  element_count m' = element_count m → head m' = head m → tail m' = tail m →
  inv h m ls cs → inv h m' ls cs.
Proof.
  intros Hb Hbc Hec Hh Ht Hi. split; rewrite ?Hb, ?Hbc, ?Hec, ?Hh, ?Ht; apply Hi.
Qed.

(** ** Clearing and assignment *)

Lemma clear_walk_spec m ls :
  ∀ h f,
    NoDup ls → path list_next h ls None → (length ls < f)%nat →
    ∃ h', clear_walk f (hd_or None ls) (mkState h m) = Ok tt (mkState h' m) ∧
          ∀ z, h' !! z = if decide (z ∈ ls) then None else h !! z.
Proof.
  induction ls as [|x ls IH]; intros h f Hnd Hp Hf.
  - exists h. split; [by destruct f|]. intros z.
    rewrite decide_False; [done|]. apply not_elem_of_nil.
  - destruct f as [|f]; [simpl in Hf; lia|].
    destruct Hp as [Hx Hp].
    destruct (h !! x) as [n|] eqn:Hn; [|done].
    simpl in Hx. injection Hx as Hx.
    apply NoDup_cons in Hnd as [Hxl Hnd].
    destruct (IH (delete x h) f Hnd) as (h' & Hrun & Hh').
    { eapply path_ext; [|exact Hp]. intros z Hz.
      rewrite lookup_delete_ne; [done|]. by intros ->. }
    { simpl in Hf. lia. }
    exists h'. split.
    + simpl. erewrite bind_Ok by (by apply load_Ok).
      erewrite bind_Ok by (apply delete_Node_Ok; by rewrite Hn).
      by rewrite Hx.
    + intros z. rewrite Hh'.
      destruct (decide (z ∈ ls)) as [Hz|Hz].
      * rewrite decide_True; [done|]. by right.
      * destruct (decide (z = x)) as [->|Hne].
        -- rewrite decide_True by left. apply lookup_delete_eq.
        -- rewrite decide_False by (rewrite elem_of_cons; tauto).
           by rewrite lookup_delete_ne.
Qed.

Lemma clear_buckets_spec h k :
  ∀ i m, (N.to_nat i + k ≤ length (buckets m))%nat →
         ∃ m', clear_buckets k i (mkState h m) = Ok tt (mkState h m').
Proof.
  induction k as [|k IH]; intros i m Hlen; [by exists m|].
  simpl. erewrite bind_Ok by (apply bucket_put_Ok; lia).
  apply IH. simpl. rewrite length_insert. lia.
Qed.

(** [clear] frees the nodes of the map and nothing else. *)
Lemma clear_spec h m ls cs :
  inv h m ls cs →
  ∃ h' m', clear (mkState h m) = Ok tt (mkState h' m') ∧
           ∀ z, h' !! z = if decide (z ∈ ls) then None else h !! z.
Proof.
  intros Hi. unfold clear.
  erewrite bind_Ok by reflexivity. erewrite bind_Ok by apply fuel_Ok.
  cbn [obj]. rewrite (inv_head _ _ _ _ Hi).
  destruct (clear_walk_spec m ls h (S (base.size h))) as (h' & Hrun & Hh').
  { apply Hi. }
  { apply Hi. }
  { apply Nat.lt_succ_r, length_le_size; [apply Hi|].
    intros x. by eapply inv_alloc. }
  erewrite bind_Ok by exact Hrun.
  do 4 (erewrite bind_Ok by reflexivity). cbn [obj bucket_count].
  edestruct (clear_buckets_spec h' (N.to_nat (bucket_count m)) 0) as [m' Hcb];
    [|exists h', m'; split; [exact Hcb|exact Hh']].
  simpl. rewrite (inv_blen _ _ _ _ Hi). lia.
Qed.

Lemma separate_sym h X Y : separate h X Y → separate h Y X.
Proof.
  intros (lsX & csX & lsY & csY & HX & HY & Hd).
  exists lsY, csY, lsX, csX. repeat (split; [done|]).
  intros z Hz Hz'. by apply (Hd z).
Qed.

Lemma separate_unaffected h X Y :
  separate h X Y → load_ok Y → in_range Y → unaffected_by h X Y.
Proof.
  intros (lsX & csX & lsY & csY & HX & HY & Hd) Hl Hr.
  assert (∀ z, z ∈ lsX → is_Some (h !! z)) as HalX by (intros z; by eapply inv_alloc).
  split.
  - intros v.
    destruct (insert_abs h Y lsY csY v HY Hl Hr)
      as (it & h1 & Y1 & ls1 & cs1 & Hrun1 & Hi1 & _ & _ & _ & _ & _ & _ & _ & _
          & Hfp & Hnew).
    eexists _, h1, Y1. split; [exact Hrun1|].
    assert (∀ z, z ∈ lsX → h1 !! z = h !! z) as Hsame.
    { intros z Hz. apply Hfp; [by apply Hd | by apply HalX]. }
    pose proof (inv_ext _ _ _ _ _ Hsame HX) as HX'.
    split.
    + exists lsX, csX, ls1, cs1. repeat (split; [done|]).
      intros z Hz Hz1. destruct (Hnew z Hz1) as [Hzy|Hzn].
      * by apply (Hd z).
      * destruct (HalX z Hz) as [? Hc]. congruence.
    + rewrite (contents_spec _ _ _ _ HX'), (contents_spec _ _ _ _ HX).
      f_equal. apply entries_ext. intros z Hz. by rewrite Hsame.
  - intros key it Hf Hcur.
    rewrite (find_spec _ _ _ _ key HY) in Hf. injection Hf as <-. simpl in *.
    destruct (locate h key lsY) as [x|] eqn:Hloc; [|done].
    destruct (erase_abs h Y lsY csY key x HY Hl Hr Hloc)
      as (h1 & Y1 & ls1 & cs1 & Hrun1 & Hi1 & _ & _ & _ & _ & _ & _ & _ & Hfp & Hsub).
    exists h1, Y1. split; [exact Hrun1|].
    assert (∀ z, z ∈ lsX → h1 !! z = h !! z) as Hsame.
    { intros z Hz. apply Hfp. by apply Hd. }
    pose proof (inv_ext _ _ _ _ _ Hsame HX) as HX'.
    split.
    + exists lsX, csX, ls1, cs1. repeat (split; [done|]).
      intros z Hz Hz1. by apply (Hd z), Hsub.
    + rewrite (contents_spec _ _ _ _ HX'), (contents_spec _ _ _ _ HX).
      f_equal. apply entries_ext. intros z Hz. by rewrite Hsame.
Qed.

(** Copy construction leaves the source well-formed and apart from the copy. *)
Lemma copy_construct_separate h X lsX csX addr :
  inv h X lsX csX → load_ok X → in_range X →
  ∃ h' Y lsY csY,
    copy_construct addr X h = Ok tt (mkState h' Y) ∧
    inv h' Y lsY csY ∧ inv h' X lsX csX ∧ load_ok Y ∧ in_range Y ∧
    this Y = addr ∧
    entries h' lsY = entries h lsX ∧ entries h' lsX = entries h lsX ∧
    (∀ z, z ∈ lsX → z ∉ lsY) ∧
    (∀ y, y ∈ lsY → h !! y = None) ∧
    (∀ z, is_Some (h !! z) → h' !! z = h !! z).
Proof.
  intros HiX HlX HrX.
  assert (∀ z, z ∈ lsX → is_Some (h !! z)) as HalX by (intros z; by eapply inv_alloc).
  destruct (copy_construct_spec h X lsX csX addr HiX HlX HrX)
    as (h' & Y & lsY & csY & Hrun & Hi & Hl & Hr & Hth & Hent & Hfr & Hs).
  exists h', Y, lsY, csY. split; [done|]. split; [done|]. split.
  { eapply inv_ext; [|exact HiX]. intros z Hz. by apply Hs, HalX. }
  repeat (split; [done|]). split.
  { apply entries_ext. intros z Hz. by rewrite Hs by (by apply HalX). }
  split; [|done].
  intros z Hz Hz'. destruct (HalX z Hz) as [? Hc]. rewrite (Hfr z Hz') in Hc. done.
Qed.

(** Assignment between two distinct objects. *)
Lemma assign_spec h Z X lsZ csZ lsX csX tmp :
  inv h Z lsZ csZ → inv h X lsX csX → load_ok X → in_range X →
  (∀ z, z ∈ lsX → z ∉ lsZ) → this Z ≠ this X →
  ∃ h' Z' lsY csY,
    assign tmp X (mkState h Z) = Ok tt (mkState h' Z') ∧
    inv h' Z' lsY csY ∧ inv h' X lsX csX ∧ load_ok Z' ∧ in_range Z' ∧
    this Z' = this Z ∧
    entries h' lsY = entries h lsX ∧ entries h' lsX = entries h lsX ∧
    (∀ z, z ∈ lsX → z ∉ lsY).
Proof.
  intros HiZ HiX HlX HrX Hd Hne.
  assert (∀ z, z ∈ lsX → is_Some (h !! z)) as HalX by (intros z; by eapply inv_alloc).
  assert (∀ z, z ∈ lsZ → is_Some (h !! z)) as HalZ by (intros z; by eapply inv_alloc).
  destruct (copy_construct_separate h X lsX csX tmp HiX HlX HrX)
    as (h1 & Y & lsY & csY & Hrun & HiY & HiX1 & HlY & HrY & Hth & Hent & HentX
        & Hd1 & Hfr & Hs).
  set (temp' := mkMap (this Y) (buckets Z) (bucket_count Z) (element_count Z)
                      (head Z) (tail Z)).
  set (Z' := mkMap (this Z) (buckets Y) (bucket_count Y) (element_count Y)
                   (head Y) (tail Y)).
  assert (inv h1 temp' lsZ csZ) as Hit.
  { apply (inv_this h1 Z); try done.
    eapply inv_ext; [|exact HiZ]. intros z Hz. by apply Hs, HalZ. }
  destruct (clear_spec h1 temp' lsZ csZ Hit) as (h2 & m2 & Hclear & Hh2).
  assert (∀ z, z ∉ lsZ → h2 !! z = h1 !! z) as Hkeep.
  { intros z Hz. by rewrite Hh2, decide_False. }
  assert (∀ y, y ∈ lsY → y ∉ lsZ) as HdY.
  { intros y Hy Hz. destruct (HalZ y Hz) as [? Hc]. rewrite (Hfr y Hy) in Hc. done. }
  exists h2, Z', lsY, csY. split.
  { unfold assign. simpl. rewrite decide_False by done. rewrite Hrun. simpl.
    fold temp' Z'. unfold destroy. by rewrite Hclear. }
  split.
  { apply (inv_this h2 Y); try done.
    eapply inv_ext; [|exact HiY]. intros y Hy. by apply Hkeep, HdY. }
  split.
  { eapply inv_ext; [|exact HiX1]. intros z Hz. by apply Hkeep, Hd. }
  repeat (split; [done|]). split.
  { rewrite <- Hent. apply entries_ext. intros y Hy. by rewrite Hkeep by (by apply HdY). }
  split; [|done].
  rewrite <- HentX. apply entries_ext. intros z Hz. by rewrite Hkeep by (by apply Hd).
Qed.

(** * Properties of the member functions *)

(** C1: inserting a key that is already present returns an iterator to the
    existing entry together with [false]; the entry keeps its value, the
    iteration order is the same list of pairs and the size is unchanged. *)
Theorem insert_existing_key h m l key v kv :
  wf h m → contents h m = Some l → assoc key l = Some kv →
  ∃ it h' m',
    insert (key, v) (mkState h m) = Ok (it, false) (mkState h' m') ∧
    find key (mkState h m) = Ok it (mkState h m) ∧
    deref h it = Some kv ∧ deref h' it = Some kv ∧
    contents h' m' = Some l ∧
    element_count m' = element_count m.
Proof.
  intros ((ls & cs & Hi) & Hl & Hr) Hc Ha.
  rewrite (inv_contents _ _ _ _ _ Hi Hc) in *.
  destruct (insert_abs h m ls cs (key, v) Hi Hl Hr)
    as (it & h' & m' & ls' & cs' & Hrun & Hi' & _ & _ & _ & Hent & Hec & Hd & Hcur
        & Hcont & _).
  simpl in *. rewrite Ha in *.
  destruct (assoc_locate _ _ _ _ _ _ Hi Ha) as (y & Hloc & _ & Hy).
  destruct (find_abs _ _ _ _ key Hi) as (it0 & Hf & Hcur0 & Hcont0 & Hd0).
  assert (it0 = it) as ->.
  { apply iterator_eq; [|congruence]. by rewrite Hcur, Hcur0, Hloc. }
  exists it, h', m'. repeat (split; [done|]).
  split; [congruence|]. split; [done|]. split; [|done].
  by rewrite (contents_spec _ _ _ _ Hi'), Hent.
Qed.


(** C4: a rehash keeps every key findable at the same entry and leaves the
    order links, the pairs, head, tail, size and iteration order unchanged. *)
Theorem rehash_keeps_order h m new_capacity :
  shape h m → 0 < new_capacity →
  ∃ h' m',
    rehash new_capacity (mkState h m) = Ok tt (mkState h' m') ∧
    shape h' m' ∧ bucket_count m' = new_capacity ∧
    (∀ key it, find key (mkState h m) = Ok it (mkState h m) →
               find key (mkState h' m') = Ok it (mkState h' m')) ∧
    (∀ x, list_next <$> h' !! x = list_next <$> h !! x ∧
          list_prev <$> h' !! x = list_prev <$> h !! x ∧
          data <$> h' !! x = data <$> h !! x) ∧
    head m' = head m ∧ tail m' = tail m ∧
    element_count m' = element_count m ∧
    contents h' m' = contents h m.
Proof.
  intros (ls & cs & Hi) Hcap.
  destruct (rehash_spec h m ls cs new_capacity Hi Hcap)
    as (h' & nb & cs' & Hrun & Hi' & Hfr & _).
  eexists h', _. split; [exact Hrun|]. split; [by exists ls, cs'|].
  split; [done|]. split.
  { intros key it. rewrite (find_spec _ _ _ _ key Hi), (find_spec _ _ _ _ key Hi').
    intros [= <-]. simpl. by rewrite (frozen_locate _ _ _ _ Hfr). }
  split.
  { intros x. by rewrite (frozen_list_next _ _ _ Hfr), (frozen_list_prev _ _ _ Hfr),
      (frozen_data _ _ _ Hfr). }
  repeat (split; [done|]).
  rewrite (contents_spec _ _ _ _ Hi'), (contents_spec _ _ _ _ Hi).
  by rewrite (frozen_entries _ _ _ Hfr).
Qed.


(** What [erase] throws, it throws from its guard. *)
Lemma erase_throws it s e s' :
  erase it s = Throw e s' →
  e = invalid_iterator ∧ s' = s ∧
  (current it = None ∨ container it ≠ Some (this (obj s))).
Proof.
  unfold erase. unfold bind at 1 2. simpl.
  destruct (it_eq it _ || _) eqn:Hg.
  - intros [= <- <-]. split; [done|]. split; [done|].
    apply orb_true_iff in Hg as [Hg|Hg].
    + left. unfold it_eq in Hg. simpl in Hg. by apply bool_decide_eq_true in Hg.
    + right. apply negb_true_iff, bool_decide_eq_false in Hg. done.
  - intros Hthrow. exfalso. revert Hthrow.
    match goal with
    | |- ?c ?s = Throw _ _ → False => assert (quiet c) as Hq; [|exact (Hq _ _ _)]
    end.
    repeat first
      [ apply quiet_bind; [|intros ?]
      | apply quiet_load | apply quiet_store | apply quiet_hash_index
      | apply quiet_bucket_put | apply quiet_delete_Node | apply quiet_gets
      | apply quiet_modify | apply quiet_ret
      | apply quiet_fault
      | match goal with |- quiet (match ?p with _ => _ end) => destruct p end ].
Qed.

Lemma erase_guard it h m :
  current it = None ∨ container it ≠ Some (this m) →
  erase it (mkState h m) = Throw invalid_iterator (mkState h m).
Proof.
  intros Hg. unfold erase. unfold bind at 1 2. simpl.
  destruct (it_eq it _ || _) eqn:Hb; [done|].
  apply orb_false_iff in Hb as [Hb1 Hb2]. exfalso.
  unfold it_eq in Hb1. simpl in Hb1. apply bool_decide_eq_false in Hb1.
  apply negb_false_iff, bool_decide_eq_true in Hb2. tauto.
Qed.

(** X20: [erase] throws [invalid_iterator], and then changes nothing, exactly
    when the iterator is past-the-end or records another container than this
    map; for the iterator that [find] returns for an entry of the map it
    removes the entry from the iteration order and from the index, and the
    size drops by one. *)
Theorem erase_checked h m l it :
  wf h m → contents h m = Some l →
  ((current it = None ∨ container it ≠ Some (this m)) →
   erase it (mkState h m) = Throw invalid_iterator (mkState h m)) ∧
  (∀ e s', erase it (mkState h m) = Throw e s' →
           e = invalid_iterator ∧
           (current it = None ∨ container it ≠ Some (this m))) ∧
  (∀ key, find key (mkState h m) = Ok it (mkState h m) → current it ≠ None →
     ∃ h' m',
       erase it (mkState h m) = Ok tt (mkState h' m') ∧
       shape h' m' ∧
       element_count m' + 1 = element_count m ∧
       contents h' m' = Some (remove_key key l) ∧
       (length (remove_key key l) + 1 = length l)%nat ∧
       find key (mkState h' m') = Ok (mkIt None (Some (this m'))) (mkState h' m')).
Proof.
  intros ((ls & cs & Hi) & Hl & Hr) Hc.
  rewrite (inv_contents _ _ _ _ _ Hi Hc) in *.
  split; [apply erase_guard|]. split.
  { intros e s' (-> & _ & Hg)%erase_throws. done. }
  intros key. rewrite (find_spec _ _ _ _ key Hi). intros [= <-]. simpl.
  destruct (locate h key ls) as [x|] eqn:Hloc; [intros _|done].
  destruct (erase_abs h m ls cs key x Hi Hl Hr Hloc)
    as (h' & m' & ls' & cs' & Hrun & Hi' & _ & Hth & _ & Hec & Hent & Hlen & Hloc' & _).
  exists h', m'. split; [done|]. split; [by exists ls', cs'|]. split; [done|].
  split; [by rewrite (contents_spec _ _ _ _ Hi'), Hent|].
  split; [by rewrite <- Hent|].
  by rewrite (find_spec _ _ _ _ key Hi'), Hloc'.
Qed.

Lemma at_spec h m ls cs key :
  inv h m ls cs →
  at_ key (mkState h m)
  = match locate h key ls with
    | Some x => Ok x (mkState h m)
    | None => Throw index_out_of_bound (mkState h m)
    end.
Proof.
  intros Hi. unfold at_.
  erewrite bind_Ok by (by eapply find_spec).
  erewrite bind_Ok by reflexivity. unfold it_eq. simpl.
  destruct (locate h key ls) as [x|] eqn:Hloc; [|done]. simpl.
  apply locate_Some in Hloc as [Hx _].
  destruct (inv_alloc _ _ _ _ _ Hi Hx) as [n Hn].
  by erewrite bind_Ok by (by apply load_Ok).
Qed.

(** C6: [at], its const overload and the const [operator[]] return a
    reference to the stored value of a present key and throw
    [index_out_of_bound] exactly when the key is absent; the state is the
    same afterwards. *)
Theorem at_checked h m l key :
  wf h m → contents h m = Some l →
  match assoc key l with
  | Some kv =>
    ∃ x, at_ key (mkState h m) = Ok x (mkState h m) ∧
         at_const key (mkState h m) = Ok x (mkState h m) ∧
         subscript_const key (mkState h m) = Ok x (mkState h m) ∧
         data <$> h !! x = Some kv
  | None =>
    at_ key (mkState h m) = Throw index_out_of_bound (mkState h m) ∧
    at_const key (mkState h m) = Throw index_out_of_bound (mkState h m) ∧
    subscript_const key (mkState h m) = Throw index_out_of_bound (mkState h m)
  end.
Proof.
  intros ((ls & cs & Hi) & Hl & Hr) Hc.
  rewrite (inv_contents _ _ _ _ _ Hi Hc) in *.
  unfold subscript_const. change (at_const key) with (at_ key).
  rewrite (at_spec _ _ _ _ key Hi).
  destruct (assoc key (entries h ls)) as [kv|] eqn:Ha.
  - destruct (assoc_locate _ _ _ _ _ _ Hi Ha) as (y & -> & _ & Hy). by exists y.
  - apply locate_None_assoc in Ha; [|intros x; by eapply inv_alloc].
    by rewrite Ha.
Qed.

(** C7: the mutable [operator[]] always returns: for a present key a
    reference to its value, with the state unchanged; for an absent key a
    reference to a new last entry holding the default value, the size being
    one more. *)
Theorem subscript_total h m l key :
  wf h m → contents h m = Some l →
  ∃ x h' m',
    subscript key (mkState h m) = Ok x (mkState h' m') ∧
    match assoc key l with
    | Some kv => h' = h ∧ m' = m ∧ data <$> h !! x = Some kv
    | None =>
      contents h' m' = Some (l ++ [(key, default_T)]) ∧
      element_count m' = element_count m + 1 ∧
      data <$> h' !! x = Some (key, default_T)
    end.
Proof.
  intros ((ls & cs & Hi) & Hl & Hr) Hc.
  rewrite (inv_contents _ _ _ _ _ Hi Hc) in *.
  unfold subscript.
  destruct (assoc key (entries h ls)) as [kv|] eqn:Ha.
  - destruct (assoc_locate _ _ _ _ _ _ Hi Ha) as (y & Hloc & _ & Hy).
    exists y, h, m. erewrite !bind_Ok by (by eapply find_spec).
    erewrite !bind_Ok by reflexivity. rewrite Hloc. simpl.
    destruct (h !! y) as [n|] eqn:Hn; [|done].
    by erewrite !bind_Ok by (by apply load_Ok).
  - destruct (insert_abs h m ls cs (key, default_T) Hi Hl Hr)
      as (it & h' & m' & ls' & cs' & Hrun & Hi' & _ & _ & _ & Hent & Hec & Hd & _).
    simpl in *. rewrite Ha in *.
    apply locate_None_assoc in Ha; [|intros x; by eapply inv_alloc].
    unfold deref in Hd. destruct (current it) as [x|] eqn:Hcur; [|done].
    exists x, h', m'. split.
    + erewrite !bind_Ok by (by eapply find_spec).
      erewrite !bind_Ok by reflexivity. rewrite Ha. simpl.
      erewrite bind_Ok by exact Hrun. simpl. rewrite Hcur.
      destruct (h' !! x) as [n|] eqn:Hn; [|done].
      by erewrite !bind_Ok by (by apply load_Ok).
    + split; [|done]. by rewrite (contents_spec _ _ _ _ Hi'), Hent.
Qed.

(** C8: [insert] checks the capacity, and rehashes, before it looks for the
    key: the capacity after any insertion attempt depends on the load before
    it only, and an insertion of a present key at the threshold doubles the
    capacity without adding an entry. *)
Theorem insert_checks_capacity_first h m l v :
  wf h m → contents h m = Some l →
  ∃ it h1 m1 h' m',
    ensure_capacity (mkState h m) = Ok tt (mkState h1 m1) ∧
    insert v (mkState h m)
    = Ok (it, match assoc v.1 l with Some _ => false | None => true end)
         (mkState h' m') ∧
    bucket_count m1 = (if load_reached (element_count m) (bucket_count m)
                       then 2 * bucket_count m else bucket_count m) ∧
    bucket_count m' = bucket_count m1 ∧
    (is_Some (assoc v.1 l) →
     h' = h1 ∧ m' = m1 ∧
     find v.1 (mkState h1 m1) = Ok it (mkState h1 m1) ∧
     contents h' m' = Some l ∧ element_count m' = element_count m).
Proof.
  intros ((ls & cs & Hi) & Hl & Hr) Hc.
  rewrite (inv_contents _ _ _ _ _ Hi Hc) in *.
  destruct (ensure_capacity_spec h m ls cs Hi Hr)
    as (h1 & m1 & cs1 & Hens & Hi1 & Hfr & _ & Hth & Hec1 & _ & _ & Hbc1 & _).
  destruct (assoc v.1 (entries h ls)) as [kv|] eqn:Ha.
  - destruct (assoc_locate _ _ _ _ _ _ Hi Ha) as (y & Hloc & _ & Hy).
    destruct (insert_found h m ls cs v y Hi Hl Hr Hloc)
      as (h' & m' & cs' & Hrun & Hens' & Hi' & _ & Hfr' & _ & _ & Hec & Hbc).
    rewrite Hens in Hens'. injection Hens' as <- <-.
    exists (mkIt (Some y) (Some (this m))), h1, m1, h1, m1.
    repeat (split; [done|]).
    split; [|split; [|done]].
    + rewrite (find_spec _ _ _ _ v.1 Hi1), (frozen_locate _ _ _ _ Hfr), Hloc.
      by rewrite Hth.
    + by rewrite (contents_spec _ _ _ _ Hi1), (frozen_entries _ _ _ Hfr).
  - destruct (insert_abs h m ls cs v Hi Hl Hr)
      as (it & h' & m' & ls' & cs' & Hrun & _ & _ & _ & Hbc & _).
    rewrite Ha in Hrun. exists it, h1, m1, h', m'.
    repeat (split; [done|]). split; [congruence|]. by intros [? ?].
Qed.

(** The node at the head of the order list has no predecessor. *)
Lemma head_list_prev h m ls cs x :
  inv h m ls cs → head m = Some x → list_prev <$> h !! x = Some None.
Proof.
  clear alloc alloc_fresh.
  intros Hi Hx. rewrite (inv_head _ _ _ _ Hi) in Hx.
  destruct ls as [|y ls]; [done|]. injection Hx as ->.
  pose proof (inv_bwd _ _ _ _ Hi) as Hb. rewrite reverse_cons in Hb.
  by apply path_snoc in Hb as [_ Hb].
Qed.

(** C10: the eight step operators leave a past-the-end iterator as it is;
    stepping back from the first entry gives the past-the-end iterator; and
    at every position of a map, past-the-end or at an entry, each of them
    returns. *)
Theorem iterator_steps_checked h m it :
  shape h m →
  (current it = None →
   iterator_preinc h it = Some it ∧ iterator_postinc h it = Some (it, it) ∧
   iterator_predec h it = Some it ∧ iterator_postdec h it = Some (it, it) ∧
   const_iterator_preinc h it = Some it ∧
   const_iterator_postinc h it = Some (it, it) ∧
   const_iterator_predec h it = Some it ∧
   const_iterator_postdec h it = Some (it, it)) ∧
  (begin (mkState h m) = Ok it (mkState h m) →
   iterator_predec h it = Some (mkIt None (container it)) ∧
   iterator_postdec h it = Some (it, mkIt None (container it)) ∧
   const_iterator_predec h it = Some (mkIt None (container it)) ∧
   const_iterator_postdec h it = Some (it, mkIt None (container it))) ∧
  ((current it = None ∨ ∃ key, find key (mkState h m) = Ok it (mkState h m)) →
   is_Some (iterator_preinc h it) ∧ is_Some (iterator_postinc h it) ∧
   is_Some (iterator_predec h it) ∧ is_Some (iterator_postdec h it) ∧
   is_Some (const_iterator_preinc h it) ∧
   is_Some (const_iterator_postinc h it) ∧
   is_Some (const_iterator_predec h it) ∧
   is_Some (const_iterator_postdec h it)).
Proof.
  intros (ls & cs & Hi).
  unfold iterator_preinc, iterator_postinc, iterator_predec, iterator_postdec,
    const_iterator_preinc, const_iterator_postinc, const_iterator_predec,
    const_iterator_postdec, step_to.
  split; [by intros ->|]. split.
  - intros [= <-]. simpl.
    destruct (head m) as [x|] eqn:Hx; [|done].
    pose proof (head_list_prev _ _ _ _ _ Hi Hx) as Hp.
    destruct (h !! x) as [n|]; [|done]. simpl in Hp. by injection Hp as ->.
  - intros Hpos.
    assert (∀ x, current it = Some x → is_Some (h !! x)) as Hal.
    { intros x Hx.
      assert (x ∈ ls) as Hin; [|by eapply inv_alloc].
      destruct Hpos as [Hn|[key Hf]]; [congruence|].
      rewrite (find_spec _ _ _ _ key Hi) in Hf. injection Hf as <-.
      simpl in Hx. by apply locate_Some in Hx as [? _]. }
    destruct (current it) as [x|]; [|by repeat split].
    destruct (Hal x eq_refl) as [n ->]. by repeat split.
Qed.

(** C3: in an empty map, inserting three distinct keys and iterating yields
    them in that order; erasing the second through the iterator that [find]
    returns and inserting it again moves it to the end. *)
Theorem insertion_order h m a b c va vb vc vb' :
  wf h m → empty (mkState h m) = Ok true (mkState h m) →
  key_equal a b = false → key_equal a c = false → key_equal b c = false →
  ∃ r3 s3 itb r5 s5,
    (insert (a, va) ;; insert (b, vb) ;; insert (c, vc)) (mkState h m)
    = Ok r3 s3 ∧
    contents (mem s3) (obj s3) = Some [(a, va); (b, vb); (c, vc)] ∧
    find b s3 = Ok itb s3 ∧
    (erase itb ;; insert (b, vb')) s3 = Ok r5 s5 ∧
    contents (mem s5) (obj s5) = Some [(a, va); (c, vc); (b, vb')].
Proof.
  intros ((ls & cs & Hi) & Hl & Hr) Hemp Hab Hac Hbc.
  assert (element_count m = 0) as Hec0.
  { unfold empty, bind, gets, ret in Hemp. simpl in Hemp.
    injection Hemp as He. by apply N.eqb_eq. }
  assert (ls = []) as ->.
  { pose proof (inv_count _ _ _ _ Hi) as Hc. destruct ls; [done|].
    simpl in Hc. lia. }
  pose proof (load_ok_capacity _ Hl) as H16.
  assert (key_equal c b = false) as Hcb.
  { destruct (key_equal c b) eqn:E; [|done].
    apply key_equal_sym in E. congruence. }
  destruct (insert_step h m [] cs (a, va) Hi Hl Hr)
    as (it1 & h1 & m1 & ls1 & cs1 & Hrun1 & Hi1 & Hl1 & Hr1 & Hb1 & Hent1 & Hec1);
    [lia|].
  cbn in Hrun1, Hent1, Hec1.
  destruct (insert_step h1 m1 ls1 cs1 (b, vb) Hi1 Hl1 Hr1)
    as (it2 & h2 & m2 & ls2 & cs2 & Hrun2 & Hi2 & Hl2 & Hr2 & Hb2 & Hent2 & Hec2);
    [lia|].
  rewrite Hent1 in Hrun2, Hent2, Hec2. cbn in Hrun2, Hent2, Hec2.
  rewrite Hab in Hrun2, Hent2, Hec2.
  destruct (insert_step h2 m2 ls2 cs2 (c, vc) Hi2 Hl2 Hr2)
    as (it3 & h3 & m3 & ls3 & cs3 & Hrun3 & Hi3 & Hl3 & Hr3 & Hb3 & Hent3 & Hec3);
    [lia|].
  rewrite Hent2 in Hrun3, Hent3, Hec3. cbn in Hrun3, Hent3, Hec3.
  rewrite Hac, Hbc in Hrun3, Hent3, Hec3. cbn in Hent3.
  assert (assoc b (entries h3 ls3) = Some (b, vb)) as Ha.
  { rewrite Hent3. cbn. by rewrite Hab, key_equal_refl. }
  destruct (assoc_locate _ _ _ _ _ _ Hi3 Ha) as (x & Hloc & _ & _).
  destruct (erase_abs h3 m3 ls3 cs3 b x Hi3 Hl3 Hr3 Hloc)
    as (h4 & m4 & ls4 & cs4 & Hrun4 & Hi4 & Hl4 & Hth4 & Hb4 & Hec4 & Hent4 & _).
  rewrite Hent3 in Hent4. cbn in Hent4. rewrite Hab, key_equal_refl in Hent4.
  destruct (insert_step h4 m4 ls4 cs4 (b, vb') Hi4 Hl4)
    as (it5 & h5 & m5 & ls5 & cs5 & Hrun5 & Hi5 & _ & _ & _ & Hent5 & _).
  { unfold in_range. by rewrite Hb4. }
  { lia. }
  rewrite Hent4 in Hrun5, Hent5. cbn in Hrun5, Hent5.
  rewrite Hab, Hcb in Hrun5, Hent5. cbn in Hent5.
  eexists _, (mkState h3 m3), _, _, (mkState h5 m5).
  split; [|split; [|split; [|split]]].
  - erewrite bind_Ok by exact Hrun1. erewrite bind_Ok by exact Hrun2.
    exact Hrun3.
  - simpl. by rewrite (contents_spec _ _ _ _ Hi3), Hent3.
  - by eapply find_spec.
  - rewrite Hloc. erewrite bind_Ok by exact Hrun4. exact Hrun5.
  - simpl. by rewrite (contents_spec _ _ _ _ Hi5), Hent5.
Qed.

(** C9: the copy constructor and the assignment operator produce a map with
    the pairs of the source in the same order, held in nodes of its own;
    afterwards an [insert] or [erase] on either map leaves the contents and
    order of the other as they are (its size is a member of the other object,
    which no member function of this one writes), and keeps the two apart. *)
Theorem copy_independent h X l :
  wf h X → contents h X = Some l →
  (∀ addr,
     ∃ h' Y,
       copy_construct addr X h = Ok tt (mkState h' Y) ∧
       this Y = addr ∧ wf h' Y ∧ wf h' X ∧
       contents h' Y = Some l ∧ contents h' X = Some l ∧
       element_count Y = element_count X ∧
       (∀ x, is_Some (h !! x) → h' !! x = h !! x) ∧
       separate h' X Y ∧ unaffected_by h' X Y ∧ unaffected_by h' Y X) ∧
  (∀ tmp Z,
     separate h X Z → this Z ≠ this X →
     ∃ h' Z',
       assign tmp X (mkState h Z) = Ok tt (mkState h' Z') ∧
       this Z' = this Z ∧ wf h' Z' ∧ wf h' X ∧
       contents h' Z' = Some l ∧ contents h' X = Some l ∧
       element_count Z' = element_count X ∧
       separate h' X Z' ∧ unaffected_by h' X Z' ∧ unaffected_by h' Z' X) ∧
  (∀ tmp, assign tmp X (mkState h X) = Ok tt (mkState h X)).
Proof.
  intros ((ls & cs & Hi) & Hl & Hr) Hc.
  pose proof (inv_contents _ _ _ _ _ Hi Hc) as ->.
  assert (∀ h' Y lsY csY,
            inv h' Y lsY csY → inv h' X ls cs →
            entries h' lsY = entries h ls →
            element_count Y = element_count X) as Hsize.
  { intros h' Y lsY csY HiY HiX' Hent.
    rewrite (inv_count _ _ _ _ HiY), (inv_count _ _ _ _ HiX'). f_equal.
    eapply entries_allocated_length; [| |exact Hent].
    - intros z. by eapply inv_alloc.
    - intros z. by eapply inv_alloc. }
  split; [|split].
  - intros addr.
    destruct (copy_construct_separate h X ls cs addr Hi Hl Hr)
      as (h' & Y & lsY & csY & Hrun & HiY & HiX & HlY & HrY & Hth & Hent & HentX
          & Hd & _ & Hs).
    assert (separate h' X Y) as Hsep by (by exists ls, cs, lsY, csY).
    exists h', Y. split; [done|]. split; [done|].
    split; [by split; [exists lsY, csY|]|].
    split; [by split; [exists ls, cs|]|].
    split; [by rewrite (contents_spec _ _ _ _ HiY), Hent|].
    split; [by rewrite (contents_spec _ _ _ _ HiX), HentX|].
    split; [by eapply Hsize|]. split; [done|]. split; [done|].
    split; [by apply separate_unaffected|].
    by apply separate_unaffected; [apply separate_sym|..].
  - intros tmp Z (lsX & csX & lsZ & csZ & HiX0 & HiZ & Hd0) Hne.
    destruct (assign_spec h Z X lsZ csZ lsX csX tmp HiZ HiX0 Hl Hr Hd0 Hne)
      as (h' & Z' & lsY & csY & Hrun & HiY & HiX & HlY & HrY & Hth & Hent & HentX
          & Hd).
    pose proof (contents_spec _ _ _ _ HiX0) as Hc0. rewrite Hc in Hc0.
    injection Hc0 as Hc0.
    assert (separate h' X Z') as Hsep by (by exists lsX, csX, lsY, csY).
    exists h', Z'. split; [done|]. split; [done|].
    split; [by split; [exists lsY, csY|]|].
    split; [by split; [exists lsX, csX|]|].
    split; [by rewrite (contents_spec _ _ _ _ HiY), Hent, Hc0|].
    split; [by rewrite (contents_spec _ _ _ _ HiX), HentX, Hc0|].
    split.
    { rewrite (inv_count _ _ _ _ HiY), (inv_count _ _ _ _ HiX). f_equal.
      eapply entries_allocated_length; [| |by rewrite Hent, <- HentX].
      - intros z. by eapply inv_alloc.
      - intros z. by eapply inv_alloc. }
    split; [done|].
    split; [by apply separate_unaffected|].
    by apply separate_unaffected; [apply separate_sym|..].
  - intros tmp. unfold assign. simpl. by rewrite decide_True.
Qed.

(** * Further properties of the member functions *)

(** ** Positions in the order list *)

Lemma hd_or_drop (ls : list loc) n : hd_or None (drop n ls) = ls !! n.
Proof.
  revert n. induction ls as [|x ls IH]; intros [|n]; simpl; done.
Qed.

Lemma entries_lookup h ls n :
  (∀ x, x ∈ ls → is_Some (h !! x)) →
  entries h ls !! n = ls !! n ≫= (λ x, data <$> h !! x).
Proof.
  revert n. induction ls as [|x ls IH]; intros n Hal; [done|].
  destruct (Hal x) as [nx Hx]; [left|].
  rewrite (entries_cons _ _ _ _ Hx).
  destruct n as [|n]; simpl; [by rewrite Hx|].
  apply IH. intros z ?. apply Hal. by right.
Qed.

(** The order links of the node at position [n]. *)
Lemma order_links h m ls cs n x :
  inv h m ls cs → ls !! n = Some x →
  list_next <$> h !! x = Some (ls !! S n) ∧
  list_prev <$> h !! x = Some (match n with O => None | S k => ls !! k end).
Proof.
  clear alloc alloc_fresh.
  intros Hi Hx.
  pose proof (take_drop_middle _ _ _ Hx) as Hsplit.
  pose proof (inv_fwd _ _ _ _ Hi) as Hf.
  pose proof (inv_bwd _ _ _ _ Hi) as Hb.
  rewrite <- Hsplit in Hf, Hb. rewrite reverse_middle in Hb.
  apply path_middle in Hf, Hb. rewrite hd_or_drop in Hf.
  split; [done|]. rewrite Hb. f_equal.
  destruct n as [|k]; [done|].
  assert (is_Some (ls !! k)) as [y Hy].
  { apply lookup_lt_is_Some. apply lookup_lt_Some in Hx. lia. }
  by rewrite (take_S_r _ _ _ Hy), reverse_snoc, Hy.
Qed.

Lemma step_next h m ls cs n c :
  inv h m ls cs →
  iterator_preinc h (mkIt (ls !! n) c) = Some (mkIt (ls !! S n) c).
Proof.
  clear alloc alloc_fresh.
  intros Hi. unfold iterator_preinc, step_to. simpl.
  destruct (ls !! n) as [x|] eqn:Hx.
  - destruct (order_links _ _ _ _ _ _ Hi Hx) as [Hn _].
    destruct (h !! x) as [nx|]; [|done]. simpl in Hn. by injection Hn as ->.
  - f_equal. f_equal. symmetry. apply lookup_ge_None.
    apply lookup_ge_None in Hx. lia.
Qed.

Lemma step_prev h m ls cs n c :
  inv h m ls cs → is_Some (ls !! S n) →
  iterator_predec h (mkIt (ls !! S n) c) = Some (mkIt (ls !! n) c).
Proof.
  clear alloc alloc_fresh.
  intros Hi [x Hx]. unfold iterator_predec, step_to. simpl. rewrite Hx.
  destruct (order_links _ _ _ _ _ _ Hi Hx) as [_ Hp].
  destruct (h !! x) as [nx|]; [|done]. simpl in Hp. by injection Hp as ->.
Qed.

Lemma advance_spec h m ls cs c n :
  inv h m ls cs →
  ∀ k, advance h n (mkIt (ls !! k) c) = Some (mkIt (ls !! (n + k)%nat) c).
Proof.
  clear alloc alloc_fresh.
  intros Hi. induction n as [|n IH]; intros k; [done|].
  simpl. rewrite (step_next _ _ _ _ _ _ Hi), IH. do 3 f_equal. lia.
Qed.

Lemma inv_head_lookup h m ls cs : inv h m ls cs → head m = ls !! 0%nat.
Proof. intros Hi. rewrite (inv_head _ _ _ _ Hi). by destruct ls. Qed.

Lemma deref_lookup h m ls cs n c :
  inv h m ls cs → deref h (mkIt (ls !! n) c) = entries h ls !! n.
Proof.
  intros Hi. rewrite entries_lookup by (intros x; by eapply inv_alloc).
  unfold deref. simpl. by destruct (ls !! n).
Qed.

Lemma inv_entries_length h m ls cs :
  inv h m ls cs → length (entries h ls) = length ls.
Proof. intros Hi. apply entries_length. intros x. by eapply inv_alloc. Qed.


(** ** Keys *)

Lemma assoc_Some_key key l kv :
  assoc key l = Some kv → kv ∈ l ∧ key_equal kv.1 key = true.
Proof.
  clear alloc alloc_fresh.
  induction l as [|a l IH]; [done|]. simpl.
  destruct (key_equal a.1 key) eqn:Ha.
  - intros [= ->]. split; [left|done].
  - intros [Hin Hk]%IH. split; [by right|done].
Qed.

Lemma assoc_None_all key l :
  assoc key l = None ↔ ∀ kv, kv ∈ l → key_equal kv.1 key = false.
Proof.
  clear alloc alloc_fresh.
  induction l as [|a l IH]; simpl.
  - split; [|done]. by intros _ kv ?%elem_of_nil.
  - destruct (key_equal a.1 key) eqn:Ha.
    + split; [done|]. intros H. rewrite H in Ha by left. done.
    + rewrite IH. split.
      * intros H kv [->|?]%elem_of_cons; auto.
      * intros H kv ?. apply H. by right.
Qed.

Lemma entries_lookup_Some h m ls cs i kv :
  inv h m ls cs → entries h ls !! i = Some kv →
  ∃ x, ls !! i = Some x ∧ x ∈ ls ∧ data <$> h !! x = Some kv ∧
       key_at h x = Some kv.1.
Proof.
  intros Hi. rewrite entries_lookup by (intros x; by eapply inv_alloc).
  destruct (ls !! i) as [x|] eqn:Hx; [|done]. simpl. intros Hd.
  exists x. split; [done|]. split; [by eapply list_elem_of_lookup_2|].
  split; [done|]. unfold key_at. destruct (h !! x); [|done].
  simpl in *. by injection Hd as ->.
Qed.

(** The keys of a map are pairwise unequal. *)
Lemma inv_distinct h m ls cs : inv h m ls cs → distinct_keys (entries h ls).
Proof.
  intros Hi i j kv kv' Hkv Hkv' He.
  destruct (entries_lookup_Some _ _ _ _ _ _ Hi Hkv) as (x & Hx & Hxl & _ & Hkx).
  destruct (entries_lookup_Some _ _ _ _ _ _ Hi Hkv') as (y & Hy & Hyl & _ & Hky).
  assert (x = y) as -> by (eapply (inv_uniq _ _ _ _ Hi); eauto).
  eapply NoDup_lookup; [apply (inv_nodup _ _ _ _ Hi)|done..].
Qed.

Lemma distinct_keys_tail a l : distinct_keys (a :: l) → distinct_keys l.
Proof.
  clear alloc alloc_fresh.
  intros Hd i j kv kv' Hi Hj He.
  assert (S i = S j) as [= ->]; [|done]. by eapply (Hd (S i) (S j)).
Qed.

Lemma distinct_keys_count key l :
  distinct_keys l →
  length (filter (λ kv, key_equal kv.1 key = true) l)
  = match assoc key l with Some _ => 1%nat | None => 0%nat end.
Proof.
  clear alloc alloc_fresh.
  induction l as [|a l IH]; intros Hd; [done|].
  specialize (IH (distinct_keys_tail _ _ Hd)). simpl.
  destruct (key_equal a.1 key) eqn:Ha.
  - rewrite filter_cons_True by done. simpl. f_equal.
    destruct (assoc key l) as [kv|] eqn:Hkv; [|done]. exfalso.
    apply assoc_Some_key in Hkv as [Hin Hk].
    apply list_elem_of_lookup in Hin as [j Hj].
    assert (0%nat = S j) as [=]. eapply (Hd 0%nat (S j)); [done|exact Hj|].
    eapply key_equal_trans; [exact Ha|]. by apply key_equal_sym.
  - rewrite filter_cons_False by (by rewrite Ha). done.
Qed.

(** X1: [find] and its const overload return, leave the state as it is, and
    give an iterator of this container to the first pair whose key is equal
    to the argument; the iterator compares equal to [end()] exactly when no
    pair of the map has such a key. *)
Theorem find_checked h m l key :
  shape h m → contents h m = Some l →
  ∃ it,
    find key (mkState h m) = Ok it (mkState h m) ∧
    find_const key (mkState h m) = Ok it (mkState h m) ∧
    container it = Some (this m) ∧
    deref h it = assoc key l ∧
    it_eq it (mkIt None (Some (this m))) = bool_decide (assoc key l = None) ∧
    (∀ kv, assoc key l = Some kv → kv ∈ l ∧ key_equal kv.1 key = true) ∧
    (assoc key l = None → ∀ kv, kv ∈ l → key_equal kv.1 key = false).
Proof.
  intros (ls & cs & Hi) Hc.
  rewrite (inv_contents _ _ _ _ _ Hi Hc) in *.
  destruct (find_abs _ _ _ _ key Hi) as (it & Hf & Hcur & Hcont & Hd).
  exists it. repeat (split; [done|]). split; [|split].
  - unfold it_eq. simpl. rewrite Hcur.
    apply bool_decide_ext, locate_None_assoc. intros x. by eapply inv_alloc.
  - apply assoc_Some_key.
  - intros Ha. by apply assoc_None_all.
Qed.

(** X2: [count] returns, without changing the state, the number of pairs of
    the map whose key is equal to the argument, which is 1 or 0. *)
Theorem count_is_membership h m l key :
  shape h m → contents h m = Some l →
  count key (mkState h m)
  = Ok (N.of_nat (length (filter (λ kv, key_equal kv.1 key = true) l)))
       (mkState h m) ∧
  (length (filter (λ kv, key_equal kv.1 key = true) l) ≤ 1)%nat ∧
  (length (filter (λ kv, key_equal kv.1 key = true) l) = 1%nat ↔
   is_Some (assoc key l)).
Proof.
  intros (ls & cs & Hi) Hc.
  rewrite (inv_contents _ _ _ _ _ Hi Hc) in *.
  rewrite (distinct_keys_count key _ (inv_distinct _ _ _ _ Hi)).
  split; [|split].
  - unfold count, find_const. erewrite bind_Ok by (by eapply find_spec).
    erewrite bind_Ok by reflexivity. unfold ret, it_neq, it_eq. simpl.
    pose proof (locate_None_assoc h key ls (λ x, inv_alloc _ _ _ _ x Hi)) as Hla.
    destruct (assoc key (entries h ls)) as [kv|] eqn:Ha.
    + destruct (locate h key ls) eqn:Hloc; [done|].
      destruct Hla as [Hla _]. by specialize (Hla eq_refl).
    + destruct Hla as [_ ->]; done.
  - destruct (assoc key (entries h ls)); lia.
  - destruct (assoc key (entries h ls)); split; done.
Qed.

(** X3: [size] returns the number of pairs that iteration yields and
    [empty] whether there is none; [begin] and [cbegin] give an iterator to the
    first pair, which compares equal to [end()] exactly when the map is
    empty.  None of them changes the state. *)
Theorem size_is_length h m l :
  shape h m → contents h m = Some l →
  size (mkState h m) = Ok (N.of_nat (length l)) (mkState h m) ∧
  empty (mkState h m) = Ok (bool_decide (l = [])) (mkState h m) ∧
  ∃ b e,
    begin (mkState h m) = Ok b (mkState h m) ∧
    cbegin (mkState h m) = Ok b (mkState h m) ∧
    end_ (mkState h m) = Ok e (mkState h m) ∧
    cend (mkState h m) = Ok e (mkState h m) ∧
    deref h b = l !! 0%nat ∧
    it_eq b e = bool_decide (l = []).
Proof.
  intros (ls & cs & Hi) Hc.
  rewrite (inv_contents _ _ _ _ _ Hi Hc) in *.
  pose proof (inv_entries_length _ _ _ _ Hi) as Hlen.
  pose proof (inv_count _ _ _ _ Hi) as Hcnt.
  assert (bool_decide (entries h ls = []) = bool_decide (ls = [])) as ->.
  { apply bool_decide_ext.
    split; intros E; apply length_zero_iff_nil; apply (f_equal length) in E;
      simpl in E; lia. }
  split; [|split].
  - unfold size, gets. simpl. by rewrite Hlen, Hcnt.
  - unfold empty, gets, bind, ret. simpl. rewrite Hcnt. do 2 f_equal.
    destruct ls as [|x ls']; [done|]. rewrite bool_decide_eq_false_2 by done.
    apply N.eqb_neq. simpl. lia.
  - eexists _, _. repeat (split; [reflexivity|]). simpl.
    rewrite (inv_head_lookup _ _ _ _ Hi). split.
    + by apply (deref_lookup _ _ _ _ _ _ Hi).
    + unfold it_eq. simpl. apply bool_decide_ext. by destruct ls.
Qed.

(** X4: [n] increments from [begin()] give an iterator of this container
    that dereferences to the [n]-th pair of the iteration order, and that
    compares equal to [end()] exactly from the size of the map on. *)
Theorem iterator_walk h m l n :
  shape h m → contents h m = Some l →
  ∃ b it,
    begin (mkState h m) = Ok b (mkState h m) ∧
    advance h n b = Some it ∧
    container it = Some (this m) ∧
    deref h it = l !! n ∧
    it_eq it (mkIt None (Some (this m))) = bool_decide (length l ≤ n)%nat.
Proof.
  clear alloc alloc_fresh.
  intros (ls & cs & Hi) Hc.
  rewrite (inv_contents _ _ _ _ _ Hi Hc) in *.
  eexists _, _. split; [reflexivity|]. simpl.
  rewrite (inv_head_lookup _ _ _ _ Hi), (advance_spec _ _ _ _ _ _ Hi), Nat.add_0_r.
  split; [done|]. split; [done|].
  split; [by apply (deref_lookup _ _ _ _ _ _ Hi)|].
  unfold it_eq. simpl. apply bool_decide_ext.
  rewrite (inv_entries_length _ _ _ _ Hi). apply lookup_ge_None.
Qed.

(** X5: at the [n]-th entry of the map, [++] followed by [--] comes back to
    the same iterator unless the entry is the last one; from the last entry
    [++] reaches [end()], where [--] stays.  [--] followed by [++] comes back
    from every entry but the first. *)
Theorem iterator_back_and_forth h m l n b it :
  shape h m → contents h m = Some l →
  begin (mkState h m) = Ok b (mkState h m) → advance h n b = Some it →
  (n < length l)%nat →
  ∃ it',
    iterator_preinc h it = Some it' ∧
    (if decide (S n < length l)%nat
     then iterator_predec h it' = Some it
     else current it' = None ∧ iterator_predec h it' = Some it') ∧
    (∀ k, n = S k →
          ∃ p, iterator_predec h it = Some p ∧ advance h k b = Some p ∧
               iterator_preinc h p = Some it).
Proof.
  clear alloc alloc_fresh.
  intros (ls & cs & Hi) Hc [= <-].
  rewrite (inv_contents _ _ _ _ _ Hi Hc) in *.
  rewrite (inv_entries_length _ _ _ _ Hi).
  rewrite (inv_head_lookup _ _ _ _ Hi), (advance_spec _ _ _ _ _ _ Hi), Nat.add_0_r.
  intros [= <-] Hn.
  eexists. split; [by eapply step_next|]. split.
  - case_decide as Hlast.
    + eapply step_prev; [done|]. by apply lookup_lt_is_Some.
    + assert (ls !! S n = None) as -> by (apply lookup_ge_None; lia). done.
  - intros k ->. eexists. split; [|split].
    + eapply step_prev; [done|]. by apply lookup_lt_is_Some.
    + by rewrite (advance_spec _ _ _ _ _ _ Hi), Nat.add_0_r.
    + by eapply step_next.
Qed.

Lemma matches_equal_keys h k1 k2 x :
  key_equal k1 k2 = true → matches h k1 x = matches h k2 x.
Proof.
  clear alloc alloc_fresh.
  intros He. unfold matches. destruct (key_at h x) as [k|]; [|done].
  destruct (key_equal k k1) eqn:E1, (key_equal k k2) eqn:E2; try done.
  - rewrite (key_equal_trans _ _ _ E1 He) in E2. done.
  - rewrite (key_equal_trans _ _ _ E2 (key_equal_sym _ _ He)) in E1. done.
Qed.

Lemma locate_equal_keys h k1 k2 ls :
  key_equal k1 k2 = true → locate h k1 ls = locate h k2 ls.
Proof.
  clear alloc alloc_fresh.
  intros He. induction ls as [|x ls IH]; [done|]. simpl.
  by rewrite (matches_equal_keys h k1 k2 x He), IH.
Qed.

Lemma locate_same_node h k1 k2 ls x :
  locate h k1 ls = Some x → locate h k2 ls = Some x → key_equal k1 k2 = true.
Proof.
  clear alloc alloc_fresh.
  intros [_ (k & Hk & E1)%matches_true]%locate_Some
         [_ (k' & Hk' & E2)%matches_true]%locate_Some.
  rewrite Hk in Hk'. injection Hk' as <-.
  eapply key_equal_trans; [|exact E2]. by apply key_equal_sym.
Qed.

(** X6: for a key of the map and any other key, the iterators that [find]
    returns compare equal exactly when the two keys are equal. *)
Theorem find_same_entry h m l k1 k2 :
  shape h m → contents h m = Some l → is_Some (assoc k1 l) →
  ∃ it1 it2,
    find k1 (mkState h m) = Ok it1 (mkState h m) ∧
    find k2 (mkState h m) = Ok it2 (mkState h m) ∧
    it_eq it1 it2 = key_equal k1 k2 ∧ it_neq it1 it2 = negb (key_equal k1 k2).
Proof.
  clear alloc alloc_fresh.
  intros (ls & cs & Hi) Hc [kv Ha].
  rewrite (inv_contents _ _ _ _ _ Hi Hc) in *.
  destruct (assoc_locate _ _ _ _ _ _ Hi Ha) as (x & Hloc & _).
  eexists _, _. split; [by eapply find_spec|]. split; [by eapply find_spec|].
  unfold it_neq, it_eq. simpl.
  assert (bool_decide (locate h k1 ls = locate h k2 ls) = key_equal k1 k2) as ->;
    [|done].
  destruct (key_equal k1 k2) eqn:He.
  - apply bool_decide_eq_true. by apply locate_equal_keys.
  - apply bool_decide_eq_false. intros Heq. rewrite Hloc in Heq.
    rewrite (locate_same_node h k1 k2 ls x) in He; done.
Qed.

(** ** What an insertion and an erasure leave in place *)

Lemma locate_app h key l1 l2 :
  locate h key (l1 ++ l2)
  = match locate h key l1 with
    | Some x => Some x
    | None => locate h key l2
    end.
Proof.
  clear alloc alloc_fresh.
  induction l1 as [|a l1 IH]; [done|]. simpl.
  by destruct (matches h key a).
Qed.

Lemma key_at_of_data h h' z :
  data <$> h' !! z = data <$> h !! z → key_at h' z = key_at h z.
Proof.
  clear alloc alloc_fresh.
  unfold key_at. destruct (h' !! z), (h !! z); simpl; congruence.
Qed.

Lemma insert_full h m ls cs v :
  inv h m ls cs → load_ok m → in_range m →
  ∃ it h' m' ls' cs',
    insert v (mkState h m)
    = Ok (it, match locate h v.1 ls with Some _ => false | None => true end)
         (mkState h' m') ∧
    inv h' m' ls' cs' ∧ load_ok m' ∧ this m' = this m ∧
    bucket_count m' = (if load_reached (element_count m) (bucket_count m)
                       then 2 * bucket_count m else bucket_count m) ∧
    element_count m' = match locate h v.1 ls with
                       | Some _ => element_count m
                       | None => element_count m + 1
                       end ∧
    container it = Some (this m) ∧
    match locate h v.1 ls with
    | Some y => current it = Some y ∧ ls' = ls
    | None => ∃ x, current it = Some x ∧ ls' = ls ++ [x] ∧
                   h !! x = None ∧ data <$> h' !! x = Some v
    end ∧
    (∀ z, z ∈ ls → data <$> h' !! z = data <$> h !! z) ∧
    (∀ z, z ∉ ls' → h' !! z = h !! z).
Proof.
  intros Hi Hl Hr.
  assert (∀ x, x ∈ ls → is_Some (h !! x)) as Hal by (intros x; by eapply inv_alloc).
  destruct (locate h v.1 ls) as [y|] eqn:Hloc.
  - destruct (insert_found h m ls cs v y Hi Hl Hr Hloc)
      as (h' & m' & cs' & Hrun & _ & Hi' & Hl' & Hfr & Hfp & Hth & Hec & Hbc).
    exists (mkIt (Some y) (Some (this m))), h', m', ls, cs'.
    repeat (split; [done|]). split; [|done].
    intros z _. by apply frozen_data.
  - destruct (insert_new h m ls cs v Hi Hl Hr Hloc)
      as (x & h' & m' & cs' & Hrun & Hi' & Hl' & Hx & Hdx & Hd & Hfp & Hth & Hec & Hbc).
    exists (mkIt (Some x) (Some (this m))), h', m', (ls ++ [x]), cs'.
    repeat (split; [done|]). split; [by exists x|]. split.
    + intros z Hz. apply Hd. intros ->. destruct (Hal x Hz) as [? Hc]. congruence.
    + intros z Hz. rewrite elem_of_app, list_elem_of_singleton in Hz.
      apply Hfp; tauto.
Qed.

(** The nodes that were in the map are found as before. *)
Lemma locate_kept h h' key ls :
  (∀ z, z ∈ ls → data <$> h' !! z = data <$> h !! z) →
  locate h' key ls = locate h key ls.
Proof.
  clear alloc alloc_fresh.
  intros Hd. apply locate_ext. intros z Hz. by apply key_at_of_data, Hd.
Qed.

Lemma locate_new h key x v :
  data <$> h !! x = Some v → key_equal v.1 key = true →
  locate h key [x] = Some x.
Proof.
  clear alloc alloc_fresh.
  intros Hd He. simpl. unfold matches, key_at.
  destruct (h !! x) as [n|]; [|done]. simpl in *. injection Hd as ->.
  by rewrite He.
Qed.

Lemma count_run h m ls cs key :
  inv h m ls cs →
  count key (mkState h m)
  = Ok (match locate h key ls with Some _ => 1 | None => 0 end) (mkState h m).
Proof.
  intros Hi. unfold count, find_const.
  erewrite bind_Ok by (by eapply find_spec).
  erewrite bind_Ok by reflexivity. unfold ret, it_neq, it_eq. simpl.
  by destruct (locate h key ls).
Qed.

(** X7: after [insert] of a pair, [find] of its key returns the iterator
    that [insert] returned; it dereferences to the pair already stored under
    that key if there was one and to the inserted pair otherwise; [count]
    of the key is 1 and [at] returns the node of that entry. *)
Theorem insert_then_find h m l v :
  wf h m → contents h m = Some l →
  ∃ it b h' m' x,
    insert v (mkState h m) = Ok (it, b) (mkState h' m') ∧
    find v.1 (mkState h' m') = Ok it (mkState h' m') ∧
    deref h' it = Some (match assoc v.1 l with Some old => old | None => v end) ∧
    b = match assoc v.1 l with Some _ => false | None => true end ∧
    count v.1 (mkState h' m') = Ok 1 (mkState h' m') ∧
    current it = Some x ∧
    at_ v.1 (mkState h' m') = Ok x (mkState h' m').
Proof.
  intros ((ls & cs & Hi) & Hl & Hr) Hc.
  rewrite (inv_contents _ _ _ _ _ Hi Hc) in *.
  assert (∀ x, x ∈ ls → is_Some (h !! x)) as Hal by (intros x; by eapply inv_alloc).
  destruct (insert_full h m ls cs v Hi Hl Hr)
    as (it & h' & m' & ls' & cs' & Hrun & Hi' & _ & Hth & _ & _ & Hcont & Hcase
        & Hd & _).
  pose proof (locate_assoc h v.1 ls Hal) as Hla.
  assert (∃ x, current it = Some x ∧ locate h' v.1 ls' = Some x ∧
               deref h' it = Some (match assoc v.1 (entries h ls) with
                                   | Some old => old
                                   | None => v
                                   end)) as (x & Hcur & Hloc' & Hder).
  { destruct (locate h v.1 ls) as [y|] eqn:Hloc.
    - destruct Hcase as [Hcur ->]. exists y. split; [done|].
      split; [by rewrite (locate_kept h h' _ _ Hd)|].
      apply locate_Some in Hloc as [Hy _]. destruct (Hal y Hy) as [n Hn].
      unfold deref. rewrite Hcur, (Hd y Hy), Hla. simpl. by rewrite Hn.
    - destruct Hcase as (x & Hcur & -> & Hx & Hdx). exists x. split; [done|].
      split.
      + rewrite locate_app, (locate_kept h h' _ _ Hd), Hloc.
        by eapply locate_new.
      + unfold deref. by rewrite Hcur, Hdx, Hla. }
  eexists it, _, h', m', x. split; [exact Hrun|]. split.
  { rewrite (find_spec _ _ _ _ v.1 Hi'), Hloc'. f_equal.
    apply iterator_eq; simpl; congruence. }
  split; [done|]. split.
  { rewrite Hla. destruct (locate h v.1 ls) as [y|] eqn:Hloc; [|done]. simpl.
    apply locate_Some in Hloc as [Hy _]. by destruct (Hal y Hy) as [n ->]. }
  split; [by rewrite (count_run _ _ _ _ v.1 Hi'), Hloc'|].
  split; [done|]. by rewrite (at_spec _ _ _ _ v.1 Hi'), Hloc'.
Qed.

(** X8: an [insert], rehashing or not, leaves every iterator to an entry of
    the map valid: [find] of the key of the entry returns the same iterator
    afterwards and it dereferences to the same pair. *)
Theorem insert_keeps_iterators h m v key it :
  wf h m → find key (mkState h m) = Ok it (mkState h m) → current it ≠ None →
  ∃ r h' m',
    insert v (mkState h m) = Ok r (mkState h' m') ∧
    find key (mkState h' m') = Ok it (mkState h' m') ∧
    deref h' it = deref h it ∧ is_Some (deref h it).
Proof.
  intros ((ls & cs & Hi) & Hl & Hr) Hf Hcur.
  rewrite (find_spec _ _ _ _ key Hi) in Hf. injection Hf as <-. simpl in Hcur.
  destruct (locate h key ls) as [y|] eqn:Hloc; [|done].
  pose proof (locate_Some _ _ _ _ Hloc) as [Hy _].
  destruct (insert_full h m ls cs v Hi Hl Hr)
    as (r & h' & m' & ls' & cs' & Hrun & Hi' & _ & Hth & _ & _ & _ & Hcase
        & Hd & _).
  assert (locate h' key ls' = Some y) as Hloc'.
  { destruct (locate h v.1 ls).
    - destruct Hcase as [_ ->]. by rewrite (locate_kept h h' _ _ Hd).
    - destruct Hcase as (x & _ & -> & _).
      by rewrite locate_app, (locate_kept h h' _ _ Hd), Hloc. }
  eexists _, h', m'. split; [exact Hrun|].
  split; [by rewrite (find_spec _ _ _ _ key Hi'), Hloc', Hth|].
  unfold deref. simpl. rewrite (Hd y Hy). split; [done|].
  destruct (inv_alloc _ _ _ _ _ Hi Hy) as [n ->]. by eexists.
Qed.

Lemma erase_full h m ls cs key x :
  inv h m ls cs → load_ok m → in_range m → locate h key ls = Some x →
  ∃ h' m' l1 l2 cs',
    ls = l1 ++ x :: l2 ∧ (x ∉ l1 ++ l2) ∧
    erase (mkIt (Some x) (Some (this m))) (mkState h m) = Ok tt (mkState h' m') ∧
    inv h' m' (l1 ++ l2) cs' ∧ load_ok m' ∧ this m' = this m ∧
    bucket_count m' = bucket_count m ∧
    element_count m' + 1 = element_count m ∧
    h' !! x = None ∧
    (∀ z, z ≠ x → data <$> h' !! z = data <$> h !! z) ∧
    (∀ z, z ∉ ls → h' !! z = h !! z).
Proof.
  clear alloc alloc_fresh.
  intros Hi Hl Hr Hloc.
  pose proof (locate_Some _ _ _ _ Hloc) as [Hx Hmx].
  destruct (list_elem_of_split_l _ _ Hx) as (l1 & l2 & -> & Hxl1).
  destruct (erase_spec h m l1 x l2 cs Hi) as (n & cs' & Hn & Hrun & Hi' & Hd & Hfp).
  { pose proof (load_ok_bound _ Hl Hr). lia. }
  destruct (NoDup_middle _ _ _ (inv_nodup _ _ _ _ Hi)) as [Hnd Hxl].
  pose proof (inv_count _ _ _ _ Hi) as Hc.
  pose proof (inv_count _ _ _ _ Hi') as Hc'.
  rewrite length_app in Hc, Hc'. simpl in Hc.
  exists (delete x (pointwise (unlink n) h)), (erased_map m n), l1, l2, cs'.
  repeat (split; [done|]). split.
  { destruct Hl as [Hk Hl]. split; [done|]. simpl bucket_count. lia. }
  split; [done|]. split; [done|]. split; [lia|].
  split; [apply lookup_delete_eq|done].
Qed.

(** Erasing [x] leaves what [locate] finds, unless it found [x]. *)
Lemma locate_without h h' key l1 x l2 :
  x ∉ l1 ++ l2 →
  (∀ z, z ≠ x → data <$> h' !! z = data <$> h !! z) →
  locate h key (l1 ++ x :: l2) ≠ Some x →
  locate h' key (l1 ++ l2) = locate h key (l1 ++ x :: l2).
Proof.
  clear alloc alloc_fresh.
  intros Hx Hd. rewrite !locate_app. rewrite elem_of_app in Hx.
  rewrite (locate_kept h h' key l1) by (intros z Hz; apply Hd; intros ->; tauto).
  destruct (locate h key l1); [done|]. simpl.
  destruct (matches h key x); [done|]. intros _.
  apply locate_kept. intros z Hz. apply Hd. intros ->. tauto.
Qed.

(** X9: [erase] leaves the capacity as it is and every iterator to another
    entry valid: [find] of any key that did not lead to the erased entry
    returns the same iterator afterwards, dereferencing to the same pair;
    the node of the erased iterator is gone. *)
Theorem erase_keeps_iterators h m key it key' it' :
  wf h m → find key (mkState h m) = Ok it (mkState h m) → current it ≠ None →
  find key' (mkState h m) = Ok it' (mkState h m) → it_eq it' it = false →
  ∃ h' m',
    erase it (mkState h m) = Ok tt (mkState h' m') ∧
    find key' (mkState h' m') = Ok it' (mkState h' m') ∧
    deref h' it' = deref h it' ∧
    bucket_count m' = bucket_count m ∧
    deref h' it = None.
Proof.
  clear alloc alloc_fresh.
  intros ((ls & cs & Hi) & Hl & Hr) Hf Hcur Hf' Hne.
  rewrite (find_spec _ _ _ _ key Hi) in Hf. injection Hf as <-.
  rewrite (find_spec _ _ _ _ key' Hi) in Hf'. injection Hf' as <-.
  simpl in Hcur. unfold it_eq in Hne. simpl in Hne.
  apply bool_decide_eq_false in Hne.
  destruct (locate h key ls) as [x|] eqn:Hloc; [|done].
  destruct (erase_full h m ls cs key x Hi Hl Hr Hloc)
    as (h' & m' & l1 & l2 & cs' & -> & Hx & Hrun & Hi' & _ & Hth & Hbc & _ & Hgone
        & Hd & _).
  pose proof (locate_without h h' key' l1 x l2 Hx Hd Hne) as Hloc'.
  exists h', m'. split; [done|].
  split; [by rewrite (find_spec _ _ _ _ key' Hi'), Hloc', Hth|].
  split; [|split; [done|]].
  - unfold deref. simpl.
    destruct (locate h key' (l1 ++ x :: l2)) as [y|]; [|done].
    apply Hd. congruence.
  - unfold deref. simpl. by rewrite Hgone.
Qed.

(** X10: inserting a pair under a new key and erasing it through the
    iterator that [insert] returned gives back the map: the same pairs in
    the same order, the same size, the same nodes allocated, and every
    iterator that [find] returned before is returned again. *)
Theorem insert_then_erase h m l v :
  wf h m → contents h m = Some l → assoc v.1 l = None →
  ∃ it h1 m1 h2 m2,
    insert v (mkState h m) = Ok (it, true) (mkState h1 m1) ∧
    erase it (mkState h1 m1) = Ok tt (mkState h2 m2) ∧
    shape h2 m2 ∧ contents h2 m2 = Some l ∧
    element_count m2 = element_count m ∧
    (∀ z, is_Some (h2 !! z) ↔ is_Some (h !! z)) ∧
    (∀ key it', find key (mkState h m) = Ok it' (mkState h m) →
                find key (mkState h2 m2) = Ok it' (mkState h2 m2)).
Proof.
  intros ((ls & cs & Hi) & Hl & Hr) Hc Ha.
  rewrite (inv_contents _ _ _ _ _ Hi Hc) in *.
  assert (∀ x, x ∈ ls → is_Some (h !! x)) as Hal by (intros x; by eapply inv_alloc).
  apply (locate_None_assoc h v.1 ls Hal) in Ha.
  destruct (insert_full h m ls cs v Hi Hl Hr)
    as (it & h1 & m1 & ls' & cs1 & Hrun & Hi1 & _ & Hth & _ & Hec & Hcont & Hcase
        & Hd & Hfp).
  rewrite Ha in Hrun, Hcase, Hec.
  destruct Hcase as (x & Hcur & -> & Hx & Hdx).
  assert (it = mkIt (Some x) (Some (this m1))) as ->.
  { apply iterator_eq; simpl; congruence. }
  destruct (erase_spec h1 m1 ls x [] cs1 Hi1) as (n & cs2 & Hn & Hrun2 & Hi2 & Hd2 & _).
  { pose proof (load_ok_bound _ Hl Hr). lia. }
  rewrite app_nil_r in Hi2.
  assert (∀ z, z ∈ ls → z ≠ x) as Hne.
  { intros z Hz ->. destruct (Hal x Hz) as [? E]. congruence. }
  assert (∀ z, z ∈ ls →
               data <$> delete x (pointwise (unlink n) h1) !! z = data <$> h !! z)
    as Hd'.
  { intros z Hz. rewrite Hd2 by (by apply Hne). by apply Hd. }
  eexists _, h1, m1, _, _. split; [exact Hrun|]. split; [exact Hrun2|].
  split; [by eexists _, _|].
  split; [by rewrite (contents_spec _ _ _ _ Hi2), (entries_ext _ _ _ Hd')|].
  split; [by rewrite (inv_count _ _ _ _ Hi2), (inv_count _ _ _ _ Hi)|].
  split.
  - intros z. destruct (decide (z = x)) as [->|Hzx].
    + rewrite lookup_delete_eq, Hx. done.
    + rewrite erased_lookup by done. rewrite is_Some_alt.
      destruct (decide (z ∈ ls)) as [Hz|Hz].
      * destruct (inv_alloc _ _ _ _ z Hi1) as [? ->];
          [rewrite elem_of_app; tauto|]. simpl. split; [by intros _; apply Hal|done].
      * rewrite Hfp by (rewrite elem_of_app, list_elem_of_singleton; tauto).
        rewrite is_Some_alt. by destruct (h !! z).
  - intros key it'. rewrite (find_spec _ _ _ _ key Hi), (find_spec _ _ _ _ key Hi2).
    intros [= <-]. simpl. by rewrite (locate_kept h _ key ls Hd'), Hth.
Qed.

(** ** Clearing and swapping *)

Lemma clear_buckets_run h t bc ec hd tl k :
  ∀ i b, (N.to_nat i + k ≤ length b)%nat →
    ∃ b', clear_buckets k i (mkState h (mkMap t b bc ec hd tl))
          = Ok tt (mkState h (mkMap t b' bc ec hd tl)) ∧
          length b' = length b ∧
          ∀ j, b' !! j = if decide (N.to_nat i ≤ j < N.to_nat i + k)%nat
                         then Some None else b !! j.
Proof.
  induction k as [|k IH]; intros i b Hlen.
  - exists b. split; [done|]. split; [done|]. intros j.
    rewrite decide_False; [done|lia].
  - destruct (IH (i + 1) (<[N.to_nat i := None]> b)) as (b' & Hrun & Hlen' & Hb').
    { rewrite length_insert. lia. }
    exists b'. split; [|split].
    + simpl. erewrite bind_Ok by (apply bucket_put_Ok; simpl; lia). exact Hrun.
    + by rewrite Hlen', length_insert.
    + intros j. rewrite Hb'.
      destruct (decide (j = N.to_nat i)) as [->|Hj].
      * rewrite decide_False by lia. rewrite decide_True by lia.
        apply list_lookup_insert_eq. lia.
      * rewrite list_lookup_insert_ne by done.
        destruct (decide (N.to_nat i ≤ j < N.to_nat i + S k)%nat);
          [rewrite decide_True by lia|rewrite decide_False by lia]; done.
Qed.

(** [clear] frees the nodes of the map and leaves the object that a
    constructor makes for the same capacity. *)
Lemma clear_full h m ls cs :
  inv h m ls cs →
  ∃ h', clear (mkState h m)
        = Ok tt (mkState h' (fresh_map (this m) (bucket_count m))) ∧
        ∀ z, h' !! z = if decide (z ∈ ls) then None else h !! z.
Proof.
  intros Hi. unfold clear.
  erewrite bind_Ok by reflexivity. erewrite bind_Ok by apply fuel_Ok.
  cbn [obj]. rewrite (inv_head _ _ _ _ Hi).
  destruct (clear_walk_spec m ls h (S (base.size h))) as (h' & Hrun & Hh').
  { apply Hi. }
  { apply Hi. }
  { apply Nat.lt_succ_r, length_le_size; [apply Hi|].
    intros x. by eapply inv_alloc. }
  erewrite bind_Ok by exact Hrun.
  do 4 (erewrite bind_Ok by reflexivity).
  cbn [obj mem bucket_count element_count head tail this buckets].
  destruct (clear_buckets_run h' (this m) (bucket_count m) 0 None None
              (N.to_nat (bucket_count m)) 0 (buckets m))
    as (b' & Hcb & Hlen & Hb').
  { rewrite (inv_blen _ _ _ _ Hi). lia. }
  exists h'. split; [|exact Hh'].
  rewrite Hcb. unfold fresh_map. do 3 f_equal.
  apply list_eq. intros j. rewrite Hb'.
  destruct (decide (j < N.to_nat (bucket_count m))%nat) as [Hj|Hj].
  - rewrite decide_True by lia. symmetry. by apply lookup_replicate_2.
  - rewrite decide_False by lia.
    rewrite (lookup_ge_None_2 (buckets m)) by (rewrite (inv_blen _ _ _ _ Hi); lia).
    symmetry. apply lookup_ge_None_2. rewrite length_replicate. lia.
Qed.

Lemma inv_fresh h addr cap :
  0 < cap → inv h (fresh_map addr cap) [] (replicate (N.to_nat cap) []).
Proof. apply inv_fresh_map. Qed.

(** The nodes of [ls] are the difference between two heaps. *)
Lemma size_split (h h' : gmap loc Node) (ls : list loc) :
  NoDup ls → (∀ z, z ∈ ls → is_Some (h !! z)) →
  (∀ z, h' !! z = if decide (z ∈ ls) then None else h !! z) →
  base.size h = (base.size h' + length ls)%nat.
Proof.
  clear alloc alloc_fresh.
  intros Hnd Hal Hh'.
  rewrite <- (size_dom h), <- (size_dom h'), <- (size_list_to_set (C := gset loc) ls Hnd).
  rewrite <- size_union.
  - f_equal. apply set_eq. intros z.
    rewrite elem_of_union, !elem_of_dom, elem_of_list_to_set, Hh'.
    case_decide as Hz; [|by intuition]. split; [tauto|]. intros _. by apply Hal.
  - intros z. rewrite elem_of_dom, elem_of_list_to_set, Hh'.
    intros Hz Hin. rewrite decide_True in Hz by done. by destruct Hz.
Qed.

(** X11: [clear], and with it the destructor, returns on every map, frees
    as many nodes as the map has entries and changes no other node, and
    leaves the map empty with the capacity it had: the object is the one a
    constructor makes for that capacity, and every iterator to an entry is
    left without its node. *)
Theorem clear_resets h m l :
  shape h m → contents h m = Some l →
  ∃ h',
    clear (mkState h m)
    = Ok tt (mkState h' (fresh_map (this m) (bucket_count m))) ∧
    destroy (mkState h m)
    = Ok tt (mkState h' (fresh_map (this m) (bucket_count m))) ∧
    shape h' (fresh_map (this m) (bucket_count m)) ∧
    contents h' (fresh_map (this m) (bucket_count m)) = Some [] ∧
    base.size h = (base.size h' + length l)%nat ∧
    (∀ z, h' !! z = None ∨ h' !! z = h !! z) ∧
    (∀ key it, find key (mkState h m) = Ok it (mkState h m) →
               deref h' it = None) ∧
    (∀ key, find key (mkState h' (fresh_map (this m) (bucket_count m)))
            = Ok (mkIt None (Some (this m)))
                 (mkState h' (fresh_map (this m) (bucket_count m)))).
Proof.
  intros (ls & cs & Hi) Hc.
  rewrite (inv_contents _ _ _ _ _ Hi Hc) in *.
  destruct (clear_full h m ls cs Hi) as (h' & Hrun & Hh').
  pose proof (inv_fresh h' (this m) (bucket_count m) (inv_cap _ _ _ _ Hi)) as Hi'.
  exists h'. split; [done|]. split; [done|]. split; [by eexists _, _|].
  split; [by rewrite (contents_spec _ _ _ _ Hi')|]. split.
  { rewrite (inv_entries_length _ _ _ _ Hi).
    apply size_split; [apply Hi| |done]. intros z. by eapply inv_alloc. }
  split; [|split].
  - intros z. rewrite Hh'. case_decide; auto.
  - intros key it. rewrite (find_spec _ _ _ _ key Hi). intros [= <-].
    unfold deref. simpl. destruct (locate h key ls) as [x|] eqn:Hloc; [|done].
    apply locate_Some in Hloc as [Hx _]. by rewrite Hh', decide_True.
  - intros key. by rewrite (find_spec _ _ _ _ key Hi').
Qed.

(** X12: [swap] exchanges what the two objects hold and keeps their
    addresses: each represents the pairs the other had, in the same order,
    with the same nodes; swapping twice gives the objects back.  An iterator
    obtained from one map before the swap still names that map as its
    container, so the map that holds the entry afterwards refuses to erase
    it. *)
Theorem swap_exchanges h a b la lb :
  shape h a → shape h b → contents h a = Some la → contents h b = Some lb →
  this (swap a b).1 = this a ∧ this (swap a b).2 = this b ∧
  shape h (swap a b).1 ∧ shape h (swap a b).2 ∧
  contents h (swap a b).1 = Some lb ∧ contents h (swap a b).2 = Some la ∧
  bucket_count (swap a b).1 = bucket_count b ∧
  bucket_count (swap a b).2 = bucket_count a ∧
  swap (swap a b).1 (swap a b).2 = (a, b) ∧
  (∀ key it,
     find key (mkState h b) = Ok it (mkState h b) →
     find key (mkState h (swap a b).1)
     = Ok (mkIt (current it) (Some (this a))) (mkState h (swap a b).1) ∧
     (this a ≠ this b →
      erase it (mkState h (swap a b).1)
      = Throw invalid_iterator (mkState h (swap a b).1))).
Proof.
  clear alloc alloc_fresh.
  intros (lsa & csa & Ha) (lsb & csb & Hb) Hca Hcb.
  assert (inv h (swap a b).1 lsb csb) as Ha' by (by apply (inv_this h b)).
  assert (inv h (swap a b).2 lsa csa) as Hb' by (by apply (inv_this h a)).
  split; [done|]. split; [done|].
  split; [by eexists _, _|]. split; [by eexists _, _|].
  split; [by rewrite (contents_spec _ _ _ _ Ha'), <- (contents_spec _ _ _ _ Hb)|].
  split; [by rewrite (contents_spec _ _ _ _ Hb'), <- (contents_spec _ _ _ _ Ha)|].
  split; [done|]. split; [done|]. split; [by destruct a, b|].
  intros key it. rewrite (find_spec _ _ _ _ key Hb). intros [= <-].
  split; [by rewrite (find_spec _ _ _ _ key Ha')|].
  intros Hne. apply erase_guard. right. simpl. congruence.
Qed.

(** ** Sequences of calls *)

Lemma remove_key_absent key l : assoc key l = None → remove_key key l = l.
Proof.
  clear alloc alloc_fresh.
  induction l as [|a l IH]; [done|]. simpl.
  destruct (key_equal a.1 key); [done|]. intros H. by rewrite IH.
Qed.

(** Two order lists of one map hold the same pairs. *)
Lemma same_entries h m ls cs ls' cs' :
  inv h m ls cs → inv h m ls' cs' → entries h ls' = entries h ls.
Proof.
  intros H1 H2.
  pose proof (contents_spec _ _ _ _ H1). pose proof (contents_spec _ _ _ _ H2).
  congruence.
Qed.

Lemma insert_framed h0 h m ls cs v :
  inv h m ls cs → load_ok m → in_range m → extends h0 h ls →
  ∃ it h' m' ls' cs',
    insert v (mkState h m)
    = Ok (it, match assoc v.1 (entries h ls) with Some _ => false | None => true end)
         (mkState h' m') ∧
    inv h' m' ls' cs' ∧ load_ok m' ∧ this m' = this m ∧
    (bucket_count m' = bucket_count m ∨
     bucket_count m' = 2 * bucket_count m ∧
     3 * bucket_count m ≤ 4 * element_count m) ∧
    element_count m' ≤ element_count m + 1 ∧
    entries h' ls' = match assoc v.1 (entries h ls) with
                     | Some _ => entries h ls
                     | None => entries h ls ++ [v]
                     end ∧
    extends h0 h' ls' ∧
    ∃ x, current it = Some x ∧ x ∈ ls'.
Proof.
  intros Hi Hl Hr Hx.
  assert (∀ x, x ∈ ls → is_Some (h !! x)) as Hal by (intros x; by eapply inv_alloc).
  destruct (insert_abs h m ls cs v Hi Hl Hr)
    as (it & h' & m' & lsA & csA & Hrun & HiA & Hl' & Hth & Hbc & Hent & Hec & _).
  destruct (insert_full h m ls cs v Hi Hl Hr)
    as (it2 & h2 & m2 & ls' & cs' & Hrun2 & Hi' & _ & _ & _ & _ & _ & Hcase
        & Hd & Hfp).
  rewrite Hrun in Hrun2. injection Hrun2 as <- _ <- <-.
  exists it, h', m', ls', cs'. repeat (split; [done|]). split.
  { destruct (load_reached _ _) eqn:Hlr; [right|by left].
    split; [done|]. by apply N.leb_le. }
  split; [destruct (assoc v.1 (entries h ls)); lia|].
  split; [by rewrite (same_entries _ _ _ _ _ _ HiA Hi')|].
  destruct (locate h v.1 ls) as [y|] eqn:Hloc.
  - destruct Hcase as [Hcur ->]. split.
    + intros z. specialize (Hx z). case_decide; [done|]. by rewrite Hfp.
    + exists y. split; [done|]. by apply locate_Some in Hloc as [? _].
  - destruct Hcase as (x & Hcur & -> & Hxn & _).
    assert (x ∉ ls) as Hxl.
    { intros Hin. destruct (Hal x Hin) as [? E]. congruence. }
    split.
    + intros z. pose proof (Hx z) as Hz.
      destruct (decide (z ∈ ls ++ [x])) as [Hin|Hin].
      * apply elem_of_app in Hin as [Hin| ->%list_elem_of_singleton].
        -- by rewrite decide_True in Hz.
        -- rewrite decide_False in Hz by done. congruence.
      * rewrite Hfp by done. rewrite decide_False in Hz; [done|].
        rewrite elem_of_app in Hin. tauto.
    + exists x. split; [done|]. rewrite elem_of_app, list_elem_of_singleton. tauto.
Qed.

Lemma erase_framed h0 h m ls cs key x :
  inv h m ls cs → load_ok m → in_range m → extends h0 h ls →
  locate h key ls = Some x →
  ∃ h' m' ls' cs',
    erase (mkIt (Some x) (Some (this m))) (mkState h m) = Ok tt (mkState h' m') ∧
    inv h' m' ls' cs' ∧ load_ok m' ∧ this m' = this m ∧
    bucket_count m' = bucket_count m ∧
    element_count m' ≤ element_count m ∧
    entries h' ls' = remove_key key (entries h ls) ∧
    extends h0 h' ls'.
Proof.
  clear alloc alloc_fresh.
  intros Hi Hl Hr Hx Hloc.
  destruct (erase_abs h m ls cs key x Hi Hl Hr Hloc)
    as (h' & m' & lsA & csA & Hrun & HiA & _ & _ & _ & _ & Hent & _).
  destruct (erase_full h m ls cs key x Hi Hl Hr Hloc)
    as (h2 & m2 & l1 & l2 & cs' & -> & Hxl & Hrun2 & Hi' & Hl' & Hth & Hbc & Hec
        & Hgone & _ & Hfp).
  rewrite Hrun in Hrun2. injection Hrun2 as <- <-.
  exists h', m', (l1 ++ l2), cs'. repeat (split; [done|]).
  split; [lia|]. split; [by rewrite (same_entries _ _ _ _ _ _ HiA Hi')|].
  intros z. pose proof (Hx z) as Hz.
  rewrite elem_of_app in Hxl.
  destruct (decide (z ∈ l1 ++ l2)) as [Hin|Hin].
  - rewrite decide_True in Hz; [done|].
    rewrite elem_of_app in Hin. rewrite elem_of_app, elem_of_cons. tauto.
  - destruct (decide (z = x)) as [->|Hne].
    + rewrite decide_True in Hz by (rewrite elem_of_app, elem_of_cons; tauto).
      congruence.
    + assert (z ∉ l1 ++ x :: l2) as Hout.
      { rewrite elem_of_app in Hin. rewrite elem_of_app, elem_of_cons. tauto. }
      rewrite decide_False in Hz by done. by rewrite Hfp.
Qed.

(** [operator[]] returns the node of a present key without calling
    [insert]. *)
Lemma subscript_run h m ls cs key :
  inv h m ls cs →
  subscript key (mkState h m)
  = match locate h key ls with
    | Some x => Ok x (mkState h m)
    | None =>
      (let* result := insert (key, default_T) in
       match current result.1 with
       | Some x => load (Some x) ;; ret x
       | None => fault
       end) (mkState h m)
    end.
Proof.
  intros Hi. unfold subscript.
  erewrite bind_Ok by (by eapply find_spec).
  erewrite bind_Ok by reflexivity. unfold it_neq, it_eq. simpl.
  destruct (locate h key ls) as [x|] eqn:Hloc; [|done]. simpl.
  apply locate_Some in Hloc as [Hx _].
  destruct (inv_alloc _ _ _ _ _ Hi Hx) as [n Hn].
  by erewrite bind_Ok by (by apply load_Ok).
Qed.

(** One call of a client. *)
Lemma run_op_spec h0 h m ls cs o :
  inv h m ls cs → load_ok m → in_range m → extends h0 h ls →
  ∃ h' m' ls' cs',
    run_op o (mkState h m) = Ok tt (mkState h' m') ∧
    inv h' m' ls' cs' ∧ load_ok m' ∧ this m' = this m ∧
    (bucket_count m' = bucket_count m ∨
     bucket_count m' = 2 * bucket_count m ∧
     3 * bucket_count m ≤ 4 * element_count m) ∧
    element_count m' ≤ element_count m + 1 ∧
    entries h' ls' = abs_op (entries h ls) o ∧
    extends h0 h' ls'.
Proof.
  intros Hi Hl Hr Hx.
  assert (∀ x, x ∈ ls → is_Some (h !! x)) as Hal by (intros x; by eapply inv_alloc).
  destruct o as [v|key|key|]; cbn [run_op abs_op].
  - destruct (insert_framed h0 h m ls cs v Hi Hl Hr Hx)
      as (it & h' & m' & ls' & cs' & Hrun & Hi' & Hl' & Hth & Hbc & Hec & Hent
          & Hx' & _).
    exists h', m', ls', cs'. split; [by erewrite bind_Ok by exact Hrun|]. done.
  - erewrite bind_Ok by (by eapply find_spec).
    erewrite bind_Ok by reflexivity. unfold it_neq, it_eq. simpl.
    destruct (locate h key ls) as [x|] eqn:Hloc.
    + rewrite bool_decide_eq_false_2 by done. simpl.
      destruct (erase_framed h0 h m ls cs key x Hi Hl Hr Hx Hloc)
        as (h' & m' & ls' & cs' & Hrun & Hi' & Hl' & Hth & Hbc & Hec & Hent & Hx').
      exists h', m', ls', cs'. repeat (split; [done|]).
      split; [by left|]. split; [lia|]. done.
    + rewrite bool_decide_eq_true_2 by done. simpl.
      exists h, m, ls, cs. repeat (split; [done|]).
      split; [by left|]. split; [lia|]. split; [|done].
      symmetry. by apply remove_key_absent, locate_None_assoc.
  - pose proof (subscript_run h m ls cs key Hi) as Hsub.
    pose proof (locate_assoc h key ls Hal) as Hla.
    destruct (locate h key ls) as [x|] eqn:Hloc.
    + apply locate_Some in Hloc as [Hin _]. destruct (Hal x Hin) as [n Hn].
      simpl in Hla. rewrite Hn in Hla. simpl in Hla. rewrite Hla.
      exists h, m, ls, cs. split; [by erewrite bind_Ok by exact Hsub|].
      repeat (split; [done|]). split; [by left|]. split; [lia|]. done.
    + simpl in Hla.
      destruct (insert_framed h0 h m ls cs (key, default_T) Hi Hl Hr Hx)
        as (it & h' & m' & ls' & cs' & Hrun & Hi' & Hl' & Hth & Hbc & Hec & Hent
            & Hx' & x & Hcur & Hin).
      simpl in Hrun, Hent. rewrite Hla in Hrun, Hent. rewrite Hla.
      destruct (inv_alloc _ _ _ _ _ Hi' Hin) as [n Hn].
      exists h', m', ls', cs'. split; [|done].
      erewrite bind_Ok in Hsub by exact Hrun. simpl in Hsub. rewrite Hcur in Hsub.
      erewrite bind_Ok in Hsub by (by apply load_Ok).
      by erewrite bind_Ok by exact Hsub.
  - destruct (clear_full h m ls cs Hi) as (h' & Hrun & Hh').
    eexists h', (fresh_map (this m) (bucket_count m)), [], _.
    split; [exact Hrun|]. split; [apply inv_fresh, (inv_cap _ _ _ _ Hi)|].
    split. { destruct Hl as [Hk _]. split; [done|]. simpl. lia. }
    split; [done|]. split; [by left|]. split; [simpl; lia|]. split; [done|].
    intros z. rewrite decide_False by apply not_elem_of_nil.
    rewrite Hh'. specialize (Hx z). by case_decide.
Qed.

Lemma run_ops_spec h0 os :
  ∀ k h m ls cs,
    inv h m ls cs → load_ok m → extends h0 h ls →
    bucket_count m ≤ 16 + 3 * k → element_count m ≤ k →
    k + N.of_nat (length os) ≤ 2 ^ 50 →
    ∃ h' m' ls' cs',
      run_ops os (mkState h m) = Ok tt (mkState h' m') ∧
      inv h' m' ls' cs' ∧ load_ok m' ∧ in_range m' ∧ this m' = this m ∧
      entries h' ls' = foldl abs_op (entries h ls) os ∧
      extends h0 h' ls'.
Proof.
  induction os as [|o os IH]; intros k h m ls cs Hi Hl Hx Hbc Hec Hk.
  - exists h, m, ls, cs. repeat (split; [done|]). split; [|done].
    unfold in_range. simpl in Hk. lia.
  - assert (in_range m) as Hr by (unfold in_range; lia).
    destruct (run_op_spec h0 h m ls cs o Hi Hl Hr Hx)
      as (h1 & m1 & ls1 & cs1 & Hrun & Hi1 & Hl1 & Hth & Hbc1 & Hec1 & Hent & Hx1).
    destruct (IH (k + 1) h1 m1 ls1 cs1 Hi1 Hl1 Hx1)
      as (h' & m' & ls' & cs' & Hrun' & Hi' & Hl' & Hr' & Hth' & Hent' & Hx');
      [lia|lia|simpl in Hk; lia|].
    exists h', m', ls', cs'. split.
    { cbn [run_ops]. by erewrite bind_Ok by exact Hrun. }
    repeat (split; [done|]). split; [congruence|].
    split; [by rewrite Hent', Hent|done].
Qed.

Lemma extends_refl h : extends h h [].
Proof.
  clear alloc alloc_fresh.
  intros z. by rewrite decide_False by apply not_elem_of_nil.
Qed.

(** X13: from a newly constructed map, every sequence of at most [2^50]
    calls of [insert], [erase(find(key))], [operator[]] and [clear] returns,
    in a well-formed state, and iteration then yields the list that the same
    calls give on an association list; [size] is its length. *)
Theorem calls_refine_list h0 addr os :
  N.of_nat (length os) ≤ 2 ^ 50 →
  ∃ h' m',
    run_ops os (mkState h0 (empty_map addr)) = Ok tt (mkState h' m') ∧
    wf h' m' ∧ this m' = addr ∧
    contents h' m' = Some (foldl abs_op [] os) ∧
    size (mkState h' m')
    = Ok (N.of_nat (length (foldl abs_op [] os))) (mkState h' m').
Proof.
  intros Hn.
  destruct (run_ops_spec h0 os 0 h0 (empty_map addr) [] _
              (inv_empty_map h0 addr) (proj1 (proj2 (wf_empty_map h0 addr)))
              (extends_refl h0))
    as (h' & m' & ls' & cs' & Hrun & Hi' & Hl' & Hr' & Hth & Hent & Hx');
    [simpl; unfold INITIAL_CAPACITY; lia|simpl; lia|lia|].
  exists h', m'. split; [done|]. split; [by split; [eexists _, _|]|].
  split; [done|]. split; [by rewrite (contents_spec _ _ _ _ Hi'), Hent|].
  unfold size, gets. simpl.
  by rewrite (inv_count _ _ _ _ Hi'), <- (inv_entries_length _ _ _ _ Hi'), Hent.
Qed.

(** X14: after any such sequence of calls no two pairs of the map have
    equal keys, and [count] of every key is 0 or 1. *)
Theorem calls_keep_keys_distinct h0 addr os :
  N.of_nat (length os) ≤ 2 ^ 50 →
  ∃ h' m' l,
    run_ops os (mkState h0 (empty_map addr)) = Ok tt (mkState h' m') ∧
    contents h' m' = Some l ∧ distinct_keys l ∧
    ∀ key, count key (mkState h' m') = Ok 0 (mkState h' m') ∨
           count key (mkState h' m') = Ok 1 (mkState h' m').
Proof.
  intros Hn.
  destruct (run_ops_spec h0 os 0 h0 (empty_map addr) [] _
              (inv_empty_map h0 addr) (proj1 (proj2 (wf_empty_map h0 addr)))
              (extends_refl h0))
    as (h' & m' & ls' & cs' & Hrun & Hi' & _);
    [simpl; unfold INITIAL_CAPACITY; lia|simpl; lia|lia|].
  exists h', m', (entries h' ls'). split; [done|].
  split; [by apply contents_spec in Hi'|]. split; [by eapply inv_distinct|].
  intros key. rewrite (count_run _ _ _ _ key Hi').
  destruct (locate h' key ls'); auto.
Qed.

(** X15: after any such sequence of calls the heap is the initial heap, with
    every node it had unchanged, and exactly one more node for each entry of
    the map: nothing is leaked and nothing foreign is freed or written. *)
Theorem calls_leak_nothing h0 addr os :
  N.of_nat (length os) ≤ 2 ^ 50 →
  ∃ h' m' l,
    run_ops os (mkState h0 (empty_map addr)) = Ok tt (mkState h' m') ∧
    contents h' m' = Some l ∧
    base.size h' = (base.size h0 + length l)%nat ∧
    ∀ z, is_Some (h0 !! z) → h' !! z = h0 !! z.
Proof.
  intros Hn.
  destruct (run_ops_spec h0 os 0 h0 (empty_map addr) [] _
              (inv_empty_map h0 addr) (proj1 (proj2 (wf_empty_map h0 addr)))
              (extends_refl h0))
    as (h' & m' & ls' & cs' & Hrun & Hi' & _ & _ & _ & _ & Hx');
    [simpl; unfold INITIAL_CAPACITY; lia|simpl; lia|lia|].
  exists h', m', (entries h' ls'). split; [done|].
  split; [by apply contents_spec in Hi'|]. split.
  - rewrite (inv_entries_length _ _ _ _ Hi').
    apply size_split; [apply Hi'|intros z; by eapply inv_alloc|].
    intros z. specialize (Hx' z). by case_decide.
  - intros z [n Hn0]. specialize (Hx' z). case_decide; congruence.
Qed.

(** X16: along any such sequence of calls the capacity is 16 doubled some
    number of times; one more call leaves it as it is or doubles it, never
    reduces it, and leaves the load factor at most 0.75. *)
Theorem calls_grow_capacity h0 addr os o :
  N.of_nat (length os) < 2 ^ 50 →
  ∃ h1 m1 h2 m2,
    run_ops os (mkState h0 (empty_map addr)) = Ok tt (mkState h1 m1) ∧
    run_op o (mkState h1 m1) = Ok tt (mkState h2 m2) ∧
    (∃ k, bucket_count m1 = 16 * 2 ^ k) ∧
    (bucket_count m2 = bucket_count m1 ∨ bucket_count m2 = 2 * bucket_count m1) ∧
    4 * element_count m2 ≤ 3 * bucket_count m2.
Proof.
  intros Hn.
  destruct (run_ops_spec h0 os 0 h0 (empty_map addr) [] _
              (inv_empty_map h0 addr) (proj1 (proj2 (wf_empty_map h0 addr)))
              (extends_refl h0))
    as (h1 & m1 & ls1 & cs1 & Hrun & Hi1 & Hl1 & Hr1 & _ & _ & Hx1);
    [simpl; unfold INITIAL_CAPACITY; lia|simpl; lia|lia|].
  destruct (run_op_spec h0 h1 m1 ls1 cs1 o Hi1 Hl1 Hr1 Hx1)
    as (h2 & m2 & ls2 & cs2 & Hrun2 & _ & Hl2 & _ & Hbc & _).
  exists h1, m1, h2, m2. split; [done|]. split; [done|].
  split; [apply Hl1|]. split; [tauto|apply Hl2].
Qed.

(** ** What copying allocates and assignment releases *)

Lemma extends_fresh h0 h (ls : list loc) y : extends h0 h ls → y ∈ ls → h0 !! y = None.
Proof.
  clear alloc alloc_fresh.
  intros Hx Hy. specialize (Hx y). by rewrite decide_True in Hx.
Qed.

Lemma extends_same h0 h (ls : list loc) z :
  extends h0 h ls → is_Some (h0 !! z) → h !! z = h0 !! z.
Proof.
  clear alloc alloc_fresh.
  intros Hx [n Hz]. specialize (Hx z). case_decide; congruence.
Qed.

(** The loop of the copy constructor again, with the allocation accounted
    for: [p] copied and [q] to go. *)
Lemma copy_loop_exact h X lsX csX :
  inv h X lsX csX → load_ok X → in_range X →
  ∀ q p f hk Yk lsY csY,
    lsX = p ++ q →
    inv hk Yk lsY csY → load_ok Yk → bucket_count Yk = bucket_count X →
    entries hk lsY = entries h p →
    (∀ y, y ∈ lsY → ∃ x, x ∈ p ∧ key_at hk y = key_at h x) →
    extends h hk lsY →
    (length q < f)%nat →
    ∃ h' Y' lsY' csY',
      copy_loop f (mkIt (hd_or None q) (Some (this X))) (mkState hk Yk)
      = Ok tt (mkState h' Y') ∧
      inv h' Y' lsY' csY' ∧ load_ok Y' ∧
      bucket_count Y' = bucket_count X ∧ this Y' = this Yk ∧
      entries h' lsY' = entries h lsX ∧
      extends h h' lsY'.
Proof.
  intros HiX HlX HrX.
  assert (∀ x, x ∈ lsX → is_Some (h !! x)) as HalX by (intros x; by eapply inv_alloc).
  induction q as [|x q IH];
    intros p f hk Yk lsY csY Hsplit HiY HlY Hbc Hent Hkeys Hext Hf.
  - rewrite app_nil_r in Hsplit. subst p.
    exists hk, Yk, lsY, csY. split; [by destruct f|]. done.
  - destruct f as [|f]; [simpl in Hf; lia|].
    assert (x ∈ lsX) as Hx by (subst lsX; rewrite elem_of_app, elem_of_cons; tauto).
    destruct (HalX x Hx) as [n Hn].
    assert (list_next n = hd_or None q) as Hnext.
    { pose proof (inv_fwd _ _ _ _ HiX) as Hp. rewrite Hsplit in Hp.
      apply path_middle in Hp. rewrite Hn in Hp. by injection Hp. }
    assert (∀ y, y ∈ lsY → is_Some (hk !! y)) as HalY
      by (intros y; by eapply inv_alloc).
    assert (length lsY = length p) as Hlen.
    { eapply entries_allocated_length; [exact HalY| |exact Hent].
      intros z Hz. apply HalX. subst lsX. rewrite elem_of_app. tauto. }
    assert (locate hk (data n).1 lsY = None) as Hloc.
    { apply locate_None. intros y Hy.
      destruct (Hkeys y Hy) as (x0 & Hx0 & Hk).
      unfold matches. rewrite Hk.
      destruct (key_at h x0) as [k0|] eqn:Hk0; [|done].
      destruct (key_equal k0 (data n).1) eqn:He; [|done]. exfalso.
      assert (x0 = x) as ->.
      { eapply (inv_uniq _ _ _ _ HiX); eauto.
        - subst lsX. rewrite elem_of_app. tauto.
        - unfold key_at. by rewrite Hn. }
      pose proof (inv_nodup _ _ _ _ HiX) as Hnd. rewrite Hsplit in Hnd.
      apply NoDup_app in Hnd as (_ & Hd & _). apply (Hd x Hx0). left. }
    assert (in_range Yk) as HrY by (unfold in_range; by rewrite Hbc).
    destruct (insert_new hk Yk lsY csY (data n) HiY HlY HrY Hloc)
      as (x' & h1 & Y1 & cs1 & Hrun & Hi1 & Hl1 & Hx' & Hdx' & Hd & Hfp & Hth
          & Hec & Hbc1).
    assert (load_reached (element_count Yk) (bucket_count Yk) = false) as Hno.
    { unfold load_reached. apply N.leb_gt.
      rewrite (inv_count _ _ _ _ HiY), Hlen, Hbc.
      destruct HlX as [_ HlX]. rewrite (inv_count _ _ _ _ HiX), Hsplit in HlX.
      rewrite length_app in HlX. simpl in HlX. lia. }
    rewrite Hno in Hbc1.
    assert (x' ∉ lsY) as Hx'Y.
    { intros Hin. destruct (HalY x' Hin) as [? E]. congruence. }
    assert (h !! x' = None) as Hx'h.
    { pose proof (Hext x') as E. rewrite decide_False in E by done. congruence. }
    assert (extends h h1 (lsY ++ [x'])) as Hext1.
    { intros z. pose proof (Hext z) as Hz.
      destruct (decide (z ∈ lsY ++ [x'])) as [Hin|Hin].
      - apply elem_of_app in Hin as [Hin| ->%list_elem_of_singleton]; [|done].
        by rewrite decide_True in Hz.
      - rewrite elem_of_app, list_elem_of_singleton in Hin.
        rewrite decide_False in Hz by tauto. rewrite Hfp; [done|tauto..]. }
    destruct (IH (p ++ [x]) f h1 Y1 (lsY ++ [x']) cs1)
      as (h' & Y' & lsY' & csY' & Hrun' & Hi' & Hl' & Hbc' & Hth' & Hent' & Hext');
      try done.
    + by rewrite <- app_assoc.
    + congruence.
    + rewrite !entries_app. f_equal.
      * rewrite <- Hent. apply entries_ext. intros y Hy. apply Hd.
        intros ->. done.
      * unfold entries. cbn [omap list_omap]. by rewrite Hdx', Hn.
    + intros y [Hy| ->%list_elem_of_singleton]%elem_of_app.
      * destruct (Hkeys y Hy) as (x0 & Hx0 & Hk). exists x0.
        split; [rewrite elem_of_app; tauto|]. rewrite <- Hk.
        apply key_at_of_data, Hd. by intros ->.
      * exists x. split; [rewrite elem_of_app, list_elem_of_singleton; tauto|].
        unfold key_at. rewrite Hn. simpl.
        destruct (h1 !! x'); simpl in *; congruence.
    + simpl in Hf. lia.
    + exists h', Y', lsY', csY'. split; [|by rewrite Hth', Hth].
      cbn [copy_loop]. unfold it_neq, it_eq. simpl.
      erewrite bind_Ok by reflexivity. cbn [mem]. unfold deref. simpl.
      rewrite (extends_same _ _ _ _ Hext) by eauto. rewrite Hn. simpl.
      erewrite bind_Ok by exact Hrun.
      erewrite bind_Ok by reflexivity. cbn [mem].
      unfold const_iterator_preinc, step_to. simpl.
      rewrite (extends_same _ _ _ _ Hext1) by eauto. rewrite Hn, Hnext. exact Hrun'.
Qed.

Lemma copy_construct_exact h X lsX csX addr :
  inv h X lsX csX → load_ok X → in_range X →
  ∃ h' Y lsY csY,
    copy_construct addr X h = Ok tt (mkState h' Y) ∧
    inv h' Y lsY csY ∧ load_ok Y ∧ this Y = addr ∧
    bucket_count Y = bucket_count X ∧
    entries h' lsY = entries h lsX ∧
    extends h h' lsY.
Proof.
  intros HiX HlX HrX. unfold copy_construct.
  erewrite bind_Ok by apply fuel_Ok.
  rewrite (inv_head _ _ _ _ HiX).
  destruct (copy_loop_exact h X lsX csX HiX HlX HrX lsX [] (S (base.size h)) h
              (mkMap addr (replicate (N.to_nat (bucket_count X)) None)
                     (bucket_count X) 0 None None)
              [] (replicate (N.to_nat (bucket_count X)) []))
    as (h' & Y & lsY & csY & Hrun & Hi & Hl & Hbc & Hth & Hent & Hext);
    try done.
  - apply inv_fresh_map, (inv_cap _ _ _ _ HiX).
  - destruct HlX as [Hk _]. split; [done|]. simpl. lia.
  - by intros y ?%elem_of_nil.
  - apply Nat.lt_succ_r, length_le_size; [apply HiX|].
    intros x. by eapply inv_alloc.
  - by exists h', Y, lsY, csY.
Qed.

Lemma extends_size h0 h m ls cs :
  inv h m ls cs → extends h0 h ls →
  base.size h = (base.size h0 + length ls)%nat.
Proof.
  clear alloc alloc_fresh.
  intros Hi Hx. apply size_split; [apply Hi|intros z; by eapply inv_alloc|].
  intros z. specialize (Hx z). by case_decide.
Qed.

(** X17: the copy constructor gives the copy the capacity of its source and
    allocates exactly one node for each pair, leaving every node that
    existed as it was; destroying the copy gives the heap back as it was
    before the copy. *)
Theorem copy_allocates_exactly h X l addr :
  wf h X → contents h X = Some l →
  ∃ h' Y,
    copy_construct addr X h = Ok tt (mkState h' Y) ∧
    bucket_count Y = bucket_count X ∧
    contents h' Y = Some l ∧
    base.size h' = (base.size h + length l)%nat ∧
    (∀ z, is_Some (h !! z) → h' !! z = h !! z) ∧
    destroy (mkState h' Y) = Ok tt (mkState h (fresh_map addr (bucket_count X))).
Proof.
  intros ((ls & cs & Hi) & Hl & Hr) Hc.
  rewrite (inv_contents _ _ _ _ _ Hi Hc) in *.
  destruct (copy_construct_exact h X ls cs addr Hi Hl Hr)
    as (h' & Y & lsY & csY & Hrun & HiY & _ & Hth & Hbc & Hent & Hext).
  exists h', Y. split; [done|]. split; [done|].
  split; [by rewrite (contents_spec _ _ _ _ HiY), Hent|]. split.
  { rewrite <- Hent, (inv_entries_length _ _ _ _ HiY). by eapply extends_size. }
  split; [intros z; by eapply extends_same|].
  destruct (clear_full h' Y lsY csY HiY) as (h2 & Hclear & Hh2).
  unfold destroy. rewrite Hclear, Hth, Hbc. do 2 f_equal.
  apply map_eq. intros z. rewrite Hh2. specialize (Hext z). by case_decide.
Qed.

(** Assignment between two distinct objects, with the heap it leaves. *)
Lemma assign_exact h Z X lsZ csZ lsX csX tmp :
  inv h Z lsZ csZ → inv h X lsX csX → load_ok X → in_range X →
  (∀ z, z ∈ lsX → z ∉ lsZ) → this Z ≠ this X →
  ∃ h1 h' Z' lsY csY,
    assign tmp X (mkState h Z) = Ok tt (mkState h' Z') ∧
    inv h' Z' lsY csY ∧ bucket_count Z' = bucket_count X ∧ this Z' = this Z ∧
    entries h' lsY = entries h lsX ∧
    extends h h1 lsY ∧
    (∀ z, h' !! z = if decide (z ∈ lsZ) then None else h1 !! z).
Proof.
  intros HiZ HiX HlX HrX Hd Hne.
  assert (∀ z, z ∈ lsZ → is_Some (h !! z)) as HalZ by (intros z; by eapply inv_alloc).
  destruct (copy_construct_exact h X lsX csX tmp HiX HlX HrX)
    as (h1 & Y & lsY & csY & Hrun & HiY & _ & Hth & Hbc & Hent & Hext).
  set (temp' := mkMap (this Y) (buckets Z) (bucket_count Z) (element_count Z)
                      (head Z) (tail Z)).
  set (Z' := mkMap (this Z) (buckets Y) (bucket_count Y) (element_count Y)
                   (head Y) (tail Y)).
  assert (inv h1 temp' lsZ csZ) as Hit.
  { apply (inv_this h1 Z); try done.
    eapply inv_ext; [|exact HiZ]. intros z Hz. by eapply extends_same, HalZ. }
  destruct (clear_full h1 temp' lsZ csZ Hit) as (h2 & Hclear & Hh2).
  assert (∀ y, y ∈ lsY → y ∉ lsZ) as HdY.
  { intros y Hy Hz. destruct (HalZ y Hz) as [? Hc].
    rewrite (extends_fresh _ _ _ _ Hext Hy) in Hc. done. }
  assert (∀ y, y ∈ lsY → h2 !! y = h1 !! y) as Hkeep.
  { intros y Hy. rewrite Hh2, decide_False; [done|]. by apply HdY. }
  exists h1, h2, Z', lsY, csY. split.
  { unfold assign. simpl. rewrite decide_False by done. rewrite Hrun. simpl.
    fold temp' Z'. unfold destroy. by rewrite Hclear. }
  split.
  { apply (inv_this h2 Y); try done. eapply inv_ext; [|exact HiY]. done. }
  split; [done|]. split; [done|]. split; [|done].
  rewrite <- Hent. apply entries_ext. intros y Hy. by rewrite Hkeep.
Qed.

(** X18: assignment from another map gives the target the capacity and the
    pairs of the source, frees the nodes the target had, so that every
    iterator to an old entry of the target loses its node, and allocates one
    node for each pair of the source: the heap grows by the difference of
    the two sizes. *)
Theorem assign_releases h X Z lX lZ tmp :
  wf h X → separate h X Z → this Z ≠ this X →
  contents h X = Some lX → contents h Z = Some lZ →
  ∃ h' Z',
    assign tmp X (mkState h Z) = Ok tt (mkState h' Z') ∧
    this Z' = this Z ∧ bucket_count Z' = bucket_count X ∧
    contents h' Z' = Some lX ∧
    (base.size h' + length lZ = base.size h + length lX)%nat ∧
    (∀ key it, find key (mkState h Z) = Ok it (mkState h Z) →
               deref h' it = None).
Proof.
  intros (_ & Hl & Hr) (lsX & csX & lsZ & csZ & HiX & HiZ & Hd) Hne HcX HcZ.
  rewrite (inv_contents _ _ _ _ _ HiX HcX), (inv_contents _ _ _ _ _ HiZ HcZ) in *.
  destruct (assign_exact h Z X lsZ csZ lsX csX tmp HiZ HiX Hl Hr Hd Hne)
    as (h1 & h' & Z' & lsY & csY & Hrun & HiY & Hbc & Hth & Hent & Hext & Hh').
  assert (∀ z, z ∈ lsZ → is_Some (h !! z)) as HalZ by (intros z; by eapply inv_alloc).
  assert (∀ z, z ∈ lsZ → is_Some (h1 !! z)) as HalZ1.
  { intros z Hz. rewrite (extends_same _ _ _ _ Hext); by apply HalZ. }
  exists h', Z'. repeat (split; [done|]).
  split; [by rewrite (contents_spec _ _ _ _ HiY), Hent|]. split.
  - rewrite (inv_entries_length _ _ _ _ HiX), (inv_entries_length _ _ _ _ HiZ).
    pose proof (size_split h1 h' lsZ (inv_nodup _ _ _ _ HiZ) HalZ1 Hh') as E1.
    assert (base.size h1 = (base.size h + length lsY)%nat) as E2.
    { apply size_split.
      - apply HiY.
      - intros z Hz. destruct (inv_alloc _ _ _ _ z HiY Hz) as [n Hn].
        rewrite Hh' in Hn. case_decide; [done|]. by eexists.
      - intros z. specialize (Hext z). by case_decide. }
    assert (length lsY = length lsX) as E3.
    { rewrite <- (inv_entries_length _ _ _ _ HiY), Hent.
      by apply (inv_entries_length _ _ _ _ HiX). }
    lia.
  - intros key it. rewrite (find_spec _ _ _ _ key HiZ). intros [= <-].
    unfold deref. simpl. destruct (locate h key lsZ) as [x|] eqn:Hloc; [|done].
    apply locate_Some in Hloc as [Hx _]. by rewrite Hh', decide_True.
Qed.

(** X19: after [operator[]] with some key, [at] and [operator[]] with that
    key return the same reference and change no state, and [count] of the
    key is 1. *)
Theorem subscript_then_at h m key :
  wf h m →
  ∃ x h' m',
    subscript key (mkState h m) = Ok x (mkState h' m') ∧
    at_ key (mkState h' m') = Ok x (mkState h' m') ∧
    subscript key (mkState h' m') = Ok x (mkState h' m') ∧
    count key (mkState h' m') = Ok 1 (mkState h' m') ∧
    is_Some (h' !! x).
Proof.
  intros ((ls & cs & Hi) & Hl & Hr).
  assert (∀ x, x ∈ ls → is_Some (h !! x)) as Hal by (intros x; by eapply inv_alloc).
  pose proof (subscript_run h m ls cs key Hi) as Hsub.
  destruct (locate h key ls) as [x|] eqn:Hloc.
  - exists x, h, m. split; [done|].
    split; [by rewrite (at_spec _ _ _ _ key Hi), Hloc|].
    split; [done|]. split; [by rewrite (count_run _ _ _ _ key Hi), Hloc|].
    apply Hal. by apply locate_Some in Hloc as [? _].
  - destruct (insert_full h m ls cs (key, default_T) Hi Hl Hr)
      as (it & h' & m' & ls' & cs' & Hrun & Hi' & _ & _ & _ & _ & _ & Hcase
          & Hd & _).
    simpl in Hrun, Hcase. rewrite Hloc in Hrun, Hcase.
    destruct Hcase as (x & Hcur & -> & Hx & Hdx).
    assert (locate h' key (ls ++ [x]) = Some x) as Hloc'.
    { rewrite locate_app, (locate_kept h h' _ _ Hd), Hloc.
      eapply locate_new; [exact Hdx|]. apply key_equal_refl. }
    assert (is_Some (h' !! x)) as [n Hn].
    { apply (inv_alloc _ _ _ _ x Hi'). rewrite elem_of_app, list_elem_of_singleton. tauto. }
    exists x, h', m'. split.
    { rewrite Hsub. erewrite bind_Ok by exact Hrun. simpl. rewrite Hcur.
      by erewrite bind_Ok by (by apply load_Ok). }
    split; [by rewrite (at_spec _ _ _ _ key Hi'), Hloc'|].
    split; [by rewrite (subscript_run _ _ _ _ key Hi'), Hloc'|].
    split; [by rewrite (count_run _ _ _ _ key Hi'), Hloc'|]. by eexists.
Qed.

End LinkedHashMap.

Arguments Node : clear implicits.
Arguments state : clear implicits.
Arguments M : clear implicits.

(** * Instances

    The map from 64-bit keys to numbers with the hash and equality of the
    standard library ([std::hash] of an integer is the integer), [T()] being
    zero, and an allocator that returns the least address above those in
    use. *)

Module Instance.

Definition hasher (k : N) : N := k.
Definition key_equal (a b : N) : bool := a =? b.
Definition default_T : N := 0.
Definition alloc (h : gmap positive (Node N N)) : positive :=
  fresh (dom h : gset positive).

Lemma key_equal_refl a : key_equal a a = true.
Proof. apply N.eqb_refl. Qed.

Lemma key_equal_sym a b : key_equal a b = true → key_equal b a = true.
Proof. unfold key_equal. rewrite !N.eqb_eq. done. Qed.

Lemma key_equal_trans a b c :
  key_equal a b = true → key_equal b c = true → key_equal a c = true.
Proof. unfold key_equal. rewrite !N.eqb_eq. congruence. Qed.

Lemma hasher_equal a b : key_equal a b = true → hasher a = hasher b.
Proof. unfold key_equal. rewrite N.eqb_eq. by intros ->. Qed.

Lemma alloc_fresh h : h !! alloc h = None.
Proof. unfold alloc. apply not_elem_of_dom. apply is_fresh. Qed.

Definition run {A} (c : M N N A) (s : state N N) : state N N :=
  match c s with
  | Ok _ s' => s'
  | _ => s
  end.

Fixpoint insert_all (l : list (N * N)) (s : state N N) : state N N :=
  match l with
  | [] => s
  | v :: l' => insert_all l' (run (insert hasher key_equal alloc v) s)
  end.

(** Every insertion of the list returns, and in a state whose capacity is in
    range. *)
Fixpoint inserts_ok (l : list (N * N)) (s : state N N) : bool :=
  match l with
  | [] => true
  | v :: l' =>
    match insert hasher key_equal alloc v s with
    | Ok _ s' => (bucket_count (obj s') <=? 2 ^ 52) && inserts_ok l' s'
    | _ => false
    end
  end.

(** The empty map at address 1; the map of (1, 10), (17, 20), (3, 30), where
    1 and 17 share a bucket; and the map of twelve pairs in sixteen buckets,
    which is at the load threshold. *)
Definition s0 : state N N := mkState ∅ (empty_map 1).
Definition l3 : list (N * N) := [(1, 10); (17, 20); (3, 30)].
Definition s3 : state N N := Eval vm_compute in insert_all l3 s0.
Definition l12 : list (N * N) :=
  [(0, 0); (1, 10); (2, 20); (3, 30); (4, 40); (5, 50); (6, 60); (7, 70);
   (8, 80); (9, 90); (10, 100); (11, 110)].
Definition s12 : state N N := Eval vm_compute in insert_all l12 s0.

Lemma wf_s0 : wf hasher key_equal (mem s0) (obj s0).
Proof. apply wf_empty_map. Qed.

Lemma wf_insert_all l s :
  wf hasher key_equal (mem s) (obj s) → inserts_ok l s = true →
  wf hasher key_equal (mem (insert_all l s)) (obj (insert_all l s)).
Proof.
  revert s. induction l as [|v l IH]; intros s Hwf Hok; [done|].
  simpl in *. unfold run.
  destruct (insert hasher key_equal alloc v s) as [r s'| | |] eqn:Hrun; try done.
  apply andb_true_iff in Hok as [Hr Hok]. apply IH; [|done].
  destruct s, s'. simpl in *.
  eapply insert_wf;
    eauto using key_equal_sym, key_equal_trans, hasher_equal, alloc_fresh.
  unfold in_range. by apply N.leb_le.
Qed.

Lemma wf_s3 : wf hasher key_equal (mem s3) (obj s3).
Proof. by apply (wf_insert_all l3 s0 wf_s0). Qed.

Lemma wf_s12 : wf hasher key_equal (mem s12) (obj s12).
Proof. by apply (wf_insert_all l12 s0 wf_s0). Qed.

(** C1 at [s3]: inserting (17, 99) where 17 is present. *)
Lemma insert_existing_key_witness :
  ∃ it h' m',
    insert hasher key_equal alloc (17, 99) (mkState (mem s3) (obj s3))
    = Ok (it, false) (mkState h' m') ∧
    find hasher key_equal 17 (mkState (mem s3) (obj s3))
    = Ok it (mkState (mem s3) (obj s3)) ∧
    deref (mem s3) it = Some (17, 20) ∧ deref h' it = Some (17, 20) ∧
    contents h' m' = Some l3 ∧
    element_count m' = element_count (obj s3).
Proof.
  apply (insert_existing_key hasher key_equal alloc key_equal_sym
           key_equal_trans hasher_equal alloc_fresh
           (mem s3) (obj s3) l3 17 99 (17, 20)).
  - apply wf_s3.
  - by vm_compute.
  - by vm_compute.
Defined.


(** C3 for the keys 1, 2 and 3. *)
Lemma insertion_order_witness :
  ∃ r3 s3' itb r5 s5,
    (insert hasher key_equal alloc (1, 10) ;;
     insert hasher key_equal alloc (2, 20) ;;
     insert hasher key_equal alloc (3, 30)) (mkState ∅ (empty_map 1))
    = Ok r3 s3' ∧
    contents (mem s3') (obj s3') = Some [(1, 10); (2, 20); (3, 30)] ∧
    find hasher key_equal 2 s3' = Ok itb s3' ∧
    (erase hasher itb ;; insert hasher key_equal alloc (2, 21)) s3' = Ok r5 s5 ∧
    contents (mem s5) (obj s5) = Some [(1, 10); (3, 30); (2, 21)].
Proof.
  apply (insertion_order hasher key_equal alloc key_equal_refl key_equal_sym
           key_equal_trans hasher_equal alloc_fresh ∅ (empty_map 1)
           1 2 3 10 20 30 21).
  - apply wf_s0.
  - reflexivity.
  - reflexivity.
  - reflexivity.
  - reflexivity.
Defined.

(** C4 at [s3], rehashed into 32 buckets. *)
Lemma rehash_keeps_order_witness :
  ∃ h' m',
    rehash hasher 32 (mkState (mem s3) (obj s3)) = Ok tt (mkState h' m') ∧
    shape hasher key_equal h' m' ∧ bucket_count m' = 32 ∧
    (∀ key it,
       find hasher key_equal key (mkState (mem s3) (obj s3))
       = Ok it (mkState (mem s3) (obj s3)) →
       find hasher key_equal key (mkState h' m') = Ok it (mkState h' m')) ∧
    (∀ x, list_next <$> h' !! x = list_next <$> mem s3 !! x ∧
          list_prev <$> h' !! x = list_prev <$> mem s3 !! x ∧
          data <$> h' !! x = data <$> mem s3 !! x) ∧
    head m' = head (obj s3) ∧ tail m' = tail (obj s3) ∧
    element_count m' = element_count (obj s3) ∧
    contents h' m' = contents (mem s3) (obj s3).
Proof.
  apply (rehash_keeps_order hasher key_equal key_equal_sym key_equal_trans
           hasher_equal (mem s3) (obj s3) 32).
  - apply wf_s3.
  - reflexivity.
Defined.

(** X20 at [s3]: the past-the-end iterator and an iterator of the container
    at address 9 are refused; the iterator to the entry of 17 is erased. *)
Lemma erase_checked_witness :
  erase hasher (mkIt None (Some 1%positive)) (mkState (mem s3) (obj s3))
  = Throw invalid_iterator (mkState (mem s3) (obj s3)) ∧
  erase hasher (mkIt (Some 2%positive) (Some 9%positive)) (mkState (mem s3) (obj s3))
  = Throw invalid_iterator (mkState (mem s3) (obj s3)) ∧
  ∃ h' m',
    erase hasher (mkIt (Some 2%positive) (Some 1%positive))
          (mkState (mem s3) (obj s3))
    = Ok tt (mkState h' m') ∧
    shape hasher key_equal h' m' ∧
    element_count m' + 1 = element_count (obj s3) ∧
    contents h' m' = Some [(1, 10); (3, 30)] ∧
    (length [(1, 10); (3, 30)] + 1 = length l3)%nat ∧
    find hasher key_equal 17 (mkState h' m')
    = Ok (mkIt None (Some (this m'))) (mkState h' m').
Proof.
  pose proof (λ it, erase_checked hasher key_equal key_equal_sym key_equal_trans
                      hasher_equal (mem s3) (obj s3) l3 it wf_s3 eq_refl) as H.
  split; [|split].
  - apply (H (mkIt None (Some 1%positive))). by left.
  - apply (H (mkIt (Some 2%positive) (Some 9%positive))). by right.
  - destruct (H (mkIt (Some 2%positive) (Some 1%positive))) as (_ & _ & H3).
    apply (H3 17).
    + by vm_compute.
    + done.
Defined.

(** C6 at [s3], for the present key 17. *)
Lemma at_checked_witness :
  ∃ x, at_ hasher key_equal 17 (mkState (mem s3) (obj s3))
       = Ok x (mkState (mem s3) (obj s3)) ∧
       at_const hasher key_equal 17 (mkState (mem s3) (obj s3))
       = Ok x (mkState (mem s3) (obj s3)) ∧
       subscript_const hasher key_equal 17 (mkState (mem s3) (obj s3))
       = Ok x (mkState (mem s3) (obj s3)) ∧
       data <$> mem s3 !! x = Some (17, 20).
Proof.
  apply (at_checked hasher key_equal key_equal_sym key_equal_trans hasher_equal
           (mem s3) (obj s3) l3 17).
  - apply wf_s3.
  - by vm_compute.
Defined.

(** C7 at [s3], for the absent key 5. *)
Lemma subscript_total_witness :
  ∃ x h' m',
    subscript hasher key_equal default_T alloc 5 (mkState (mem s3) (obj s3))
    = Ok x (mkState h' m') ∧
    contents h' m' = Some (l3 ++ [(5, default_T)]) ∧
    element_count m' = element_count (obj s3) + 1 ∧
    data <$> h' !! x = Some (5, default_T).
Proof.
  apply (subscript_total hasher key_equal default_T alloc key_equal_sym
           key_equal_trans hasher_equal alloc_fresh (mem s3) (obj s3) l3 5).
  - apply wf_s3.
  - by vm_compute.
Defined.

(** C8 at [s12]: inserting the present key 3 at the load threshold doubles
    the sixteen buckets. *)
Lemma insert_checks_capacity_first_witness :
  ∃ it h1 m1 h' m',
    ensure_capacity hasher (mkState (mem s12) (obj s12)) = Ok tt (mkState h1 m1) ∧
    insert hasher key_equal alloc (3, 99) (mkState (mem s12) (obj s12))
    = Ok (it, false) (mkState h' m') ∧
    bucket_count m1 = 32 ∧
    bucket_count m' = bucket_count m1 ∧
    (is_Some (assoc key_equal 3 l12) →
     h' = h1 ∧ m' = m1 ∧
     find hasher key_equal 3 (mkState h1 m1) = Ok it (mkState h1 m1) ∧
     contents h' m' = Some l12 ∧
     element_count m' = element_count (obj s12)).
Proof.
  apply (insert_checks_capacity_first hasher key_equal alloc key_equal_sym
           key_equal_trans hasher_equal alloc_fresh (mem s12) (obj s12) l12
           (3, 99)).
  - apply wf_s12.
  - by vm_compute.
Defined.

(** C9 at [s3]. *)
Lemma copy_independent_witness :
  (∀ addr,
     ∃ h' Y,
       copy_construct hasher key_equal alloc addr (obj s3) (mem s3)
       = Ok tt (mkState h' Y) ∧
       this Y = addr ∧ wf hasher key_equal h' Y ∧ wf hasher key_equal h' (obj s3) ∧
       contents h' Y = Some l3 ∧ contents h' (obj s3) = Some l3 ∧
       element_count Y = element_count (obj s3) ∧
       (∀ x, is_Some (mem s3 !! x) → h' !! x = mem s3 !! x) ∧
       separate hasher key_equal h' (obj s3) Y ∧
       unaffected_by hasher key_equal alloc h' (obj s3) Y ∧
       unaffected_by hasher key_equal alloc h' Y (obj s3)) ∧
  (∀ tmp Z,
     separate hasher key_equal (mem s3) (obj s3) Z → this Z ≠ this (obj s3) →
     ∃ h' Z',
       assign hasher key_equal alloc tmp (obj s3) (mkState (mem s3) Z)
       = Ok tt (mkState h' Z') ∧
       this Z' = this Z ∧ wf hasher key_equal h' Z' ∧
       wf hasher key_equal h' (obj s3) ∧
       contents h' Z' = Some l3 ∧ contents h' (obj s3) = Some l3 ∧
       element_count Z' = element_count (obj s3) ∧
       separate hasher key_equal h' (obj s3) Z' ∧
       unaffected_by hasher key_equal alloc h' (obj s3) Z' ∧
       unaffected_by hasher key_equal alloc h' Z' (obj s3)) ∧
  (∀ tmp, assign hasher key_equal alloc tmp (obj s3) (mkState (mem s3) (obj s3))
          = Ok tt (mkState (mem s3) (obj s3))).
Proof.
  apply (copy_independent hasher key_equal alloc key_equal_sym key_equal_trans
           hasher_equal alloc_fresh (mem s3) (obj s3) l3).
  - apply wf_s3.
  - by vm_compute.
Defined.

(** C10 at [s3]: the iterator to the first entry steps back to past-the-end,
    and every step from it returns. *)
Lemma iterator_steps_checked_witness :
  let h := mem s3 in
  let it := mkIt (Some 1%positive) (Some 1%positive) in
  (iterator_predec h it = Some (mkIt None (container it)) ∧
   iterator_postdec h it = Some (it, mkIt None (container it)) ∧
   const_iterator_predec h it = Some (mkIt None (container it)) ∧
   const_iterator_postdec h it = Some (it, mkIt None (container it))) ∧
  (is_Some (iterator_preinc h it) ∧ is_Some (iterator_postinc h it) ∧
   is_Some (iterator_predec h it) ∧ is_Some (iterator_postdec h it) ∧
   is_Some (const_iterator_preinc h it) ∧
   is_Some (const_iterator_postinc h it) ∧
   is_Some (const_iterator_predec h it) ∧
   is_Some (const_iterator_postdec h it)).
Proof.
  pose proof (iterator_steps_checked hasher key_equal key_equal_sym
                key_equal_trans hasher_equal (mem s3) (obj s3)
                (mkIt (Some 1%positive) (Some 1%positive)) (proj1 wf_s3))
    as (_ & Hfirst & Hall).
  split.
  - apply Hfirst. reflexivity.
  - apply Hall. right. exists 1. by vm_compute.
Defined.


(** A second map, at address 2 in the heap of [s3], holding (7, 70) and
    (8, 80). *)
Definition l2 : list (N * N) := [(7, 70); (8, 80)].
Definition s3' : state N N :=
  Eval vm_compute in insert_all l2 (mkState (mem s3) (empty_map 2)).

(** Calls on a new map. *)
Definition calls : list (@op N N) :=
  [op_insert (1, 10); op_insert (17, 20); op_subscript 5; op_erase 1;
   op_insert (17, 99); op_erase 4; op_insert (1, 11); op_clear;
   op_insert (3, 30); op_subscript 3].

Lemma separate_s3_empty :
  separate hasher key_equal (mem s3) (obj s3) (empty_map 2).
Proof.
  destruct wf_s3 as ((ls & cs & Hi) & _).
  eexists ls, cs, [], _. split; [done|]. split; [apply inv_empty_map|].
  by intros z _ ?%elem_of_nil.
Qed.

Lemma separate_insert_all X l s :
  separate hasher key_equal (mem s) X (obj s) →
  wf hasher key_equal (mem s) (obj s) → inserts_ok l s = true →
  separate hasher key_equal (mem (insert_all l s)) X (obj (insert_all l s)).
Proof.
  revert s. induction l as [|v l IH]; intros s Hsep Hwf Hok; [done|].
  simpl in *. unfold run.
  destruct (separate_unaffected hasher key_equal alloc key_equal_sym
              key_equal_trans hasher_equal alloc_fresh (mem s) X (obj s) Hsep)
    as [Hins _]; [apply Hwf..|].
  destruct (Hins v) as (r & h' & Y' & Hrun & Hsep' & _).
  destruct s as [h Y]. simpl in *. rewrite Hrun in *. simpl in *.
  apply andb_true_iff in Hok as [Hr Hok]. apply IH; [done| |done].
  eapply insert_wf;
    eauto using key_equal_sym, key_equal_trans, hasher_equal, alloc_fresh.
  unfold in_range. by apply N.leb_le.
Qed.

Lemma separate_s3' : separate hasher key_equal (mem s3') (obj s3) (obj s3').
Proof.
  apply (separate_insert_all (obj s3) l2 (mkState (mem s3) (empty_map 2))).
  - apply separate_s3_empty.
  - apply wf_empty_map.
  - by vm_compute.
Qed.

Lemma shape_s3_in_s3' : shape hasher key_equal (mem s3') (obj s3).
Proof. destruct separate_s3' as (ls & cs & _ & _ & Hi & _). by exists ls, cs. Qed.

Lemma shape_s3' : shape hasher key_equal (mem s3') (obj s3').
Proof. destruct separate_s3' as (_ & _ & ls & cs & _ & Hi & _). by exists ls, cs. Qed.

Lemma wf_s3_in_s3' : wf hasher key_equal (mem s3') (obj s3).
Proof. split; [apply shape_s3_in_s3'|apply wf_s3]. Qed.

Lemma wf_s3' : wf hasher key_equal (mem s3') (obj s3').
Proof.
  split; [apply shape_s3'|]. split.
  - split; [by exists 0|]. by vm_compute.
  - by vm_compute.
Qed.

(** The two maps of [s3'] after [swap]: well-formed, each with the entries
    the other had. *)
Lemma wf_swapped_1 : wf hasher key_equal (mem s3') (swap (obj s3) (obj s3')).1.
Proof.
  destruct wf_s3' as ((ls & cs & Hi) & Hl & Hr). split; [|done].
  exists ls, cs. by apply (inv_this hasher key_equal _ (obj s3')).
Qed.

Lemma wf_swapped_2 : wf hasher key_equal (mem s3') (swap (obj s3) (obj s3')).2.
Proof.
  destruct wf_s3_in_s3' as ((ls & cs & Hi) & Hl & Hr). split; [|done].
  exists ls, cs. by apply (inv_this hasher key_equal _ (obj s3)).
Qed.

(** C5: the calls [it7 = b.find(7); a.swap(b); b.erase(it7)] on the maps [a]
    at address 1, holding the keys 1, 17 and 3, and [b] at address 2, holding
    7 and 8.  After the swap the node of [it7] is an entry of [a], while
    [it7] still records [b] as its container.  [erase] on [b] does not
    throw: it unlinks the node through the bucket array, head and tail of
    [b], frees it and decrements the size of [b].  Afterwards [b], which held
    three pairs, iterates over (8, 80) alone with a size of 2, and [a] still
    starts at the freed node: its traversal and [find] of 7 fault. *)
Lemma erase_after_swap_corrupts :
  ∃ it7 h' b',
    find hasher key_equal 7 (mkState (mem s3') (obj s3'))
    = Ok it7 (mkState (mem s3') (obj s3')) ∧
    deref (mem s3') it7 = Some (7, 70) ∧
    container it7 = Some (this (swap (obj s3) (obj s3')).2) ∧
    wf hasher key_equal (mem s3') (swap (obj s3) (obj s3')).1 ∧
    wf hasher key_equal (mem s3') (swap (obj s3) (obj s3')).2 ∧
    contents (mem s3') (swap (obj s3) (obj s3')).1 = Some [(7, 70); (8, 80)] ∧
    contents (mem s3') (swap (obj s3) (obj s3')).2
    = Some [(1, 10); (17, 20); (3, 30)] ∧
    find hasher key_equal 7 (mkState (mem s3') (swap (obj s3) (obj s3')).1)
    = Ok (mkIt (current it7) (Some 1%positive))
         (mkState (mem s3') (swap (obj s3) (obj s3')).1) ∧
    erase hasher it7 (mkState (mem s3') (swap (obj s3) (obj s3')).2)
    = Ok tt (mkState h' b') ∧
    contents h' b' = Some [(8, 80)] ∧ element_count b' = 2 ∧
    deref h' it7 = None ∧
    contents h' (swap (obj s3) (obj s3')).1 = None ∧
    find hasher key_equal 7 (mkState h' (swap (obj s3) (obj s3')).1) = Fault.
Proof.
  eexists _, _, _. split; [by vm_compute|].
  split; [by vm_compute|]. split; [by vm_compute|].
  split; [apply wf_swapped_1|]. split; [apply wf_swapped_2|].
  split; [by vm_compute|]. split; [by vm_compute|]. split; [by vm_compute|].
  split; [by vm_compute|].
  repeat split; by vm_compute.
Qed.

(** X1 at [s3], for the key 17. *)
Lemma find_checked_witness :
  ∃ it : iterator,
    find hasher key_equal 17 {| mem := mem s3; obj := obj s3 |} =
    Ok it {| mem := mem s3; obj := obj s3 |}
    ∧ find_const hasher key_equal 17 {| mem := mem s3; obj := obj s3 |} =
      Ok it {| mem := mem s3; obj := obj s3 |}
      ∧ container it = Some (this (obj s3))
        ∧ deref (mem s3) it = assoc key_equal 17 l3
          ∧ it_eq it {| current := None; container := Some (this (obj s3)) |} =
            bool_decide (assoc key_equal 17 l3 = None)
            ∧ (∀ kv : N * N,
                 assoc key_equal 17 l3 = Some kv → kv ∈ l3 ∧ key_equal kv.1 17 = true)
              ∧ (assoc key_equal 17 l3 = None
                 → ∀ kv : N * N, kv ∈ l3 → key_equal kv.1 17 = false).
Proof.
  apply (find_checked hasher key_equal key_equal_sym key_equal_trans hasher_equal
           (mem s3) (obj s3) l3 17).
  - apply wf_s3.
  - by vm_compute.
Defined.

(** X2 at [s3], for the key 17. *)
Lemma count_is_membership_witness :
  count hasher key_equal 17 {| mem := mem s3; obj := obj s3 |} =
  Ok (N.of_nat (length (filter (λ kv : N * N, key_equal kv.1 17 = true) l3)))
    {| mem := mem s3; obj := obj s3 |}
  ∧ (length (filter (λ kv : N * N, key_equal kv.1 17 = true) l3) <= 1)%nat
    ∧ (length (filter (λ kv : N * N, key_equal kv.1 17 = true) l3) = 1%nat
       ↔ is_Some (assoc key_equal 17 l3)).
Proof.
  apply (count_is_membership hasher key_equal key_equal_sym key_equal_trans hasher_equal
           (mem s3) (obj s3) l3 17).
  - apply wf_s3.
  - by vm_compute.
Defined.

(** X3 at [s3]. *)
Lemma size_is_length_witness :
  size {| mem := mem s3; obj := obj s3 |} =
  Ok (N.of_nat (length l3)) {| mem := mem s3; obj := obj s3 |}
  ∧ empty {| mem := mem s3; obj := obj s3 |} =
    Ok (bool_decide (l3 = [])) {| mem := mem s3; obj := obj s3 |}
    ∧ ∃ b e : iterator,
        begin {| mem := mem s3; obj := obj s3 |} =
        Ok b {| mem := mem s3; obj := obj s3 |}
        ∧ cbegin {| mem := mem s3; obj := obj s3 |} =
          Ok b {| mem := mem s3; obj := obj s3 |}
          ∧ end_ {| mem := mem s3; obj := obj s3 |} =
            Ok e {| mem := mem s3; obj := obj s3 |}
            ∧ cend {| mem := mem s3; obj := obj s3 |} =
              Ok e {| mem := mem s3; obj := obj s3 |}
              ∧ deref (mem s3) b = l3 !! 0%nat ∧ it_eq b e = bool_decide (l3 = []).
Proof.
  apply (size_is_length hasher key_equal (mem s3) (obj s3) l3).
  - apply wf_s3.
  - by vm_compute.
Defined.

(** X4 at [s3]: two steps from [begin()]. *)
Lemma iterator_walk_witness :
  ∃ b it : iterator,
    begin {| mem := mem s3; obj := obj s3 |} = Ok b {| mem := mem s3; obj := obj s3 |}
    ∧ advance (mem s3) 2 b = Some it
      ∧ container it = Some (this (obj s3))
        ∧ deref (mem s3) it = l3 !! 2%nat
          ∧ it_eq it {| current := None; container := Some (this (obj s3)) |} =
            bool_decide (length l3 <= 2)%nat.
Proof.
  apply (iterator_walk hasher key_equal (mem s3) (obj s3) l3 2).
  - apply wf_s3.
  - by vm_compute.
Defined.

(** X5 at the second entry of [s3]. *)
Lemma iterator_back_and_forth_witness :
  ∃ it' : iterator,
    iterator_preinc (mem s3)
      {| current := Some 2%positive; container := Some 1%positive |} =
    Some it'
    ∧ (if decide (2 < length l3)%nat is left _
       then
        iterator_predec (mem s3) it' =
        Some {| current := Some 2%positive; container := Some 1%positive |}
       else current it' = None ∧ iterator_predec (mem s3) it' = Some it')
      ∧ ∀ k : nat,
          1%nat = S k
          → ∃ p : iterator,
              iterator_predec (mem s3)
                {| current := Some 2%positive; container := Some 1%positive |} =
              Some p
              ∧ advance (mem s3) k
                  {| current := Some 1%positive; container := Some 1%positive |} =
                Some p
                ∧ iterator_preinc (mem s3) p =
                  Some {| current := Some 2%positive; container := Some 1%positive |}.
Proof.
  apply (iterator_back_and_forth hasher key_equal (mem s3) (obj s3) l3 1
           (mkIt (Some 1%positive) (Some 1%positive))
           (mkIt (Some 2%positive) (Some 1%positive))).
  - apply wf_s3.
  - by vm_compute.
  - reflexivity.
  - reflexivity.
  - simpl. lia.
Defined.

(** X6 at [s3], for the keys 17 and 3. *)
Lemma find_same_entry_witness :
  ∃ it1 it2 : iterator,
    find hasher key_equal 17 {| mem := mem s3; obj := obj s3 |} =
    Ok it1 {| mem := mem s3; obj := obj s3 |}
    ∧ find hasher key_equal 3 {| mem := mem s3; obj := obj s3 |} =
      Ok it2 {| mem := mem s3; obj := obj s3 |}
      ∧ it_eq it1 it2 = key_equal 17 3 ∧ it_neq it1 it2 = negb (key_equal 17 3).
Proof.
  apply (find_same_entry hasher key_equal key_equal_sym key_equal_trans hasher_equal
           (mem s3) (obj s3) l3 17 3).
  - apply wf_s3.
  - by vm_compute.
  - eexists. reflexivity.
Defined.

(** X7 at [s3], inserting (5, 50). *)
Lemma insert_then_find_witness :
  ∃ (it : iterator) (b : bool) (h' : gmap positive (Node N N)) 
    (m' : linked_hashmap) (x : positive),
    insert hasher key_equal alloc (5, 50) {| mem := mem s3; obj := obj s3 |} =
    Ok (it, b) {| mem := h'; obj := m' |}
    ∧ find hasher key_equal (5, 50).1 {| mem := h'; obj := m' |} =
      Ok it {| mem := h'; obj := m' |}
      ∧ deref h' it =
        Some
          match assoc key_equal (5, 50).1 l3 with
          | Some old => old
          | None => (5, 50)
          end
        ∧ b =
          match assoc key_equal (5, 50).1 l3 with
          | Some _ => false
          | None => true
          end
          ∧ count hasher key_equal (5, 50).1 {| mem := h'; obj := m' |} =
            Ok 1 {| mem := h'; obj := m' |}
            ∧ current it = Some x
              ∧ at_ hasher key_equal (5, 50).1 {| mem := h'; obj := m' |} =
                Ok x {| mem := h'; obj := m' |}.
Proof.
  apply (insert_then_find hasher key_equal alloc key_equal_refl key_equal_sym
           key_equal_trans hasher_equal alloc_fresh (mem s3) (obj s3) l3 (5, 50)).
  - apply wf_s3.
  - by vm_compute.
Defined.

(** X8 at [s12]: the thirteenth insertion rehashes, and the iterator to the
    entry of 3 stays. *)
Lemma insert_keeps_iterators_witness :
  ∃ (r : iterator * bool) (h' : gmap positive (Node N N)) (m' : linked_hashmap),
    insert hasher key_equal alloc (12, 120) {| mem := mem s12; obj := obj s12 |} =
    Ok r {| mem := h'; obj := m' |}
    ∧ find hasher key_equal 3 {| mem := h'; obj := m' |} =
      Ok {| current := Some 4%positive; container := Some 1%positive |}
        {| mem := h'; obj := m' |}
      ∧ deref h' {| current := Some 4%positive; container := Some 1%positive |} =
        deref (mem s12) {| current := Some 4%positive; container := Some 1%positive |}
        ∧ is_Some
            (deref (mem s12)
               {| current := Some 4%positive; container := Some 1%positive |}).
Proof.
  apply (insert_keeps_iterators hasher key_equal alloc key_equal_sym
           key_equal_trans hasher_equal alloc_fresh (mem s12) (obj s12) (12, 120) 3
           (mkIt (Some 4%positive) (Some 1%positive))).
  - apply wf_s12.
  - by vm_compute.
  - done.
Defined.

(** X9 at [s3]: erasing the entry of 17 leaves the iterator to the entry
    of 3. *)
Lemma erase_keeps_iterators_witness :
  ∃ (h' : gmap positive (Node N N)) (m' : linked_hashmap),
    erase hasher {| current := Some 2%positive; container := Some 1%positive |}
      {| mem := mem s3; obj := obj s3 |} =
    Ok () {| mem := h'; obj := m' |}
    ∧ find hasher key_equal 3 {| mem := h'; obj := m' |} =
      Ok {| current := Some 3%positive; container := Some 1%positive |}
        {| mem := h'; obj := m' |}
      ∧ deref h' {| current := Some 3%positive; container := Some 1%positive |} =
        deref (mem s3) {| current := Some 3%positive; container := Some 1%positive |}
        ∧ bucket_count m' = bucket_count (obj s3)
          ∧ deref h' {| current := Some 2%positive; container := Some 1%positive |} =
            None.
Proof.
  apply (erase_keeps_iterators hasher key_equal key_equal_sym key_equal_trans hasher_equal
           (mem s3) (obj s3) 17 (mkIt (Some 2%positive) (Some 1%positive))
           3 (mkIt (Some 3%positive) (Some 1%positive))).
  - apply wf_s3.
  - by vm_compute.
  - done.
  - by vm_compute.
  - reflexivity.
Defined.

(** X10 at [s3], with the pair (5, 50). *)
Lemma insert_then_erase_witness :
  ∃ (it : iterator) (h1 : gmap positive (Node N N)) (m1 : linked_hashmap) 
    (h2 : gmap positive (Node N N)) (m2 : linked_hashmap),
    insert hasher key_equal alloc (5, 50) {| mem := mem s3; obj := obj s3 |} =
    Ok (it, true) {| mem := h1; obj := m1 |}
    ∧ erase hasher it {| mem := h1; obj := m1 |} = Ok () {| mem := h2; obj := m2 |}
      ∧ shape hasher key_equal h2 m2
        ∧ contents h2 m2 = Some l3
          ∧ element_count m2 = element_count (obj s3)
            ∧ (∀ z : positive, is_Some (h2 !! z) ↔ is_Some (mem s3 !! z))
              ∧ ∀ (key : N) (it' : iterator),
                  find hasher key_equal key {| mem := mem s3; obj := obj s3 |} =
                  Ok it' {| mem := mem s3; obj := obj s3 |}
                  → find hasher key_equal key {| mem := h2; obj := m2 |} =
                    Ok it' {| mem := h2; obj := m2 |}.
Proof.
  apply (insert_then_erase hasher key_equal alloc key_equal_sym key_equal_trans
           hasher_equal alloc_fresh (mem s3) (obj s3) l3 (5, 50)).
  - apply wf_s3.
  - by vm_compute.
  - by vm_compute.
Defined.

(** X11 at [s3]. *)
Lemma clear_resets_witness :
  ∃ h' : gmap positive (Node N N),
    clear {| mem := mem s3; obj := obj s3 |} =
    Ok () {| mem := h'; obj := fresh_map (this (obj s3)) (bucket_count (obj s3)) |}
    ∧ destroy {| mem := mem s3; obj := obj s3 |} =
      Ok () {| mem := h'; obj := fresh_map (this (obj s3)) (bucket_count (obj s3)) |}
      ∧ shape hasher key_equal h' (fresh_map (this (obj s3)) (bucket_count (obj s3)))
        ∧ contents h' (fresh_map (this (obj s3)) (bucket_count (obj s3))) = Some []
          ∧ base.size (mem s3) = (base.size h' + length l3)%nat
            ∧ (∀ z : positive, h' !! z = None ∨ h' !! z = mem s3 !! z)
              ∧ (∀ (key : N) (it : iterator),
                   find hasher key_equal key {| mem := mem s3; obj := obj s3 |} =
                   Ok it {| mem := mem s3; obj := obj s3 |} → 
                   deref h' it = None)
                ∧ ∀ key : N,
                    find hasher key_equal key
                      {|
                        mem := h';
                        obj := fresh_map (this (obj s3)) (bucket_count (obj s3))
                      |} =
                    Ok {| current := None; container := Some (this (obj s3)) |}
                      {|
                        mem := h';
                        obj := fresh_map (this (obj s3)) (bucket_count (obj s3))
                      |}.
Proof.
  apply (clear_resets hasher key_equal key_equal_sym key_equal_trans hasher_equal
           (mem s3) (obj s3) l3).
  - apply wf_s3.
  - by vm_compute.
Defined.

(** X12 for the two maps of [s3']. *)
Lemma swap_exchanges_witness :
  this (swap (obj s3) (obj s3')).1 = this (obj s3)
  ∧ this (swap (obj s3) (obj s3')).2 = this (obj s3')
    ∧ shape hasher key_equal (mem s3') (swap (obj s3) (obj s3')).1
      ∧ shape hasher key_equal (mem s3') (swap (obj s3) (obj s3')).2
        ∧ contents (mem s3') (swap (obj s3) (obj s3')).1 = Some l2
          ∧ contents (mem s3') (swap (obj s3) (obj s3')).2 = Some l3
            ∧ bucket_count (swap (obj s3) (obj s3')).1 = bucket_count (obj s3')
              ∧ bucket_count (swap (obj s3) (obj s3')).2 = bucket_count (obj s3)
                ∧ swap (swap (obj s3) (obj s3')).1 (swap (obj s3) (obj s3')).2 =
                  (obj s3, obj s3')
                  ∧ ∀ (key : N) (it : iterator),
                      find hasher key_equal key {| mem := mem s3'; obj := obj s3' |} =
                      Ok it {| mem := mem s3'; obj := obj s3' |}
                      → find hasher key_equal key
                          {| mem := mem s3'; obj := (swap (obj s3) (obj s3')).1 |} =
                        Ok
                          {|
                            current := current it; container := Some (this (obj s3))
                          |} {| mem := mem s3'; obj := (swap (obj s3) (obj s3')).1 |}
                        ∧ (this (obj s3) ≠ this (obj s3')
                           → erase hasher it
                               {|
                                 mem := mem s3'; obj := (swap (obj s3) (obj s3')).1
                               |} =
                             Throw invalid_iterator
                               {|
                                 mem := mem s3'; obj := (swap (obj s3) (obj s3')).1
                               |}).
Proof.
  apply (swap_exchanges hasher key_equal key_equal_sym key_equal_trans hasher_equal
           (mem s3') (obj s3) (obj s3') l3 l2).
  - apply shape_s3_in_s3'.
  - apply shape_s3'.
  - by vm_compute.
  - by vm_compute.
Defined.

(** X13 for [calls] on a new map at address 2 in the heap of [s3]. *)
Lemma calls_refine_list_witness :
  ∃ (h' : gmap positive (Node N N)) (m' : linked_hashmap),
    run_ops hasher key_equal default_T alloc calls
      {| mem := mem s3; obj := empty_map 2 |} =
    Ok () {| mem := h'; obj := m' |}
    ∧ wf hasher key_equal h' m'
      ∧ this m' = 2%positive
        ∧ contents h' m' = Some (foldl (abs_op key_equal default_T) [] calls)
          ∧ size {| mem := h'; obj := m' |} =
            Ok (N.of_nat (length (foldl (abs_op key_equal default_T) [] calls)))
              {| mem := h'; obj := m' |}.
Proof.
  apply (calls_refine_list hasher key_equal default_T alloc key_equal_sym
           key_equal_trans hasher_equal alloc_fresh (mem s3) 2 calls).
  by vm_compute.
Defined.

(** X14 for [calls]. *)
Lemma calls_keep_keys_distinct_witness :
  ∃ (h' : gmap positive (Node N N)) (m' : linked_hashmap) (l : list (N * N)),
    run_ops hasher key_equal default_T alloc calls
      {| mem := mem s3; obj := empty_map 2 |} =
    Ok () {| mem := h'; obj := m' |}
    ∧ contents h' m' = Some l
      ∧ distinct_keys key_equal l
        ∧ ∀ key : N,
            count hasher key_equal key {| mem := h'; obj := m' |} =
            Ok 0 {| mem := h'; obj := m' |}
            ∨ count hasher key_equal key {| mem := h'; obj := m' |} =
              Ok 1 {| mem := h'; obj := m' |}.
Proof.
  apply (calls_keep_keys_distinct hasher key_equal default_T alloc key_equal_sym
           key_equal_trans hasher_equal alloc_fresh (mem s3) 2 calls).
  by vm_compute.
Defined.

(** X15 for [calls]: the nodes of [s3] are untouched. *)
Lemma calls_leak_nothing_witness :
  ∃ (h' : gmap positive (Node N N)) (m' : linked_hashmap) (l : list (N * N)),
    run_ops hasher key_equal default_T alloc calls
      {| mem := mem s3; obj := empty_map 2 |} =
    Ok () {| mem := h'; obj := m' |}
    ∧ contents h' m' = Some l
      ∧ base.size h' = (base.size (mem s3) + length l)%nat
        ∧ ∀ z : positive, is_Some (mem s3 !! z) → h' !! z = mem s3 !! z.
Proof.
  apply (calls_leak_nothing hasher key_equal default_T alloc key_equal_sym
           key_equal_trans hasher_equal alloc_fresh (mem s3) 2 calls).
  by vm_compute.
Defined.

(** X17 at [s3], copied to address 2. *)
Lemma copy_allocates_exactly_witness :
  ∃ (h' : gmap positive (Node N N)) (Y : linked_hashmap),
    copy_construct hasher key_equal alloc 2 (obj s3) (mem s3) =
    Ok () {| mem := h'; obj := Y |}
    ∧ bucket_count Y = bucket_count (obj s3)
      ∧ contents h' Y = Some l3
        ∧ base.size h' = (base.size (mem s3) + length l3)%nat
          ∧ (∀ z : positive, is_Some (mem s3 !! z) → h' !! z = mem s3 !! z)
            ∧ destroy {| mem := h'; obj := Y |} =
              Ok () {| mem := mem s3; obj := fresh_map 2 (bucket_count (obj s3)) |}.
Proof.
  apply (copy_allocates_exactly hasher key_equal alloc key_equal_sym
           key_equal_trans hasher_equal alloc_fresh (mem s3) (obj s3) l3 2).
  - apply wf_s3.
  - by vm_compute.
Defined.

(** X18: the map at address 2 of [s3'] is assigned the map at address 1. *)
Lemma assign_releases_witness :
  ∃ (h' : gmap positive (Node N N)) (Z' : linked_hashmap),
    assign hasher key_equal alloc 3 (obj s3) {| mem := mem s3'; obj := obj s3' |} =
    Ok () {| mem := h'; obj := Z' |}
    ∧ this Z' = this (obj s3')
      ∧ bucket_count Z' = bucket_count (obj s3)
        ∧ contents h' Z' = Some l3
          ∧ (base.size h' + length l2)%nat = (base.size (mem s3') + length l3)%nat
            ∧ ∀ (key : N) (it : iterator),
                find hasher key_equal key {| mem := mem s3'; obj := obj s3' |} =
                Ok it {| mem := mem s3'; obj := obj s3' |} → 
                deref h' it = None.
Proof.
  apply (assign_releases hasher key_equal alloc key_equal_sym key_equal_trans
           hasher_equal alloc_fresh (mem s3') (obj s3) (obj s3') l3 l2 3).
  - apply wf_s3_in_s3'.
  - apply separate_s3'.
  - done.
  - by vm_compute.
  - by vm_compute.
Defined.

(** X19 at [s3], for the absent key 5. *)
Lemma subscript_then_at_witness :
  ∃ (x : positive) (h' : gmap positive (Node N N)) (m' : linked_hashmap),
    subscript hasher key_equal default_T alloc 5 {| mem := mem s3; obj := obj s3 |} =
    Ok x {| mem := h'; obj := m' |}
    ∧ at_ hasher key_equal 5 {| mem := h'; obj := m' |} =
      Ok x {| mem := h'; obj := m' |}
      ∧ subscript hasher key_equal default_T alloc 5 {| mem := h'; obj := m' |} =
        Ok x {| mem := h'; obj := m' |}
        ∧ count hasher key_equal 5 {| mem := h'; obj := m' |} =
          Ok 1 {| mem := h'; obj := m' |} ∧ is_Some (h' !! x).
Proof.
  apply (subscript_then_at hasher key_equal default_T alloc key_equal_refl
           key_equal_sym key_equal_trans hasher_equal alloc_fresh (mem s3) (obj s3) 5).
  apply wf_s3.
Defined.

(** X16 for [calls] followed by one more insertion. *)
Lemma calls_grow_capacity_witness :
  ∃ (h1 : gmap positive (Node N N)) (m1 : linked_hashmap)
    (h2 : gmap positive (Node N N)) (m2 : linked_hashmap),
    run_ops hasher key_equal default_T alloc calls
            {| mem := mem s3; obj := empty_map 2 |}
    = Ok () {| mem := h1; obj := m1 |}
    ∧ run_op hasher key_equal default_T alloc (op_insert (9, 90))
             {| mem := h1; obj := m1 |}
      = Ok () {| mem := h2; obj := m2 |}
      ∧ (∃ k, bucket_count m1 = 16 * 2 ^ k)
        ∧ (bucket_count m2 = bucket_count m1 ∨ bucket_count m2 = 2 * bucket_count m1)
          ∧ 4 * element_count m2 ≤ 3 * bucket_count m2.
Proof.
  apply (calls_grow_capacity hasher key_equal default_T alloc key_equal_sym
           key_equal_trans hasher_equal alloc_fresh (mem s3) 2 calls
           (op_insert (9, 90))).
  by vm_compute.
Defined.

End Instance.
